(** * SonicLink: a shallow embedding of the wire-format pipeline

    The development follows the Python sources of the repository:
    - [soniclink/compression.py]  (module [Compression]),
    - [soniclink/encryption.py]   (module [Encryption]),
    - [soniclink/modulation.py]   (module [Modulation]),
    - [soniclink/audio.py]        (module [Audio]).

    Python values are modelled as follows.  A [bytes] object is a list of
    integers in [0, 256); an [int] is a [Z]; a [str] is a [string]; a
    [dict] is a [gmap]; a [Counter] is an association list in insertion
    order (the order [items()] yields); a NumPy array of floats is a list
    of rationals, with exact arithmetic standing for the rounded one.
    A call that may raise returns a [result]. *)

From Stdlib Require Import ZArith QArith Qminmax Qabs Qround.
From Stdlib Require Import List String Ascii Bool Lia.
From stdpp Require Import base list gmap strings.
Import ListNotations.

Set Warnings "-register-all".
Local Open Scope Z_scope.

(** ** Python-level helpers *)

Module Py.

(** The outcome of a call: a value, or an exception. *)
Inductive result (A : Type) : Type :=
| Return (a : A)
| Raise.
Arguments Return {A} a.
Arguments Raise {A}.

Definition bind {A B : Type} (r : result A) (k : A -> result B) : result B :=
  match r with
  | Return a => k a
  | Raise => Raise
  end.

(** [bytes]: every element is expected in [0, 256). *)
Definition bytes : Type := list Z.

Definition is_byte (b : Z) : Prop := 0 <= b < 256.
Definition is_bytes (l : bytes) : Prop := Forall is_byte l.

Definition is_byteb (b : Z) : bool := (0 <=? b) && (b <? 256).

(** [range(0, n, step)] for a positive [step]. *)
Definition range_step (n step : nat) : list nat :=
  map (fun j => (j * step)%nat) (seq 0 ((n + step - 1) / step)).

(** [l[i:j]] for non-negative [i] and [j] (out-of-range bounds clamp). *)
Definition slice {A : Type} (l : list A) (i j : nat) : list A :=
  take (j - i) (drop i l).

(** [int.from_bytes(l, 'big')]. *)
Definition from_bytes_big (l : bytes) : Z :=
  fold_left (fun acc b => acc * 256 + b) l 0.

(** The [n] big-endian digits of [v], most significant first. *)
Fixpoint be_digits (n : nat) (v : Z) : bytes :=
  match n with
  | O => []
  | S n' => (v / 256 ^ Z.of_nat n') mod 256 :: be_digits n' v
  end.

(** [v.to_bytes(n, 'big')]: OverflowError outside [0, 256^n). *)
Definition to_bytes_big (n : nat) (v : Z) : result bytes :=
  if (0 <=? v) && (v <? 256 ^ Z.of_nat n) then Return (be_digits n v) else Raise.

(** [bytearray.append(v)]: ValueError outside [0, 256). *)
Definition bytearray_append (buf : bytes) (v : Z) : result bytes :=
  if is_byteb v then Return (buf ++ [v]) else Raise.

#[export] Instance result_ret : MRet result := @Return.
#[export] Instance result_bind : MBind result := fun A B k r => bind r k.

(** A loop that collects the outcomes of [f], leaving at the first
    exception. *)
Fixpoint mapM {A B : Type} (f : A -> result B) (l : list A) : result (list B) :=
  match l with
  | [] => Return []
  | a :: l' => b ← f a; bs ← mapM f l'; Return (b :: bs)
  end.

(** The bytes of an ASCII string literal. *)
Definition bytes_of_string (s : string) : bytes :=
  map (fun a => Z.of_N (N_of_ascii a)) (list_ascii_of_string s).

End Py.

Export Py.

(** ** soniclink/compression.py *)

Module Compression.

(** [class HuffmanNode]: [char] is [None] on internal nodes, the children
    are [None] on leaves and on the placeholder [HuffmanNode()]. *)
Inductive HuffmanNode : Type :=
| mkNode (char : option Z) (freq : Z) (left right : option HuffmanNode).

Definition char (n : HuffmanNode) : option Z :=
  match n with mkNode c _ _ _ => c end.
Definition freq (n : HuffmanNode) : Z :=
  match n with mkNode _ f _ _ => f end.
Definition left (n : HuffmanNode) : option HuffmanNode :=
  match n with mkNode _ _ l _ => l end.
Definition right (n : HuffmanNode) : option HuffmanNode :=
  match n with mkNode _ _ _ r => r end.

(** [HuffmanNode()] *)
Definition empty_node : HuffmanNode := mkNode None 0 None None.

#[export] Instance HuffmanNode_inhabited : Inhabited HuffmanNode :=
  populate empty_node.

(** [HuffmanNode.__lt__] *)
Definition node_lt (a b : HuffmanNode) : bool := freq a <? freq b.

(** *** The [heapq] functions the module calls, on a list used as an array *)

(** The loop of [heapq._siftdown]; [pos] strictly decreases, so [pos]
    units of fuel reach the exit. *)
Fixpoint _siftdown_loop (fuel : nat) (heap : list HuffmanNode)
    (newitem : HuffmanNode) (startpos pos : nat) : list HuffmanNode :=
  match fuel with
  | O => <[pos := newitem]> heap
  | S fuel' =>
      if (startpos <? pos)%nat then
        let parentpos := ((pos - 1) / 2)%nat in
        let parent := heap !!! parentpos in
        if node_lt newitem parent
        then _siftdown_loop fuel' (<[pos := parent]> heap) newitem startpos parentpos
        else <[pos := newitem]> heap
      else <[pos := newitem]> heap
  end.

Definition _siftdown (heap : list HuffmanNode) (startpos pos : nat)
  : list HuffmanNode :=
  _siftdown_loop pos heap (heap !!! pos) startpos pos.

(** The loop of [heapq._siftup]: bubbles the smaller child up until a leaf
    is hit; returns the array and the final [pos]. *)
Fixpoint _siftup_loop (fuel : nat) (heap : list HuffmanNode)
    (endpos pos childpos : nat) : list HuffmanNode * nat :=
  match fuel with
  | O => (heap, pos)
  | S fuel' =>
      if (childpos <? endpos)%nat then
        let rightpos := (childpos + 1)%nat in
        let childpos :=
          if (rightpos <? endpos)%nat
             && negb (node_lt (heap !!! childpos) (heap !!! rightpos))
          then rightpos else childpos in
        let heap := <[pos := heap !!! childpos]> heap in
        _siftup_loop fuel' heap endpos childpos (2 * childpos + 1)%nat
      else (heap, pos)
  end.

Definition _siftup (heap : list HuffmanNode) (pos : nat) : list HuffmanNode :=
  let endpos := length heap in
  let startpos := pos in
  let newitem := heap !!! pos in
  let '(heap, pos) := _siftup_loop (length heap) heap endpos pos (2 * pos + 1)%nat in
  let heap := <[pos := newitem]> heap in
  _siftdown heap startpos pos.

(** [heapq.heapify]: [for i in reversed(range(n//2)): _siftup(x, i)]. *)
Definition heapify (x : list HuffmanNode) : list HuffmanNode :=
  fold_left _siftup (rev (seq 0 (length x / 2)%nat)) x.

(** [heapq.heappop]; [Raise] is the IndexError of popping an empty list. *)
Definition heappop (heap : list HuffmanNode)
  : result (HuffmanNode * list HuffmanNode) :=
  match last heap with
  | None => Raise
  | Some lastelt =>
      let heap := removelast heap in
      match heap with
      | [] => Return (lastelt, heap)
      | returnitem :: _ => Return (returnitem, _siftup (<[0%nat := lastelt]> heap) 0)
      end
  end.

(** [heapq.heappush] *)
Definition heappush (heap : list HuffmanNode) (item : HuffmanNode)
  : list HuffmanNode :=
  let heap := heap ++ [item] in
  _siftdown heap 0 (length heap - 1).

(** *** [collections.Counter] as an insertion-ordered association list *)

Definition Counter : Type := list (Z * Z).

(** [c[k] = v]: an existing key keeps its position. *)
Fixpoint counter_set (c : Counter) (k v : Z) : Counter :=
  match c with
  | [] => [(k, v)]
  | (k', v') :: c' =>
      if k' =? k then (k, v) :: c' else (k', v') :: counter_set c' k v
  end.

Definition counter_get (c : Counter) (k : Z) : Z :=
  match List.find (fun kv => fst kv =? k) c with
  | Some kv => snd kv
  | None => 0
  end.

(** [Counter(data)] *)
Definition Counter_of (data : bytes) : Counter :=
  fold_left (fun c b => counter_set c b (counter_get c b + 1)) data [].

(** *** [HuffmanCompressor] *)

(** The [while len(heap) > 1] loop of [_build_tree]; every round shortens
    the heap by one. *)
Fixpoint _build_tree_loop (fuel : nat) (heap : list HuffmanNode)
  : result (list HuffmanNode) :=
  match fuel with
  | O => Return heap
  | S fuel' =>
      if (1 <? length heap)%nat then
        '(left, heap) ← heappop heap;
        '(right, heap) ← heappop heap;
        let internal := mkNode None (freq left + freq right) (Some left) (Some right) in
        _build_tree_loop fuel' (heappush heap internal)
      else Return heap
  end.

Definition _build_tree (freq_counter : Counter) : result HuffmanNode :=
  let heap := map (fun cf => mkNode (Some (fst cf)) (snd cf) None None) freq_counter in
  let heap := heapify heap in
  heap ← _build_tree_loop (length heap) heap;
  Return (match heap with
          | root :: _ => root
          | [] => empty_node
          end).

(** [_generate_codes]: the dictionary [codes] is threaded through. *)
Fixpoint _generate_codes (node : HuffmanNode) (code : string)
    (codes : gmap Z string) : gmap Z string :=
  match node with
  | mkNode (Some c) _ _ _ => <[c := code]> codes
  | mkNode None _ l r =>
      let codes :=
        match l with
        | Some l => _generate_codes l (code +:+ "0") codes
        | None => codes
        end in
      match r with
      | Some r => _generate_codes r (code +:+ "1") codes
      | None => codes
      end
  end.

(** [int(s, 2)] on a string of binary digits; ValueError otherwise. *)
Fixpoint int_base2_from (acc : Z) (s : string) : result Z :=
  match s with
  | EmptyString => Return acc
  | String "0" s' => int_base2_from (2 * acc) s'
  | String "1" s' => int_base2_from (2 * acc + 1) s'
  | String _ _ => Raise
  end.

Definition int_base2 (s : string) : result Z :=
  match s with
  | EmptyString => Raise
  | _ => int_base2_from 0 s
  end.

(** ["0" * n] *)
Fixpoint zeros (n : nat) : string :=
  match n with
  | O => EmptyString
  | S n' => String "0" (zeros n')
  end.

Definition _bitstring_to_bytes (bitstring : string) : result bytes :=
  let padding_length := ((8 - String.length bitstring mod 8) mod 8)%nat in
  let bitstring := bitstring +:+ zeros padding_length in
  mapM (fun i => int_base2 (substring i 8 bitstring))
       (range_step (String.length bitstring) 8).

(** [format(byte, '08b')] for a byte. *)
Definition format_08b (byte : Z) : string :=
  string_of_list_ascii
    (map (fun i => if Z.testbit byte (Z.of_nat (7 - i)) then "1"%char else "0"%char)
         (seq 0 8)).

Definition _bytes_to_bitstring (data : bytes) : string :=
  fold_left (fun bitstring byte => bitstring +:+ format_08b byte) data EmptyString.

Definition _create_header (freq_counter : Counter) : result bytes :=
  header ← bytearray_append [] (Z.of_nat (length freq_counter));
  fold_left
    (fun acc cf =>
       header ← acc;
       header ← bytearray_append header (fst cf);
       fb ← to_bytes_big 4 (snd cf);
       Return (header ++ fb))
    freq_counter (Return header).

(** [data[i]]: IndexError out of range. *)
Definition index (data : bytes) (i : nat) : result Z :=
  match data !! i with
  | Some b => Return b
  | None => Raise
  end.

Definition _extract_header (data : bytes) : result (Counter * bytes) :=
  num_unique ← index data 0;
  let header_size := (1 + Z.to_nat num_unique * 5)%nat in
  freq_counter ←
    fold_left
      (fun acc j =>
         freq_counter ← acc;
         let i := (1 + j)%nat in
         char ← index data i;
         let freq := from_bytes_big (slice data (i + 1) (i + 5)) in
         Return (counter_set freq_counter char freq))
      (range_step (header_size - 1) 5) (Return []);
  Return (freq_counter, drop header_size data).

(** The lines of [compress] inside [try]. *)
Definition compress_body (data : bytes) : result bytes :=
  let freq_counter := Counter_of data in
  root ← _build_tree freq_counter;
  let codes := _generate_codes root EmptyString ∅ in
  encoded_data ←
    fold_left
      (fun acc byte =>
         encoded_data ← acc;
         match codes !! byte with
         | Some code => Return (encoded_data +:+ code)
         | None => Raise
         end)
      data (Return EmptyString);
  compressed_data ← _bitstring_to_bytes encoded_data;
  header ← _create_header freq_counter;
  Return (header ++ compressed_data).

(** [HuffmanCompressor.compress]: on any exception the input is returned. *)
Definition compress (data : bytes) : bytes :=
  match data with
  | [] => []
  | _ =>
      match compress_body data with
      | Return result => result
      | Raise => data
      end
  end.

(** The [for bit in bitstring] loop of [decompress].  Stepping below a
    node without children makes [current_node] the Python [None], and the
    following [current_node.char] raises. *)
Fixpoint decode_loop (root current_node : HuffmanNode) (bitstring : string)
    (decoded_data : list Z) : result (list Z) :=
  match bitstring with
  | EmptyString => Return decoded_data
  | String bit rest =>
      let next := if Ascii.eqb bit "0" then left current_node else right current_node in
      match next with
      | None => Raise
      | Some current_node =>
          match char current_node with
          | Some c => decode_loop root root rest (decoded_data ++ [c])
          | None => decode_loop root current_node rest decoded_data
          end
      end
  end.

(** The lines of [decompress] inside [try]. *)
Definition decompress_body (data : bytes) : result bytes :=
  '(freq_counter, compressed_data) ← _extract_header data;
  root ← _build_tree freq_counter;
  let bitstring := _bytes_to_bitstring compressed_data in
  decode_loop root root bitstring [].

(** [HuffmanCompressor.decompress]: [None] on any exception. *)
Definition decompress (data : bytes) : option bytes :=
  match data with
  | [] => Some []
  | _ =>
      match decompress_body data with
      | Return result => Some result
      | Raise => None
      end
  end.

End Compression.

(** ** The NumPy calls of the modem and of the audio boundary *)

Module Np.

(** [np.abs] on a real array. *)
Definition np_abs (a : list Q) : list Q := map Qabs a.

(** First index of a maximum, scanning left to right as [np.argmax] does:
    the running best is replaced only by a strictly larger element. *)
Fixpoint argmax_from (best : Q) (best_i i : nat) (a : list Q) : nat :=
  match a with
  | [] => best_i
  | x :: a' =>
      if Qlt_le_dec best x
      then argmax_from x i (S i) a'
      else argmax_from best best_i (S i) a'
  end.

(** [np.argmax]: ValueError on an empty array. *)
Definition np_argmax (a : list Q) : result nat :=
  match a with
  | [] => Raise
  | x :: a' => Return (argmax_from x 0 1 a')
  end.

Fixpoint argmin_from (best : Q) (best_i i : nat) (a : list Q) : nat :=
  match a with
  | [] => best_i
  | x :: a' =>
      if Qlt_le_dec x best
      then argmin_from x i (S i) a'
      else argmin_from best best_i (S i) a'
  end.

(** [np.argmin]: ValueError on an empty array. *)
Definition np_argmin (a : list Q) : result nat :=
  match a with
  | [] => Raise
  | x :: a' => Return (argmin_from x 0 1 a')
  end.


(** Inner product of two windows of equal length. *)
Definition dot (x y : list Q) : Q :=
  fold_right Qplus 0%Q (zip_with Qmult x y).

(** Lag [k] of the correlation of [a] with [v]: [sum_i a[k+i] * v[i]]. *)
Definition lag (a v : list Q) (k : nat) : Q := dot (slice a k (k + length v)) v.

(** The lags of a 'valid' correlation when [a] is at least as long as
    [v]: [k = 0 .. len a - len v]. *)
Definition correlate_lags (a v : list Q) : list Q :=
  map (lag a v) (seq 0 (length a - length v + 1)).

(** [np.correlate(a, v, mode='valid')] on real arrays: ValueError on an
    empty argument; when [a] is the shorter array NumPy swaps the two and
    reverses the outcome. *)
Definition np_correlate_valid (a v : list Q) : result (list Q) :=
  match a, v with
  | [], _ => Raise
  | _, [] => Raise
  | _, _ =>
      if (length a <? length v)%nat
      then Return (rev (correlate_lags v a))
      else Return (correlate_lags a v)
  end.

End Np.

Export Np.

(** ** soniclink/encryption.py *)

Module Encryption.

(** [Crypto.Util.Padding.pad(data, block_size)], PKCS#7 style. *)
Definition pad (data : bytes) (block_size : nat) : bytes :=
  let padding_len := (block_size - length data mod block_size)%nat in
  data ++ repeat (Z.of_nat padding_len) padding_len.

(** [Crypto.Util.Padding.unpad(padded, block_size)]: ValueError on an
    empty input, a length that is no multiple of the block size, or a
    padding that is not well formed. *)
Definition unpad (padded : bytes) (block_size : nat) : result bytes :=
  let pdata_len := length padded in
  if (pdata_len =? 0)%nat then Raise
  else if negb (pdata_len mod block_size =? 0)%nat then Raise
  else
    let padding_len := List.last padded 0 in
    if (padding_len <? 1) || (Z.of_nat (Nat.min block_size pdata_len) <? padding_len)
    then Raise
    else
      let n := Z.to_nat padding_len in
      if bool_decide (drop (pdata_len - n) padded = repeat padding_len n)
      then Return (take (pdata_len - n) padded)
      else Raise.

Section CryptoManager.

(** The PyCryptodome primitives.  [AES.new(key, AES.MODE_CBC, iv)] followed
    by [encrypt]/[decrypt]; [PKCS1_OAEP.new(RSA.import_key(k))] followed
    by [encrypt] (which draws its own randomness, here [seed]) or
    [decrypt].  Keys are the exported key bytes. *)
Variable AES_CBC_encrypt : bytes -> bytes -> bytes -> result bytes.
Variable AES_CBC_decrypt : bytes -> bytes -> bytes -> result bytes.
Variable PKCS1_OAEP_encrypt : bytes -> bytes -> bytes -> result bytes.
Variable PKCS1_OAEP_decrypt : bytes -> bytes -> result bytes.

Definition aes_key_size : nat := 32.
Definition iv_size : nat := 16.
Definition AES_block_size : nat := 16.

(** [CryptoManager.encrypt].  The two [get_random_bytes] draws are the
    arguments [aes_key] and [iv]; an exception is re-raised. *)
Definition encrypt (data recipient_public_key : bytes)
    (aes_key iv seed : bytes) : result bytes :=
  let padded_data := pad data AES_block_size in
  encrypted_data ← AES_CBC_encrypt aes_key iv padded_data;
  encrypted_key ← PKCS1_OAEP_encrypt recipient_public_key seed aes_key;
  key_length ← to_bytes_big 2 (Z.of_nat (length encrypted_key));
  Return (key_length ++ encrypted_key ++ iv ++ encrypted_data).

(** The lines of [decrypt] inside [try]. *)
Definition decrypt_body (encrypted_data private_key : bytes) : result bytes :=
  let key_length := Z.to_nat (from_bytes_big (slice encrypted_data 0 2)) in
  let encrypted_key := slice encrypted_data 2 (2 + key_length) in
  let iv := slice encrypted_data (2 + key_length) (2 + key_length + iv_size) in
  let data := drop (2 + key_length + iv_size) encrypted_data in
  aes_key ← PKCS1_OAEP_decrypt private_key encrypted_key;
  decrypted_padded ← AES_CBC_decrypt aes_key iv data;
  unpad decrypted_padded AES_block_size.

(** [CryptoManager.decrypt]: [None] on any exception. *)
Definition decrypt (encrypted_data private_key : bytes) : option bytes :=
  match decrypt_body encrypted_data private_key with
  | Return decrypted_data => Some decrypted_data
  | Raise => None
  end.

(** What the library documents of the block cipher in CBC mode: on a key
    of 32 bytes, an IV of 16 bytes and a whole number of blocks,
    encryption keeps the length and decryption undoes it. *)
Definition AES_CBC_spec : Prop :=
  forall key iv p : bytes,
    length key = aes_key_size -> length iv = iv_size ->
    (length p mod AES_block_size = 0)%nat ->
    exists c, AES_CBC_encrypt key iv p = Return c
              /\ length c = length p
              /\ AES_CBC_decrypt key iv c = Return p.

(** A recipient key pair: whatever randomness OAEP draws, a message of at
    most 190 bytes is wrapped into fewer than 65536 bytes and the private
    key unwraps it. *)
Definition OAEP_keypair (private_key public_key : bytes) : Prop :=
  forall seed m : bytes,
    (length m <= 190)%nat ->
    exists w, PKCS1_OAEP_encrypt public_key seed m = Return w
              /\ Z.of_nat (length w) < 65536
              /\ PKCS1_OAEP_decrypt private_key w = Return m.

End CryptoManager.

End Encryption.

(** ** soniclink/modulation.py *)

Module Modulation.

Definition carrier_count : nat := 64.
Definition cyclic_prefix_length : nat := 16.

(** A complex sample, as (real, imaginary), in units of [1 / sqrt 42]: the
    pair [(x, y)] stands for [(x + y j) / sqrt 42]. *)
Definition complex : Type := (Q * Q)%type.

Definition levels : list Q := map inject_Z [-7; -5; -3; -1; 1; 3; 5; 7].

(** [_create_qam_constellation] (the same in both classes): the outer loop
    runs over the real values, the inner one over the imaginary values. *)
Definition _create_qam_constellation : list complex :=
  flat_map (fun real => map (fun imag => (real, imag)) levels) levels.

Definition qam_constellation : list complex := _create_qam_constellation.

(** [sum(bit * (2 ** (top - j)) for j, bit in enumerate(bit_group))] *)
Definition weighted_sum (top : Z) (bit_group : list Z) : Z :=
  fold_right Z.add 0
    (imap (fun j bit => bit * 2 ^ (top - Z.of_nat j)) bit_group).

(** The inner loop of [_bytes_to_bits]: the eight bits of one byte. *)
Definition byte_bits (byte : Z) : list Z :=
  map (fun i => Z.land (Z.shiftr byte (7 - Z.of_nat i)) 1) (seq 0 8).

(** [OFDMModulator._bytes_to_bits] *)
Definition _bytes_to_bits (data : bytes) : list Z :=
  flat_map byte_bits data.

(** [constellation[i]] on a NumPy array of [n] points: an index in
    [-n, 0) counts from the end, IndexError outside [-n, n). *)
Definition constellation_at (i : Z) : result complex :=
  let n := Z.of_nat (length qam_constellation) in
  if (i <? - n) || (n <=? i) then Raise
  else match qam_constellation !! Z.to_nat (i mod n) with
       | Some c => Return c
       | None => Raise
       end.

(** [OFDMModulator._bits_to_qam_symbols] *)
Definition _bits_to_qam_symbols (bits : list Z) : result (list complex) :=
  mapM
    (fun i => constellation_at (weighted_sum 5 (slice bits i (i + 6))))
    (filter (fun i => (i + 6 <= length bits)%nat) (range_step (length bits) 6)).

(** [np.abs(self.qam_constellation - symbol)] up to the increasing map
    [d |-> sqrt d / sqrt 42]: the squared distances in the scaled units,
    which have the same first minimum. *)
Definition distances (symbol : complex) : list Q :=
  map (fun c => ((fst c - fst symbol) * (fst c - fst symbol)
                 + (snd c - snd symbol) * (snd c - snd symbol))%Q)
      qam_constellation.

(** The six bits of [closest_idx], most significant first. *)
Definition index_bits (closest_idx : nat) : list Z :=
  map (fun i => Z.land (Z.shiftr (Z.of_nat closest_idx) (5 - Z.of_nat i)) 1) (seq 0 6).

(** [OFDMDemodulator._qam_symbols_to_bits] *)
Fixpoint _qam_symbols_to_bits (symbols : list complex) : result (list Z) :=
  match symbols with
  | [] => Return []
  | symbol :: symbols' =>
      closest_idx ← np_argmin (distances symbol);
      bits ← _qam_symbols_to_bits symbols';
      Return (index_bits closest_idx ++ bits)
  end.

(** [OFDMDemodulator._demodulate_symbols] *)
Fixpoint _demodulate_symbols (symbols : list (list complex)) : result (list Z) :=
  match symbols with
  | [] => Return []
  | symbol :: symbols' =>
      symbol_bits ← _qam_symbols_to_bits symbol;
      bits ← _demodulate_symbols symbols';
      Return (symbol_bits ++ bits)
  end.

(** The loop of [_bits_to_bytes]: one value per group of eight bits. *)
Definition packed (bits : list Z) : list Z :=
  map (fun i => weighted_sum 7 (slice bits i (i + 8)))
      (range_step (length bits) 8).

(** [OFDMDemodulator._bits_to_bytes]: [None] on a bit count that is no
    multiple of 8; [bytes(...)] raises on a value outside [0, 256). *)
Definition _bits_to_bytes (bits : list Z) : result (option bytes) :=
  if negb (length bits mod 8 =? 0)%nat then Return None
  else
    let bytes_data := packed bits in
    if forallb is_byteb bytes_data then Return (Some bytes_data) else Raise.

(** A bit, as the demapper produces them. *)
Definition is_bit (b : Z) : Prop := b = 0 \/ b = 1.

Section Demodulator.

(** [marker]: the start marker [sin(2 pi 17500 n / sample_rate)] for
    [n < int(0.1 * sample_rate)], a table of floats.
    [samples_per_symbol]: [int(symbol_duration * sample_rate)].
    [dft_bin x k]: bin [k] of the discrete Fourier transform of [x].
    [rs_decode]: [RSCodec.decode], which raises on an uncorrectable
    block. *)
Variable marker : list Q.
Variable samples_per_symbol : nat.
Variable dft_bin : list Q -> nat -> complex.
Variable rs_decode : bytes -> result bytes.

(** [np.fft.fft]: ValueError on an empty array, else one bin per sample. *)
Definition np_fft (x : list Q) : result (list complex) :=
  match x with
  | [] => Raise
  | _ => Return (map (dft_bin x) (seq 0 (length x)))
  end.

(** [OFDMDemodulator._extract_data_portion]; an exception of a NumPy call
    leaves the method. *)
Definition _extract_data_portion (audio_data : list Q) : result (option (list Q)) :=
  let marker_samples := length marker in
  correlation ← np_correlate_valid audio_data marker;
  start_idx ← np_argmax (np_abs correlation);
  if Z.of_nat start_idx <? 0 then Return None
  else
    let end_marker := map Qopp marker in
    correlation ← np_correlate_valid (drop start_idx audio_data) end_marker;
    end_idx ← np_argmax (np_abs correlation);
    if Z.of_nat end_idx <? 0 then Return None
    else
      let data_start := (start_idx + marker_samples)%nat in
      let data_end := (start_idx + end_idx)%nat in
      if (data_end <=? data_start)%nat then Return None
      else Return (Some (slice audio_data data_start data_end)).

(** [OFDMDemodulator._extract_ofdm_symbol]: [None] on an exception. *)
Definition _extract_ofdm_symbol (symbol_data : list Q) : option (list complex) :=
  let symbol_without_prefix := drop cyclic_prefix_length symbol_data in
  match np_fft symbol_without_prefix with
  | Return freq_domain => Some (take carrier_count freq_domain)
  | Raise => None
  end.

(** [OFDMDemodulator._extract_ofdm_symbols]; [range] raises on a zero
    step. *)
Definition _extract_ofdm_symbols (data_portion : list Q)
  : result (list (list complex)) :=
  if (samples_per_symbol =? 0)%nat then Raise
  else
    Return
      (omap (fun i =>
               if (i + samples_per_symbol <=? length data_portion)%nat
               then _extract_ofdm_symbol
                      (slice data_portion i (i + samples_per_symbol))
               else None)
            (range_step (length data_portion) samples_per_symbol)).

(** The lines of [demodulate] that follow frame detection: symbol
    extraction, demapping, packing and error correction. *)
Definition demodulate_data_portion (data_portion : list Q) : result (option bytes) :=
  symbols ← _extract_ofdm_symbols data_portion;
  match symbols with
  | [] => Return None
  | _ =>
      bits ← _demodulate_symbols symbols;
      match bits with
      | [] => Return None
      | _ =>
          data ← _bits_to_bytes bits;
          match data with
          | None | Some [] => Return None
          | Some data =>
              match rs_decode data with
              | Return decoded_data => Return (Some decoded_data)
              | Raise => Return (Some data)
              end
          end
      end
  end.

(** [OFDMDemodulator.demodulate]: [None] on any exception. *)
Definition demodulate (audio_data : list Q) : option bytes :=
  match (data_portion ← _extract_data_portion audio_data;
         match data_portion with
         | None => Return None
         | Some data_portion => demodulate_data_portion data_portion
         end) with
  | Return r => r
  | Raise => None
  end.

End Demodulator.

(** Frame detection as the specification words it (section 4.5, step 1),
    for comparison with [_extract_data_portion]: the end marker is searched
    in the tail that starts at the data start, and its peak, counted from
    there, is the data end. *)
Definition frame_detect_spec (marker audio_data : list Q) : result (option (list Q)) :=
  let marker_length := length marker in
  correlation ← np_correlate_valid audio_data marker;
  start_peak ← np_argmax (np_abs correlation);
  let data_start := (start_peak + marker_length)%nat in
  let end_marker := map Qopp marker in
  correlation ← np_correlate_valid (drop data_start audio_data) end_marker;
  end_peak ← np_argmax (np_abs correlation);
  let data_end := (data_start + end_peak)%nat in
  if (data_end <=? data_start)%nat then Return None
  else Return (Some (slice audio_data data_start data_end)).

End Modulation.

(** ** soniclink/audio.py *)

Module Audio.





End Audio.

(** ** Stand-ins for the library calls in concrete runs *)

Module Standin.

(** A transform whose every bin is the origin. *)
Definition dft_zero : list Q -> nat -> Modulation.complex := fun _ _ => (0%Q, 0%Q).

(** A decoder that finds every block uncorrectable. *)
Definition rs_uncorrectable : bytes -> result bytes := fun _ => Raise.

(** A byte-wise involution for the block cipher, a reversal for the key
    wrap. *)
Definition toy_cipher (key iv p : bytes) : result bytes :=
  Return (map (fun x => 255 - x) p).
Definition toy_wrap (public_key seed m : bytes) : result bytes := Return (rev m).
Definition toy_unwrap (private_key w : bytes) : result bytes := Return (rev w).

End Standin.

Export Standin.

(** ** soniclink/modulation.py, the transmitter *)

Module Modulator.

Import Modulation.

(** [bits_per_symbol = self.carrier_count * 6] *)
Definition bits_per_symbol : nat := (carrier_count * 6)%nat.

(** [a[start:stop] = values] on a one-dimensional NumPy array: the slice is
    clipped to the array; the values must have the length of the slice,
    or length 1 (they are then broadcast); otherwise ValueError. *)
Definition assign_slice (a : list Q) (start stop : nat) (values : list Q)
  : result (list Q) :=
  let start := Nat.min start (length a) in
  let stop := Nat.max start (Nat.min stop (length a)) in
  if (length values =? stop - start)%nat
  then Return (take start a ++ values ++ drop stop a)
  else
    match values with
    | [v] => Return (take start a ++ repeat v (stop - start) ++ drop stop a)
    | _ => Raise
    end.

Section OFDMModulator.

(** [marker]: the start marker, as in the demodulator.
    [samples_per_symbol]: [int(symbol_duration * sample_rate)].
    [idft_bin x k]: sample [k] of [np.fft.ifft(x)], as (real, imaginary).
    [resample_at x num k]: sample [k] of [scipy.signal.resample(x, num)].
    [rs_encode]: [RSCodec.encode]. *)
Variable marker : list Q.
Variable samples_per_symbol : nat.
Variable idft_bin : list complex -> nat -> Q * Q.
Variable resample_at : list Q -> nat -> nat -> Q.
Variable rs_encode : bytes -> result bytes.

(** [float32 x]: the value a sample [x] has once it is stored in an array
    of [dtype=np.float32]. *)
Variable float32 : Q -> Q.

(** The lines of [modulate] up to the grouping into symbols: error
    correction, bits, zero padding to whole symbols, constellation
    mapping. *)
Definition modulate_symbols (data : bytes) : result (list (list complex)) :=
  encoded_data ← rs_encode data;
  let bits := _bytes_to_bits encoded_data in
  let padding_length :=
    ((bits_per_symbol - length bits mod bits_per_symbol) mod bits_per_symbol)%nat in
  let bits := bits ++ repeat 0 padding_length in
  mapM (fun i => _bits_to_qam_symbols (slice bits i (i + bits_per_symbol)))
       (range_step (length bits) bits_per_symbol).

(** [OFDMModulator._generate_ofdm_symbol]; assigning more than
    [carrier_count] points to [ifft_input] raises. *)
Definition _generate_ofdm_symbol (symbol : list complex) (samples_per_symbol : nat)
  : result (list Q) :=
  if (carrier_count <? length symbol)%nat then Raise
  else
    let ifft_input := symbol ++ repeat (0%Q, 0%Q) (carrier_count - length symbol) in
    let time_domain := map (idft_bin ifft_input) (seq 0 carrier_count) in
    let cyclic_prefix :=
      drop (length time_domain - cyclic_prefix_length) time_domain in
    let symbol_with_prefix := cyclic_prefix ++ time_domain in
    let real_symbol := map fst symbol_with_prefix in
    if (length real_symbol =? samples_per_symbol)%nat
    then Return real_symbol
    else Return (map (resample_at real_symbol samples_per_symbol)
                     (seq 0 samples_per_symbol)).

(** The loop of [_generate_ofdm_waveform], from symbol number [i] on; the
    samples are stored in the [float32] array [waveform]. *)
Fixpoint _generate_ofdm_waveform_loop (i : nat) (symbols : list (list complex))
    (waveform : list Q) : result (list Q) :=
  match symbols with
  | [] => Return waveform
  | symbol :: symbols' =>
      symbol_samples ← _generate_ofdm_symbol symbol samples_per_symbol;
      let start_idx := (i * samples_per_symbol)%nat in
      let end_idx := (start_idx + length symbol_samples)%nat in
      waveform ← assign_slice waveform start_idx end_idx (map float32 symbol_samples);
      _generate_ofdm_waveform_loop (S i) symbols' waveform
  end.

(** [OFDMModulator._generate_ofdm_waveform]; [np.zeros(total_samples,
    dtype=np.float32)] is the array the loop fills. *)
Definition _generate_ofdm_waveform (symbols : list (list complex)) : result (list Q) :=
  let total_samples := (length symbols * samples_per_symbol)%nat in
  let waveform := repeat 0%Q total_samples in
  _generate_ofdm_waveform_loop 0 symbols waveform.

(** [OFDMModulator._add_markers] *)
Definition _add_markers (waveform : list Q) : list Q :=
  let start_marker := marker in
  let end_marker := map Qopp start_marker in
  start_marker ++ waveform ++ end_marker.

(** [OFDMModulator.modulate]; an exception is re-raised. *)
Definition modulate (data : bytes) : result (list Q) :=
  symbols ← modulate_symbols data;
  waveform ← _generate_ofdm_waveform symbols;
  Return (_add_markers waveform).

End OFDMModulator.

End Modulator.

(** ** soniclink/encryption.py, the symmetric mode *)

Module Symmetric.

Import Encryption.

Section CryptoManager.

Variable AES_CBC_encrypt : bytes -> bytes -> bytes -> result bytes.
Variable AES_CBC_decrypt : bytes -> bytes -> bytes -> result bytes.

(** [CryptoManager.encrypt_symmetric].  [fresh_key] and [iv] are the
    [get_random_bytes] draws; the first is used when [key] is [None]. *)
Definition encrypt_symmetric (data : bytes) (key : option bytes)
    (fresh_key iv : bytes) : result (bytes * bytes) :=
  let key := match key with
             | None => fresh_key
             | Some key => key
             end in
  let padded_data := pad data AES_block_size in
  encrypted_data ← AES_CBC_encrypt key iv padded_data;
  let result := iv ++ encrypted_data in
  Return (result, key).

(** [CryptoManager.decrypt_symmetric]: [None] on any exception. *)
Definition decrypt_symmetric (encrypted_data key : bytes) : option bytes :=
  let iv := slice encrypted_data 0 iv_size in
  let data := drop iv_size encrypted_data in
  match (decrypted_padded ← AES_CBC_decrypt key iv data;
         unpad decrypted_padded AES_block_size) with
  | Return decrypted_data => Some decrypted_data
  | Raise => None
  end.

End CryptoManager.

End Symmetric.

(** ** Further stand-ins for concrete runs *)

Module StandinTx.

(** An inverse transform whose every sample is the origin, a resampler
    that repeats the first sample, an encoder that appends nothing. *)
Definition idft_zero : list Modulation.complex -> nat -> Q * Q := fun _ _ => (0%Q, 0%Q).
Definition resample_hold : list Q -> nat -> nat -> Q := fun x _ _ => hd 0%Q x.
Definition rs_identity : bytes -> result bytes := fun data => Return data.

(** A store into [float32] that keeps every value. *)
Definition float32_exact : Q -> Q := fun x => x.

End StandinTx.

Export StandinTx.

(** ** soniclink/audio.py, the receiving side *)

Module Listening.

(** A value stored in 16 bits, read as a signed integer. *)
Definition int16_wrap (v : Z) : Z := (v + 32768) mod 65536 - 32768.

(** The samples of a little-endian buffer, two bytes each. *)
Fixpoint int16_pairs (data : bytes) : list Z :=
  match data with
  | lo :: hi :: rest => int16_wrap (lo + 256 * hi) :: int16_pairs rest
  | _ => []
  end.

(** [np.frombuffer(data, dtype=np.int16)]: ValueError when the size of the
    buffer is no multiple of 2. *)
Definition frombuffer_int16 (data : bytes) : result (list Z) :=
  if (length data mod 2 =? 0)%nat then Return (int16_pairs data) else Raise.

(** The buffer of the samples [256 * hi], whose low byte is zero. *)
Definition high_bytes_only (his : bytes) : bytes := flat_map (fun hi => [0; hi]) his.

(** A float that may be [nan]. *)
Inductive np_float : Type :=
| Nan
| Finite (q : Q).

(** [np.mean] of an integer array: the sum over the length, [nan] (with a
    warning, no exception) on an empty array. *)
Definition np_mean (a : list Z) : np_float :=
  match a with
  | [] => Nan
  | _ => Finite (fold_right Z.add 0 a # Pos.of_nat (length a))
  end.

(** [AudioManager._calculate_energy].  [samples ** 2] stays in [int16] and
    wraps; any exception gives [0.0]. *)
Definition _calculate_energy (audio_data : bytes) : np_float :=
  match frombuffer_int16 audio_data with
  | Return samples => np_mean (map (fun s => int16_wrap (s * s)) samples)
  | Raise => Finite 0
  end.

(** [energy < 100], as [receive] tests it; false on [nan]. *)
Definition below_threshold (energy : np_float) : bool :=
  match energy with
  | Nan => false
  | Finite q => if Qlt_le_dec q 100 then true else false
  end.

(** The [while total_samples > max_samples and len(self.audio_buffer) > 1]
    loop of [_audio_callback]; every round removes one chunk. *)
Fixpoint evict (fuel : nat) (audio_buffer : list (list Q))
    (total_samples max_samples : Z) : list (list Q) :=
  match fuel with
  | O => audio_buffer
  | S fuel' =>
      if (max_samples <? total_samples) && (1 <? length audio_buffer)%nat then
        match audio_buffer with
        | removed_chunk :: audio_buffer' =>
            evict fuel' audio_buffer'
                  (total_samples - Z.of_nat (length removed_chunk)) max_samples
        | [] => audio_buffer
        end
      else audio_buffer
  end.

(** [AudioManager._audio_callback], as a function of the state it changes:
    the buffer before, the buffer after.  [sample_rate] is an integer. *)
Definition _audio_callback (is_listening : bool) (sample_rate : Z)
    (audio_buffer : list (list Q)) (in_data : bytes) : result (list (list Q)) :=
  if is_listening then
    samples ← frombuffer_int16 in_data;
    let audio_chunk := map (fun s => (inject_Z s / 32767)%Q) samples in
    let audio_buffer := audio_buffer ++ [audio_chunk] in
    let total_samples :=
      fold_right Z.add 0 (map (fun chunk => Z.of_nat (length chunk)) audio_buffer) in
    let max_samples := 5 * sample_rate in
    Return (evict (length audio_buffer) audio_buffer total_samples max_samples)
  else Return audio_buffer.

End Listening.

(** ** soniclink/core.py *)

Module Core.

(** The truth value of an optional [bytes] argument: [None] and [b''] are
    false. *)
Definition truthy (key : option bytes) : bool :=
  match key with
  | Some (_ :: _) => true
  | _ => false
  end.

Section SonicLink.

Variable marker : list Q.
Variable samples_per_symbol : nat.
Variable dft_bin : list Q -> nat -> Modulation.complex.
Variable rs_decode : bytes -> result bytes.
Variable rs_encode : bytes -> result bytes.
Variable AES_CBC_encrypt : bytes -> bytes -> bytes -> result bytes.
Variable AES_CBC_decrypt : bytes -> bytes -> bytes -> result bytes.
Variable PKCS1_OAEP_encrypt : bytes -> bytes -> bytes -> result bytes.
Variable PKCS1_OAEP_decrypt : bytes -> bytes -> result bytes.

(** The stages of [SonicLinkSender.send_data] on a [bytes] argument, up
    to the payload handed to the modulator.  [aes_key], [iv] and [seed]
    are the random draws of [encrypt]. *)
Definition send_payload (data : bytes) (recipient_public_key : option bytes)
    (compress encrypt : bool) (aes_key iv seed : bytes) : result bytes :=
  let data := if compress then Compression.compress data else data in
  if encrypt && truthy recipient_public_key
  then Encryption.encrypt AES_CBC_encrypt PKCS1_OAEP_encrypt data
         (default [] recipient_public_key) aes_key iv seed
  else Return data.

(** The stages of [SonicLinkReceiver.receive_data] that follow
    demodulation, on the demodulated bytes. *)
Definition receive_payload (data : bytes) (private_key : option bytes)
    (decompress decrypt : bool) : option bytes :=
  match (if decrypt && truthy private_key
         then Encryption.decrypt AES_CBC_decrypt PKCS1_OAEP_decrypt data
                (default [] private_key)
         else Some data) with
  | None => None
  | Some data => if decompress then Compression.decompress data else Some data
  end.

(** [SonicLinkReceiver.receive_data]; [audio_data] is what
    [self.audio.receive(timeout)] returned. *)
Definition receive_data (audio_data : option (list Q)) (private_key : option bytes)
    (decompress decrypt : bool) : option bytes :=
  match audio_data with
  | None => None
  | Some audio_data =>
      match Modulation.demodulate marker samples_per_symbol dft_bin rs_decode audio_data with
      | None => None
      | Some data => receive_payload data private_key decompress decrypt
      end
  end.

End SonicLink.

End Core.

(** ** soniclink/utils.py *)

Module Utils.





End Utils.

(** ** Notions for the properties of the Huffman coder *)

Module Coding.
Import Compression.

(** A string of the characters '0' and '1'. *)
Fixpoint binary (s : string) : Prop :=
  match s with
  | EmptyString => True
  | String a s' => (a = "0"%char \/ a = "1"%char) /\ binary s'
  end.

(** The table part of the header: five bytes for each entry. *)
Definition entries (fc : Counter) : bytes :=
  flat_map (fun cf => fst cf :: be_digits 4 (snd cf)) fc.

(** An entry the header can hold: a byte with a count below [2^32]. *)
Definition entry_ok (cf : Z * Z) : Prop :=
  is_byte (fst cf) /\ 0 <= snd cf < 2 ^ 32.

(** The digits the encoding loop of [compress] writes: the codes of the
    bytes, one after the other. *)
Definition code_digits (codes : gmap Z string) (data : bytes) : string :=
  fold_right (fun byte digits => default EmptyString (codes !! byte) +:+ digits)
             EmptyString data.

End Coding.

Module Trees.
Import Compression.

(** The sum of a measure over the nodes held in the heap. *)
Definition total (f : HuffmanNode -> Z) (l : list HuffmanNode) : Z :=
  fold_right Z.add 0 (map f l).

(** The bytes at the leaves, left to right. *)
Fixpoint leaves (t : HuffmanNode) : list Z :=
  match t with
  | mkNode (Some c) _ _ _ => [c]
  | mkNode None _ l r =>
      match l with Some l => leaves l | None => [] end
      ++ match r with Some r => leaves r | None => [] end
  end.

(** A leaf carries a byte and no children; an internal node carries no
    byte and both children. *)
Inductive wf : HuffmanNode -> Prop :=
| wf_leaf (c f : Z) : wf (mkNode (Some c) f None None)
| wf_internal (f : Z) (l r : HuffmanNode) :
    wf l -> wf r -> wf (mkNode None f (Some l) (Some r)).

Fixpoint wfb (t : HuffmanNode) : bool :=
  match t with
  | mkNode (Some _) _ None None => true
  | mkNode None _ (Some l) (Some r) => wfb l && wfb r
  | _ => false
  end.

(** [path t p c]: following the digits [p] from [t] ends at the leaf of
    [c]. *)
Inductive path : HuffmanNode -> string -> Z -> Prop :=
| path_leaf (c f : Z) : path (mkNode (Some c) f None None) EmptyString c
| path_left (f : Z) (l r : HuffmanNode) (p : string) (c : Z) :
    path l p c -> path (mkNode None f (Some l) (Some r)) (String "0" p) c
| path_right (f : Z) (l r : HuffmanNode) (p : string) (c : Z) :
    path r p c -> path (mkNode None f (Some l) (Some r)) (String "1" p) c.

(** The leaf nodes [_build_tree] starts from. *)
Definition leaf_nodes (fc : Counter) : list HuffmanNode :=
  map (fun cf => mkNode (Some (fst cf)) (snd cf) None None) fc.

End Trees.

(** * Properties *)

(** Steps through the binds of a [result] computation. *)
Ltac py_step := unfold mbind, result_bind; cbn [Py.bind].

(** ** Bits and bytes of the modem *)

Section BitPacking.

Import Modulation.

Lemma range_step_exact (k s : nat) :
  (0 < s)%nat -> range_step (k * s) s = map (fun j => (j * s)%nat) (seq 0 k).
Proof.
  intros Hs. unfold range_step. f_equal. f_equal.
  replace (k * s + s - 1)%nat with ((s - 1) + k * s)%nat by lia.
  rewrite Nat.div_add by lia. rewrite Nat.div_small by lia. reflexivity.
Qed.

Lemma weighted_sum_cons (top b : Z) (l : list Z) :
  weighted_sum top (b :: l) = b * 2 ^ top + weighted_sum (top - 1) l.
Proof.
  unfold weighted_sum. rewrite imap_cons. cbn [fold_right].
  rewrite Z.sub_0_r. f_equal. f_equal. apply imap_ext. intros j x _.
  cbn. f_equal. f_equal. lia.
Qed.

Lemma weighted_sum_bound (l : list Z) : forall top : Z,
  Forall is_bit l -> Z.of_nat (length l) <= top + 1 ->
  0 <= weighted_sum top l < 2 ^ (top + 1).
Proof.
  induction l as [|b l IH]; intros top Hb Hlen.
  - cbn. split; [lia|]. apply Z.pow_pos_nonneg; cbn in Hlen; lia.
  - rewrite weighted_sum_cons. inversion Hb as [|? ? Hb0 Hbl]; subst.
    cbn [length] in Hlen.
    assert (Htop : 0 <= top) by lia.
    specialize (IH (top - 1) Hbl ltac:(lia)).
    replace (top - 1 + 1) with top in IH by lia.
    rewrite Z.pow_add_r by lia. change (2 ^ 1) with 2.
    destruct Hb0; subst b; lia.
Qed.

Lemma bytes_to_bits_cons (x : Z) (data : bytes) :
  _bytes_to_bits (x :: data) = byte_bits x ++ _bytes_to_bits data.
Proof. reflexivity. Qed.

Lemma bytes_to_bits_length (data : bytes) :
  length (_bytes_to_bits data) = (length data * 8)%nat.
Proof.
  induction data as [|x data IH]; [reflexivity|].
  rewrite bytes_to_bits_cons, length_app, IH. cbn. lia.
Qed.

Lemma byte_bits_value (x : Z) : is_byte x -> weighted_sum 7 (byte_bits x) = x.
Proof.
  intros [H0 H1].
  assert (Hall : forallb (fun n => weighted_sum 7 (byte_bits (Z.of_nat n)) =? Z.of_nat n)
                         (seq 0 256) = true) by (vm_compute; reflexivity).
  rewrite forallb_forall in Hall.
  specialize (Hall (Z.to_nat x)). rewrite Z2Nat.id in Hall by lia.
  apply Z.eqb_eq, Hall, in_seq. lia.
Qed.

Lemma packed_app (p rest : list Z) (n : nat) :
  length p = 8%nat -> length rest = (n * 8)%nat ->
  packed (p ++ rest) = weighted_sum 7 p :: packed rest.
Proof.
  intros Hp Hr. unfold packed.
  rewrite length_app, Hp, Hr.
  replace (8 + n * 8)%nat with (S n * 8)%nat by lia.
  rewrite !range_step_exact by lia.
  cbn [seq map]. f_equal.
  - f_equal. unfold slice. replace (0 * 8 + 8 - 0 * 8)%nat with 8%nat by lia.
    change (0 * 8)%nat with 0%nat. rewrite drop_0.
    apply take_app_length'. symmetry; exact Hp.
  - rewrite <- seq_shift, !map_map. apply map_ext. intros j. f_equal.
    unfold slice. replace (S j * 8)%nat with (length p + j * 8)%nat by lia.
    rewrite drop_app_add. f_equal. lia.
Qed.

Lemma bits_to_bytes_packed (bits : list Z) :
  (length bits mod 8 = 0)%nat -> Forall is_byte (packed bits) ->
  _bits_to_bytes bits = Return (Some (packed bits)).
Proof.
  intros Hlen Hb. unfold _bits_to_bytes.
  rewrite Hlen. cbn [Nat.eqb negb].
  replace (forallb is_byteb (packed bits)) with true; [reflexivity|].
  symmetry. apply forallb_forall. intros x Hx.
  rewrite Forall_forall in Hb. apply list_elem_of_In, Hb in Hx.
  destruct Hx. unfold is_byteb. apply andb_true_iff. split; [apply Z.leb_le|apply Z.ltb_lt]; lia.
Qed.

Lemma packed_bytes_to_bits (b : bytes) :
  is_bytes b -> packed (_bytes_to_bits b) = b.
Proof.
  induction 1 as [|x b Hx Hb IH]; [reflexivity|].
  rewrite bytes_to_bits_cons.
  rewrite (packed_app _ _ (length b)); [|reflexivity|apply bytes_to_bits_length].
  rewrite byte_bits_value by exact Hx. f_equal. exact IH.
Qed.

Lemma land_1_is_bit (x : Z) : is_bit (Z.land x 1).
Proof.
  change 1 with (Z.ones 1). rewrite Z.land_ones by lia.
  change (2 ^ 1) with 2. unfold is_bit.
  pose proof (Z.mod_pos_bound x 2 ltac:(lia)). lia.
Qed.

Lemma bytes_to_bits_is_bit (data : bytes) : Forall is_bit (_bytes_to_bits data).
Proof.
  unfold _bytes_to_bits. apply Forall_forall. intros b Hb.
  apply list_elem_of_In, in_flat_map in Hb. destruct Hb as (x & _ & Hb).
  unfold byte_bits in Hb. apply in_map_iff in Hb. destruct Hb as (i & <- & _).
  apply land_1_is_bit.
Qed.

(** Eight bits are the bits of the value they denote. *)
Lemma byte_bits_weighted_sum (g : list Z) :
  length g = 8%nat -> Forall is_bit g -> byte_bits (weighted_sum 7 g) = g.
Proof.
  intros Hlen Hbits.
  destruct g as [|b1 [|b2 [|b3 [|b4 [|b5 [|b6 [|b7 [|b8 [|]]]]]]]]]; try discriminate.
  repeat match goal with
         | H : Forall is_bit (_ :: _) |- _ =>
             let Hb := fresh "Hb" in
             let Hr := fresh "Hr" in
             apply Forall_cons in H; destruct H as [Hb Hr]; destruct Hb as [-> | ->]
         end;
    vm_compute; reflexivity.
Qed.

(** Whole groups of eight bits pack into bytes whose bits they are. *)
Lemma bytes_to_bits_packed (k : nat) : forall bits : list Z,
  length bits = (k * 8)%nat -> Forall is_bit bits ->
  is_bytes (packed bits) /\ _bytes_to_bits (packed bits) = bits.
Proof.
  induction k as [|k IH]; intros bits Hlen Hbits.
  - destruct bits; [|discriminate]. split; [constructor | reflexivity].
  - assert (Hg : length (take 8 bits) = 8%nat) by (rewrite length_take; lia).
    assert (Hr : length (drop 8 bits) = (k * 8)%nat) by (rewrite length_drop; lia).
    assert (Hsplit : bits = take 8 bits ++ drop 8 bits) by (symmetry; apply take_drop).
    assert (Hbg : Forall is_bit (take 8 bits)) by (apply Forall_take; exact Hbits).
    assert (Hbr : Forall is_bit (drop 8 bits)) by (apply Forall_drop; exact Hbits).
    destruct (IH (drop 8 bits) Hr Hbr) as [IHb IHe].
    rewrite Hsplit at 1 2.
    rewrite (packed_app _ _ k Hg Hr). split.
    + constructor; [|exact IHb].
      pose proof (weighted_sum_bound (take 8 bits) 7 Hbg ltac:(rewrite Hg; lia)) as Hw.
      unfold is_byte. change (2 ^ (7 + 1)) with 256 in Hw. exact Hw.
    + rewrite bytes_to_bits_cons, IHe, (byte_bits_weighted_sum _ Hg Hbg).
      symmetry. exact Hsplit.
Qed.

(** C10: the modulator's [_bytes_to_bits] and the demodulator's
    [_bits_to_bytes] are mutually inverse on byte-aligned bit lists: the
    bits of a byte sequence are zeros and ones, eight for each byte, and
    pack back into the byte sequence; and a list of zeros and ones whose
    length is a multiple of 8 packs into a byte sequence whose bits it
    is. *)
Theorem bits_to_bytes_bytes_to_bits (b : bytes) (bits : list Z) :
  (is_bytes b ->
   Forall is_bit (_bytes_to_bits b)
   /\ length (_bytes_to_bits b) = (8 * length b)%nat
   /\ _bits_to_bytes (_bytes_to_bits b) = Return (Some b))
  /\ (Forall is_bit bits -> (length bits mod 8 = 0)%nat ->
      exists b',
        _bits_to_bytes bits = Return (Some b')
        /\ is_bytes b'
        /\ _bytes_to_bits b' = bits).
Proof.
  split.
  - intros Hb. split; [apply bytes_to_bits_is_bit|].
    split; [rewrite bytes_to_bits_length; lia|].
    rewrite bits_to_bytes_packed.
    + rewrite packed_bytes_to_bits by exact Hb. reflexivity.
    + rewrite bytes_to_bits_length. apply Nat.Div0.mod_mul.
    + rewrite packed_bytes_to_bits by exact Hb. exact Hb.
  - intros Hbits Hlen.
    assert (Hk : length bits = (length bits / 8 * 8)%nat).
    { pose proof (Nat.div_mod_eq (length bits) 8). lia. }
    destruct (bytes_to_bits_packed (length bits / 8) bits Hk Hbits) as [Hbytes Hinv].
    exists (packed bits). split; [|split; assumption].
    apply bits_to_bytes_packed; assumption.
Qed.

Lemma bits_to_bytes_bytes_to_bits_witness :
  is_bytes [72; 105; 255]
  /\ Forall is_bit [0; 1; 0; 0; 1; 0; 0; 0; 1; 1; 1; 1; 1; 1; 1; 1]
  /\ (length [0; 1; 0; 0; 1; 0; 0; 0; 1; 1; 1; 1; 1; 1; 1; 1] mod 8 = 0)%nat
  /\ (Forall is_bit (_bytes_to_bits [72; 105; 255])
      /\ length (_bytes_to_bits [72; 105; 255]) = (8 * length [72; 105; 255])%nat
      /\ _bits_to_bytes (_bytes_to_bits [72; 105; 255]) = Return (Some [72; 105; 255]))
  /\ exists b',
       _bits_to_bytes [0; 1; 0; 0; 1; 0; 0; 0; 1; 1; 1; 1; 1; 1; 1; 1] = Return (Some b')
       /\ is_bytes b'
       /\ _bytes_to_bits b' = [0; 1; 0; 0; 1; 0; 0; 0; 1; 1; 1; 1; 1; 1; 1; 1].
Proof.
  assert (H1 : is_bytes [72; 105; 255]) by (repeat constructor; unfold is_byte; lia).
  assert (H2 : Forall is_bit [0; 1; 0; 0; 1; 0; 0; 0; 1; 1; 1; 1; 1; 1; 1; 1]).
  { repeat (constructor; [first [left; reflexivity | right; reflexivity]|]). constructor. }
  assert (H3 : (length [0; 1; 0; 0; 1; 0; 0; 0; 1; 1; 1; 1; 1; 1; 1; 1] mod 8 = 0)%nat)
    by reflexivity.
  destruct (bits_to_bytes_bytes_to_bits [72; 105; 255]
              [0; 1; 0; 0; 1; 0; 0; 0; 1; 1; 1; 1; 1; 1; 1; 1]) as [T1 T2].
  split; [exact H1|]. split; [exact H2|]. split; [exact H3|].
  split; [exact (T1 H1) | exact (T2 H2 H3)].
Defined.

End BitPacking.

(** ** Constellation demapping and symbol extraction *)

Section Demapper.

Import Modulation.

Lemma index_bits_spec (k : nat) :
  length (index_bits k) = 6%nat /\ Forall is_bit (index_bits k).
Proof.
  split; [reflexivity|]. unfold index_bits.
  apply Forall_forall. intros b Hb. apply list_elem_of_In, in_map_iff in Hb.
  destruct Hb as (i & <- & _). apply land_1_is_bit.
Qed.

Lemma qam_symbols_to_bits_total (symbols : list complex) :
  exists bits, _qam_symbols_to_bits symbols = Return bits
               /\ length bits = (6 * length symbols)%nat
               /\ Forall is_bit bits.
Proof.
  induction symbols as [|symbol symbols (bits & Hbits & Hlen & Hall)].
  - exists []. repeat split. constructor.
  - cbn [_qam_symbols_to_bits]. rewrite Hbits.
    destruct (distances symbol) as [|d ds] eqn:Hd; [discriminate Hd|].
    unfold np_argmin. py_step. eexists. split; [reflexivity|].
    destruct (index_bits_spec (argmin_from d 0 1 ds)) as [Hl Hb].
    split.
    + rewrite length_app, Hlen, Hl. cbn [length]. lia.
    + apply Forall_app. split; assumption.
Qed.

Lemma demodulate_symbols_total (symbols : list (list complex)) :
  Forall (fun s => length s = carrier_count) symbols ->
  exists bits, _demodulate_symbols symbols = Return bits
               /\ length bits = (384 * length symbols)%nat
               /\ Forall is_bit bits.
Proof.
  induction 1 as [|symbol symbols Hs _ (bits & Hbits & Hlen & Hall)].
  - exists []. repeat split. constructor.
  - cbn [_demodulate_symbols]. rewrite Hbits.
    destruct (qam_symbols_to_bits_total symbol) as (sb & Hsb & Hsl & Hsa).
    rewrite Hsb. py_step. eexists. split; [reflexivity|]. split.
    + rewrite length_app, Hlen, Hsl, Hs. unfold carrier_count. cbn [length]. lia.
    + apply Forall_app. split; assumption.
Qed.

Lemma packed_is_bytes (bits : list Z) :
  Forall is_bit bits -> Forall is_byte (packed bits).
Proof.
  intros Hb. unfold packed. apply Forall_forall. intros x Hx.
  apply list_elem_of_In, in_map_iff in Hx. destruct Hx as (i & <- & _).
  unfold is_byte. change 256 with (2 ^ (7 + 1)).
  apply weighted_sum_bound.
  - unfold slice. apply Forall_take, Forall_drop, Hb.
  - unfold slice. rewrite length_take. lia.
Qed.

Section Extraction.

Variable samples_per_symbol : nat.
Variable dft_bin : list Q -> nat -> complex.

Lemma extract_ofdm_symbol_bins (symbol_data : list Q) :
  (carrier_count + cyclic_prefix_length <= length symbol_data)%nat ->
  exists s, _extract_ofdm_symbol dft_bin symbol_data = Some s
            /\ length s = carrier_count.
Proof.
  unfold carrier_count, cyclic_prefix_length. intros Hlen.
  unfold _extract_ofdm_symbol, np_fft, cyclic_prefix_length, carrier_count.
  destruct (drop 16 symbol_data) as [|x xs] eqn:Hd.
  - apply (f_equal length) in Hd. rewrite length_drop in Hd. cbn in Hd. lia.
  - eexists. split; [reflexivity|].
    rewrite length_take, length_map, length_seq, <- Hd, length_drop. lia.
Qed.

Lemma extract_ofdm_symbols_bins (data_portion : list Q) :
  (carrier_count + cyclic_prefix_length <= samples_per_symbol)%nat ->
  exists symbols,
    _extract_ofdm_symbols samples_per_symbol dft_bin data_portion = Return symbols
    /\ Forall (fun s => length s = carrier_count) symbols.
Proof.
  intros Hsps. unfold _extract_ofdm_symbols.
  destruct (samples_per_symbol =? 0)%nat eqn:H0.
  - apply Nat.eqb_eq in H0. unfold carrier_count, cyclic_prefix_length in Hsps. lia.
  - eexists. split; [reflexivity|].
    apply Forall_forall. intros s Hs. apply list_elem_of_omap in Hs.
    destruct Hs as (i & _ & Hi).
    destruct (i + samples_per_symbol <=? length data_portion)%nat eqn:Hle; [|discriminate Hi].
    apply Nat.leb_le in Hle.
    destruct (extract_ofdm_symbol_bins (slice data_portion i (i + samples_per_symbol)))
      as (s' & Hs' & Hl').
    + unfold slice. rewrite length_take, length_drop. lia.
    + rewrite Hs' in Hi. injection Hi as <-. exact Hl'.
Qed.

(** C9 (as amended): when a stride holds at least [carrier_count +
    cyclic_prefix_length = 80] samples (480 at 48 kHz), every extracted
    OFDM symbol has exactly 64 bins and yields 384 bits, so the bits of
    any number of symbols are a multiple of 8 and [_bits_to_bytes] does
    not take its failure branch on them. *)
Theorem symbol_pipeline_byte_aligned (data_portion : list Q) :
  (80 <= samples_per_symbol)%nat ->
  exists symbols bits data,
    _extract_ofdm_symbols samples_per_symbol dft_bin data_portion = Return symbols
    /\ Forall (fun s => length s = 64%nat) symbols
    /\ _demodulate_symbols symbols = Return bits
    /\ length bits = (384 * length symbols)%nat
    /\ (length bits mod 8 = 0)%nat
    /\ _bits_to_bytes bits = Return (Some data).
Proof.
  intros Hsps.
  destruct (extract_ofdm_symbols_bins data_portion Hsps) as (symbols & Hsym & Hbins).
  destruct (demodulate_symbols_total symbols Hbins) as (bits & Hbits & Hlen & Hall).
  assert (Hmod : (length bits mod 8 = 0)%nat).
  { rewrite Hlen. replace (384 * length symbols)%nat with (length symbols * 48 * 8)%nat by lia.
    apply Nat.Div0.mod_mul. }
  exists symbols, bits, (packed bits). repeat split; try assumption.
  apply bits_to_bytes_packed; [exact Hmod | apply packed_is_bytes, Hall].
Qed.

End Extraction.

Lemma symbol_pipeline_byte_aligned_witness :
  (80 <= 80)%nat /\
  exists symbols bits data,
    _extract_ofdm_symbols 80 dft_zero (repeat 0%Q 160) = Return symbols
    /\ Forall (fun s => length s = 64%nat) symbols
    /\ _demodulate_symbols symbols = Return bits
    /\ length bits = (384 * length symbols)%nat
    /\ (length bits mod 8 = 0)%nat
    /\ _bits_to_bytes bits = Return (Some data).
Proof.
  split; [lia|].
  apply (symbol_pipeline_byte_aligned 80 dft_zero (repeat 0%Q 160)). lia.
Defined.

(** C9 as stated fails for short strides: with 21 samples per symbol
    (a sample rate of 2100 Hz) a stride keeps 5 bins, one symbol yields 30
    bits, and [_bits_to_bytes] takes its failure branch. *)
Lemma short_stride_not_byte_aligned :
  exists symbol bits,
    _extract_ofdm_symbols 21 dft_zero (repeat 0%Q 21) = Return [symbol]
    /\ length symbol = 5%nat
    /\ _demodulate_symbols [symbol] = Return bits
    /\ length bits = 30%nat
    /\ _bits_to_bytes bits = Return None.
Proof.
  eexists. eexists.
  split; [vm_compute; reflexivity|].
  split; [reflexivity|].
  split; [vm_compute; reflexivity|].
  split; [reflexivity|].
  vm_compute. reflexivity.
Qed.

(** C4: demapping the exact constellation point of index [i], which is
    the point of real level [i / 8] and imaginary level [i mod 8], gives
    six bits, each 0 or 1, whose MSB-first value is [i]. *)
Theorem demap_constellation_point (i : nat) :
  (i < 64)%nat ->
  exists c bits,
    qam_constellation !! i = Some c
    /\ c = (nth (i / 8) levels 0%Q, nth (i mod 8) levels 0%Q)
    /\ _qam_symbols_to_bits [c] = Return bits
    /\ length bits = 6%nat
    /\ Forall is_bit bits
    /\ weighted_sum 5 bits = Z.of_nat i.
Proof.
  intros Hi.
  do 64 (destruct i as [|i];
         [eexists; eexists;
          split; [reflexivity|];
          split; [reflexivity|];
          split; [vm_compute; reflexivity|];
          split; [reflexivity|];
          split; [|reflexivity];
          repeat (constructor; [first [left; reflexivity | right; reflexivity]|]);
          constructor |]).
  lia.
Qed.

Lemma demap_constellation_point_witness :
  (57 < 64)%nat /\
  exists c bits,
    qam_constellation !! 57%nat = Some c
    /\ c = (nth (57 / 8) levels 0%Q, nth (57 mod 8) levels 0%Q)
    /\ _qam_symbols_to_bits [c] = Return bits
    /\ length bits = 6%nat
    /\ Forall is_bit bits
    /\ weighted_sum 5 bits = Z.of_nat 57.
Proof.
  split; [lia|]. apply (demap_constellation_point 57). lia.
Defined.

End Demapper.

(** ** The Huffman coder on concrete inputs *)

Section CompressionRuns.

Import Compression.

Lemma counter_step_same (x c : Z) :
  counter_set [(x, c)] x (counter_get [(x, c)] x + 1) = [(x, c + 1)].
Proof.
  unfold counter_get. cbn [find fst snd counter_set]. rewrite Z.eqb_refl. reflexivity.
Qed.

Lemma Counter_of_repeat (x c : Z) (k : nat) :
  fold_left (fun c b => counter_set c b (counter_get c b + 1)) (repeat x k) [(x, c)]
  = [(x, c + Z.of_nat k)].
Proof.
  revert c. induction k as [|k IH]; intros c; cbn [repeat fold_left].
  - rewrite Z.add_0_r. reflexivity.
  - rewrite counter_step_same, IH. do 2 f_equal. lia.
Qed.

Lemma Counter_of_single (x : Z) (n : nat) :
  Counter_of (repeat x (S n)) = [(x, Z.of_nat (S n))].
Proof.
  unfold Counter_of. cbn [repeat fold_left].
  change (counter_set [] x (counter_get [] x + 1)) with [(x, 0 + 1)].
  rewrite Counter_of_repeat. do 2 f_equal. lia.
Qed.

(** With the empty code for its only symbol, the encoder emits nothing. *)
Lemma encode_single_value (x : Z) (k : nat) :
  fold_left
    (fun acc byte =>
       Py.bind acc
         (fun encoded_data =>
            match (<[x := EmptyString]> (∅ : gmap Z string)) !! byte with
            | Some code => Return (encoded_data +:+ code)
            | None => Raise
            end))
    (repeat x k) (Return EmptyString)
  = Return EmptyString.
Proof.
  induction k as [|k IH]; cbn [repeat fold_left Py.bind]; [reflexivity|].
  rewrite lookup_insert_eq. exact IH.
Qed.

Lemma create_header_single (x c : Z) :
  is_byte x -> 0 <= c < 2 ^ 32 ->
  _create_header [(x, c)] = Return ([1; x] ++ be_digits 4 c).
Proof.
  intros [Hx0 Hx1] [Hc0 Hc1].
  unfold _create_header, bytearray_append, to_bytes_big, is_byteb.
  cbn [length fold_left fst snd]. py_step.
  replace (0 <=? x) with true by (symmetry; apply Z.leb_le; lia).
  replace (x <? 256) with true by (symmetry; apply Z.ltb_lt; lia).
  replace (0 <=? c) with true by (symmetry; apply Z.leb_le; lia).
  replace (c <? 256 ^ Z.of_nat 4) with true by (symmetry; apply Z.ltb_lt; exact Hc1).
  reflexivity.
Qed.

(** A sequence that repeats one byte value is compressed to its header
    alone, and decompressed to the empty sequence. *)
Lemma compress_single_value (x : Z) (n : nat) :
  is_byte x -> Z.of_nat (S n) < 2 ^ 32 ->
  compress (repeat x (S n)) = [1; x] ++ be_digits 4 (Z.of_nat (S n))
  /\ decompress (compress (repeat x (S n))) = Some [].
Proof.
  intros Hx Hn.
  assert (Hbody : compress_body (repeat x (S n))
                  = Return ([1; x] ++ be_digits 4 (Z.of_nat (S n)))).
  { unfold compress_body. rewrite Counter_of_single.
    change (_build_tree [(x, Z.of_nat (S n))])
      with (Return (mkNode (Some x) (Z.of_nat (S n)) None None)).
    unfold mbind, result_bind. cbn [Py.bind _generate_codes].
    rewrite encode_single_value. cbn [Py.bind].
    change (_bitstring_to_bytes EmptyString) with (Return ([] : bytes)). cbn [Py.bind].
    rewrite create_header_single by (try exact Hx; lia). cbn [Py.bind].
    rewrite app_nil_r. reflexivity. }
  assert (Hc : compress (repeat x (S n)) = [1; x] ++ be_digits 4 (Z.of_nat (S n))).
  { unfold compress. rewrite Hbody. reflexivity. }
  split; [exact Hc|]. rewrite Hc. reflexivity.
Qed.

(** C1 fails on the code.  A sequence of one repeated value gets the empty
    code, so nothing is decoded; the zero bits that pad the last byte are
    decoded as further symbols; with all 256 byte values the header count
    does not fit its byte, [compress] returns its input, and [decompress]
    fails on it.  The second input is the one of the repository's test
    [test_compress_simple_text]. *)
Theorem decompress_compress_differs :
  decompress (compress (bytes_of_string "aaaa")) = Some []
  /\ decompress (compress (bytes_of_string "Hello, World!"))
     = Some (bytes_of_string "Hello, World!HH")
  /\ decompress (compress (bytes_of_string "ab"))
     = Some (bytes_of_string "abbbbbbb")
  /\ compress (map Z.of_nat (seq 0 256)) = map Z.of_nat (seq 0 256)
  /\ decompress (compress (map Z.of_nat (seq 0 256))) = None.
Proof.
  repeat split; vm_compute; reflexivity.
Qed.

End CompressionRuns.

(** ** Normalization at the audio boundary *)

Section Normalization.

Import Audio.

Local Open Scope Q_scope.








End Normalization.

(** ** Frame detection *)

Section FrameDetection.

Import Modulation.

Lemma argmax_from_lt (a : list Q) : forall (best : Q) (bi i : nat),
  (bi < i)%nat -> (argmax_from best bi i a < i + length a)%nat.
Proof.
  induction a as [|x a IH]; intros best bi i Hlt; cbn [argmax_from length].
  - lia.
  - destruct (Qlt_le_dec best x).
    + specialize (IH x i (S i) ltac:(lia)). lia.
    + specialize (IH best bi (S i) ltac:(lia)). lia.
Qed.

Lemma np_argmax_lt (a : list Q) (k : nat) :
  np_argmax a = Return k -> (k < length a)%nat.
Proof.
  destruct a as [|x a]; [discriminate|]. intros [= <-].
  apply (argmax_from_lt a x 0 1). lia.
Qed.

(** No later element beats the running best: the index stays. *)
Lemma argmax_from_stay (a : list Q) : forall (best : Q) (bi i : nat),
  Forall (fun x => (x <= best)%Q) a -> argmax_from best bi i a = bi.
Proof.
  induction a as [|x a IH]; intros best bi i Hall; cbn [argmax_from]; [reflexivity|].
  inversion Hall as [|? ? Hx Ha]; subst.
  destruct (Qlt_le_dec best x) as [Hlt|_].
  - exfalso. apply (Qlt_irrefl best). eapply Qlt_le_trans; eassumption.
  - apply IH, Ha.
Qed.

Lemma argmax_from_upper (a : list Q) : forall (pre : list Q) (best : Q) (bi i : nat),
  pre !! bi = Some best -> Forall (fun x => (x <= best)%Q) pre -> length pre = i ->
  exists d, (pre ++ a) !! argmax_from best bi i a = Some d
            /\ Forall (fun x => (x <= d)%Q) (pre ++ a).
Proof.
  induction a as [|x a IH]; intros pre best bi i Hbest Hall Hlen; cbn [argmax_from].
  - exists best. rewrite app_nil_r. split; assumption.
  - replace (pre ++ x :: a) with ((pre ++ [x]) ++ a) by (rewrite <- app_assoc; reflexivity).
    destruct (Qlt_le_dec best x) as [Hlt|Hle].
    + apply IH.
      * rewrite lookup_app_r by lia. rewrite Hlen, Nat.sub_diag. reflexivity.
      * apply Forall_app. split; [|repeat constructor; apply Qle_refl].
        eapply Forall_impl; [exact Hall|]. intros y Hy. cbn in Hy.
        apply Qlt_le_weak. eapply Qle_lt_trans; eassumption.
      * rewrite length_app. cbn. lia.
    + apply IH.
      * apply lookup_app_l_Some. exact Hbest.
      * apply Forall_app. split; [exact Hall|]. repeat constructor. exact Hle.
      * rewrite length_app. cbn. lia.
Qed.

(** [np.argmax] points at an element no other element exceeds. *)
Lemma np_argmax_upper (a : list Q) (k : nat) :
  np_argmax a = Return k ->
  exists d, a !! k = Some d /\ Forall (fun x => (x <= d)%Q) a.
Proof.
  destruct a as [|x a]; [discriminate|]. intros [= <-].
  apply (argmax_from_upper a [x] x 0 1); [reflexivity| |reflexivity].
  repeat constructor. apply Qle_refl.
Qed.

Lemma dot_cons (x y : Q) (xs ys : list Q) :
  dot (x :: xs) (y :: ys) = (x * y + dot xs ys)%Q.
Proof. reflexivity. Qed.

(** Negating one argument negates the inner product. *)
Lemma dot_opp (x : list Q) : forall y : list Q,
  (dot x (map Qopp y) == - dot x y)%Q.
Proof.
  induction x as [|a x IH]; intros [|b y]; try reflexivity.
  cbn [map]. rewrite !dot_cons, IH. ring.
Qed.

Lemma correlate_lags_length (a v : list Q) :
  length (correlate_lags a v) = (length a - length v + 1)%nat.
Proof. unfold correlate_lags. rewrite length_map, length_seq. reflexivity. Qed.

Lemma np_correlate_valid_Return (a v c : list Q) :
  np_correlate_valid a v = Return c ->
  a <> [] /\ v <> []
  /\ c = if (length a <? length v)%nat
         then rev (correlate_lags v a) else correlate_lags a v.
Proof.
  unfold np_correlate_valid.
  destruct a as [|x a]; [discriminate|]. destruct v as [|y v]; [discriminate|].
  destruct (length (x :: a) <? length (y :: v))%nat; intros [= <-]; repeat split; discriminate.
Qed.

Lemma lag_tail_opp (a v : list Q) (s k : nat) :
  (Qabs (lag (drop s a) (map Qopp v) k) == Qabs (lag a v (s + k)))%Q.
Proof.
  unfold lag, slice. rewrite length_map, drop_drop.
  replace (k + length v - k)%nat with (s + k + length v - (s + k))%nat by lia.
  rewrite dot_opp. apply Qabs_opp.
Qed.

Lemma correlate_lags_lag (a v : list Q) :
  correlate_lags a v = map (lag a v) (seq 0 (length a - length v + 1)).
Proof. reflexivity. Qed.

#[local] Opaque lag.

(** The search for the end marker runs over the recording from the start
    peak on, and the magnitude of the correlation does not see the sign of
    the marker: the peak found is the start peak again, at offset 0. *)
Lemma end_search_finds_start (marker audio c c2 : list Q) (s e : nat) :
  (length marker <= length audio)%nat ->
  np_correlate_valid audio marker = Return c ->
  np_argmax (np_abs c) = Return s ->
  np_correlate_valid (drop s audio) (map Qopp marker) = Return c2 ->
  np_argmax (np_abs c2) = Return e ->
  e = 0%nat.
Proof.
  intros Hlen Hc Hs Hc2 He.
  apply np_correlate_valid_Return in Hc. destruct Hc as (_ & Hm & ->).
  replace (length audio <? length marker)%nat with false in Hs
    by (symmetry; apply Nat.ltb_ge; lia).
  rewrite correlate_lags_lag in Hs.
  pose proof (np_argmax_lt _ _ Hs) as Hslt.
  unfold np_abs in Hslt. rewrite !length_map, length_seq in Hslt.
  apply np_correlate_valid_Return in Hc2. destruct Hc2 as (_ & _ & ->).
  replace (length (drop s audio) <? length (map Qopp marker))%nat with false in He
    by (symmetry; apply Nat.ltb_ge; rewrite length_drop, length_map; lia).
  rewrite correlate_lags_lag in He.
  replace (length (drop s audio) - length (map Qopp marker) + 1)%nat
    with (S (length audio - s - length marker)) in He
    by (rewrite length_drop, length_map; lia).
  cbn [seq map np_abs np_argmax] in He. injection He as <-.
  apply argmax_from_stay.
  apply Forall_forall. intros y Hy.
  apply list_elem_of_In in Hy. rewrite map_map in Hy. apply in_map_iff in Hy.
  destruct Hy as (k & <- & Hk). apply in_seq in Hk.
  rewrite !lag_tail_opp. rewrite Nat.add_0_r.
  destruct (np_argmax_upper _ _ Hs) as (d & Hd & Hall).
  unfold np_abs in Hd. rewrite !list_lookup_fmap, lookup_seq_lt in Hd by lia.
  cbn in Hd. injection Hd as <-.
  rewrite Forall_forall in Hall. apply Hall, list_elem_of_In.
  unfold np_abs. rewrite map_map. apply in_map_iff.
  exists (s + k)%nat. split; [reflexivity|]. apply in_seq. lia.
Qed.

(** On a recording shorter than the marker the lags left for the end
    search are too few to pass the marker length. *)
Lemma end_search_short (marker audio c c2 : list Q) (s e : nat) :
  (length audio < length marker)%nat ->
  np_correlate_valid audio marker = Return c ->
  np_argmax (np_abs c) = Return s ->
  np_correlate_valid (drop s audio) (map Qopp marker) = Return c2 ->
  np_argmax (np_abs c2) = Return e ->
  (e <= length marker)%nat.
Proof.
  intros Hlen Hc Hs Hc2 He.
  apply np_correlate_valid_Return in Hc2. destruct Hc2 as (Hne & _ & ->).
  assert (Hsl : (s < length audio)%nat).
  { destruct (Nat.lt_ge_cases s (length audio)) as [H|H]; [exact H|].
    exfalso. apply Hne. apply drop_ge. exact H. }
  apply np_argmax_lt in He. unfold np_abs in He.
  rewrite length_map, length_drop, length_map in He.
  destruct (length audio - s <? length marker)%nat eqn:Hcmp.
  - rewrite length_rev, correlate_lags_length, length_drop, length_map in He. lia.
  - apply Nat.ltb_ge in Hcmp. lia.
Qed.

(** Frame detection never delivers a data region: on every recording and
    for every marker table it returns [None] or leaves by an exception. *)
Lemma extract_data_portion_no_frame (marker audio : list Q) :
  _extract_data_portion marker audio = Raise
  \/ _extract_data_portion marker audio = Return None.
Proof.
  unfold _extract_data_portion.
  destruct (np_correlate_valid audio marker) as [c|] eqn:Hc; py_step; [|left; reflexivity].
  destruct (np_argmax (np_abs c)) as [s|] eqn:Hs; py_step; [|left; reflexivity].
  destruct (Z.of_nat s <? 0); [right; reflexivity|].
  destruct (np_correlate_valid (drop s audio) (map Qopp marker)) as [c2|] eqn:Hc2;
    py_step; [|left; reflexivity].
  destruct (np_argmax (np_abs c2)) as [e|] eqn:He; py_step; [|left; reflexivity].
  destruct (Z.of_nat e <? 0); [right; reflexivity|].
  assert (Hle : (e <= length marker)%nat).
  { destruct (Nat.lt_ge_cases (length audio) (length marker)) as [Hlt|Hge].
    - eapply end_search_short; eassumption.
    - rewrite (end_search_finds_start marker audio c c2 s e); try assumption. lia. }
  replace (s + e <=? s + length marker)%nat with true
    by (symmetry; apply Nat.leb_le; lia).
  right. reflexivity.
Qed.

End FrameDetection.

(** ** The sealed envelope *)

Section Envelope.

Import Encryption.

Lemma be_digits_2 (v : Z) :
  0 <= v < 65536 -> from_bytes_big (be_digits 2 v) = v.
Proof.
  intros Hv. unfold from_bytes_big. cbn [be_digits fold_left Z.of_nat].
  change (256 ^ 1) with 256. change (256 ^ 0) with 1. rewrite Z.div_1_r.
  pose proof (Z.div_mod v 256 ltac:(lia)) as Hdm.
  pose proof (Z.mod_pos_bound v 256 ltac:(lia)).
  assert (0 <= v / 256 < 256) by (split; [apply Z.div_pos|apply Z.div_lt_upper_bound]; lia).
  rewrite (Z.mod_small (v / 256)) by lia. lia.
Qed.

Lemma to_bytes_big_2 (v : Z) (l : bytes) :
  to_bytes_big 2 v = Return l ->
  l = be_digits 2 v /\ length l = 2%nat /\ from_bytes_big l = v.
Proof.
  unfold to_bytes_big. destruct ((0 <=? v) && (v <? 256 ^ Z.of_nat 2)) eqn:Hr; [|discriminate].
  intros [= <-]. apply andb_true_iff in Hr. destruct Hr as [H0 H1].
  apply Z.leb_le in H0. apply Z.ltb_lt in H1. change (256 ^ Z.of_nat 2) with 65536 in H1.
  split; [reflexivity|]. split; [reflexivity|]. apply be_digits_2. lia.
Qed.

Lemma pad_length (data : bytes) :
  (0 < length (pad data 16))%nat /\ (length (pad data 16) mod 16 = 0)%nat.
Proof.
  unfold pad. rewrite length_app, repeat_length.
  pose proof (Nat.mod_upper_bound (length data) 16 ltac:(lia)) as Hr.
  split; [lia|].
  rewrite (Nat.div_mod_eq (length data) 16) at 1.
  replace (16 * (length data / 16) + length data mod 16 + (16 - length data mod 16))%nat
    with (S (length data / 16) * 16)%nat by lia.
  apply Nat.Div0.mod_mul.
Qed.

Lemma last_repeat (l : bytes) (x d : Z) (n : nat) :
  (0 < n)%nat -> List.last (l ++ repeat x n) d = x.
Proof.
  intros Hn. destruct n as [|n]; [lia|].
  replace (repeat x (S n)) with (repeat x n ++ [x]).
  - rewrite app_assoc. apply last_last.
  - clear. induction n as [|n IH]; [reflexivity|]. cbn [repeat app]. rewrite IH. reflexivity.
Qed.

(** Removing the PKCS#7 padding undoes adding it. *)
Lemma unpad_pad (data : bytes) : unpad (pad data 16) 16 = Return data.
Proof.
  destruct (pad_length data) as [Hpos Hmod].
  unfold unpad. rewrite Hmod.
  destruct (length (pad data 16) =? 0)%nat eqn:H0; [apply Nat.eqb_eq in H0; lia|].
  cbn [Nat.eqb negb].
  pose proof (Nat.mod_upper_bound (length data) 16 ltac:(lia)) as Hr.
  set (p := (16 - length data mod 16)%nat) in *.
  assert (Hp : (1 <= p <= 16)%nat) by (subst p; lia).
  assert (Hlen : length (pad data 16) = (length data + p)%nat).
  { unfold pad. rewrite length_app, repeat_length. reflexivity. }
  assert (Hlast : List.last (pad data 16) 0 = Z.of_nat p).
  { unfold pad. apply last_repeat. lia. }
  rewrite Hlast, Hlen, Nat2Z.id.
  replace (Z.of_nat p <? 1) with false by (symmetry; apply Z.ltb_ge; lia).
  replace (Z.of_nat (Nat.min 16 (length data + p)) <? Z.of_nat p) with false
    by (symmetry; apply Z.ltb_ge; lia).
  cbn [orb].
  replace (length data + p - p)%nat with (length data) by lia.
  unfold pad. fold p.
  rewrite drop_app_length, take_app_length.
  rewrite bool_decide_eq_true_2 by reflexivity. reflexivity.
Qed.

Section Primitives.

Variable AES_CBC_encrypt : bytes -> bytes -> bytes -> result bytes.
Variable AES_CBC_decrypt : bytes -> bytes -> bytes -> result bytes.
Variable PKCS1_OAEP_encrypt : bytes -> bytes -> bytes -> result bytes.
Variable PKCS1_OAEP_decrypt : bytes -> bytes -> result bytes.

Abbreviation seal := (encrypt AES_CBC_encrypt PKCS1_OAEP_encrypt).
Abbreviation open := (decrypt AES_CBC_decrypt PKCS1_OAEP_decrypt).

(** C7: a sealed envelope is the 2-byte big-endian length of the wrapped
    key, the wrapped key, the 16-byte IV and the ciphertext, whose length
    is a positive multiple of 16. *)
Theorem seal_layout (data public_key aes_key iv seed envelope : bytes) :
  AES_CBC_spec AES_CBC_encrypt AES_CBC_decrypt ->
  length aes_key = 32%nat -> length iv = 16%nat ->
  seal data public_key aes_key iv seed = Return envelope ->
  exists key_length wrapped_key ciphertext,
    envelope = key_length ++ wrapped_key ++ iv ++ ciphertext
    /\ length key_length = 2%nat
    /\ from_bytes_big key_length = Z.of_nat (length wrapped_key)
    /\ PKCS1_OAEP_encrypt public_key seed aes_key = Return wrapped_key
    /\ (0 < length ciphertext)%nat
    /\ (length ciphertext mod 16 = 0)%nat.
Proof.
  intros Haes Hkey Hiv. unfold encrypt.
  destruct (pad_length data) as [Hpos Hmod].
  destruct (Haes aes_key iv (pad data 16) Hkey Hiv Hmod) as (c & Hc & Hclen & _).
  unfold AES_block_size. rewrite Hc. py_step.
  destruct (PKCS1_OAEP_encrypt public_key seed aes_key) as [w|]; py_step; [|discriminate].
  destruct (to_bytes_big 2 (Z.of_nat (length w))) as [kl|] eqn:Hkl; py_step; [|discriminate].
  intros [= <-]. apply to_bytes_big_2 in Hkl. destruct Hkl as (_ & Hl2 & Hfrom).
  exists kl, w, c. rewrite Hclen. repeat split; assumption.
Qed.

(** C5: opening a sealed envelope with the private key of the recipient
    gives the plaintext back, whatever symmetric key, IV and OAEP
    randomness were drawn. *)
Theorem open_seal (b private_key public_key aes_key iv seed : bytes) :
  AES_CBC_spec AES_CBC_encrypt AES_CBC_decrypt ->
  OAEP_keypair PKCS1_OAEP_encrypt PKCS1_OAEP_decrypt private_key public_key ->
  length aes_key = 32%nat -> length iv = 16%nat ->
  (length b <= 190)%nat ->
  exists envelope,
    seal b public_key aes_key iv seed = Return envelope
    /\ open envelope private_key = Some b.
Proof.
  intros Haes Hpair Hkey Hiv _.
  destruct (pad_length b) as [Hpos Hmod].
  destruct (Haes aes_key iv (pad b 16) Hkey Hiv Hmod) as (c & Hc & Hclen & Hdec).
  destruct (Hpair seed aes_key ltac:(lia)) as (w & Hw & Hwlen & Hunwrap).
  assert (Hkl : to_bytes_big 2 (Z.of_nat (length w)) = Return (be_digits 2 (Z.of_nat (length w)))).
  { unfold to_bytes_big. change (256 ^ Z.of_nat 2) with 65536.
    replace (0 <=? Z.of_nat (length w)) with true by (symmetry; apply Z.leb_le; lia).
    replace (Z.of_nat (length w) <? 65536) with true by (symmetry; apply Z.ltb_lt; lia).
    reflexivity. }
  set (kl := be_digits 2 (Z.of_nat (length w))) in *.
  exists (kl ++ w ++ iv ++ c). split.
  - unfold encrypt, AES_block_size. rewrite Hc. py_step. rewrite Hw. py_step.
    rewrite Hkl. reflexivity.
  - unfold decrypt, decrypt_body, iv_size, AES_block_size.
    assert (Hkl2 : length kl = 2%nat) by reflexivity.
    assert (Hn : Z.to_nat (from_bytes_big (slice (kl ++ w ++ iv ++ c) 0 2)) = length w).
    { unfold slice. rewrite drop_0, take_app_length' by (rewrite Hkl2; reflexivity).
      subst kl. rewrite be_digits_2 by lia. apply Nat2Z.id. }
    rewrite Hn.
    assert (Hek : slice (kl ++ w ++ iv ++ c) 2 (2 + length w) = w).
    { unfold slice. rewrite drop_app_length' by (rewrite Hkl2; reflexivity).
      apply take_app_length'. lia. }
    assert (Hivs : slice (kl ++ w ++ iv ++ c) (2 + length w) (2 + length w + 16) = iv).
    { unfold slice. rewrite (app_assoc kl w).
      rewrite drop_app_length' by (rewrite length_app, Hkl2; reflexivity).
      apply take_app_length'. lia. }
    assert (Hct : drop (2 + length w + 16) (kl ++ w ++ iv ++ c) = c).
    { rewrite !app_assoc. apply drop_app_length'.
      rewrite !length_app, Hkl2, Hiv. reflexivity. }
    rewrite Hek, Hivs, Hct, Hunwrap. py_step. rewrite Hdec. py_step.
    rewrite unpad_pad. reflexivity.
Qed.

End Primitives.

Lemma toy_cipher_spec : AES_CBC_spec toy_cipher toy_cipher.
Proof.
  intros key iv p _ _ _. exists (map (fun x => 255 - x) p).
  split; [reflexivity|]. split; [apply length_map|].
  unfold toy_cipher. f_equal. rewrite map_map. rewrite <- (map_id p) at 2.
  apply map_ext. intros x. lia.
Qed.

Lemma toy_keypair (private_key public_key : bytes) :
  OAEP_keypair toy_wrap toy_unwrap private_key public_key.
Proof.
  intros seed m Hm. exists (rev m). split; [reflexivity|].
  split; [rewrite length_rev; lia|]. unfold toy_unwrap. rewrite rev_involutive. reflexivity.
Qed.

Lemma seal_layout_witness :
  encrypt toy_cipher toy_wrap [10; 20; 30] [1] (repeat 5 32) (repeat 7 16) [2]
  = Return ([0; 32] ++ repeat 5 32 ++ repeat 7 16 ++ [245; 235; 225] ++ repeat 242 13)
  /\ exists key_length wrapped_key ciphertext,
       [0; 32] ++ repeat 5 32 ++ repeat 7 16 ++ [245; 235; 225] ++ repeat 242 13
       = key_length ++ wrapped_key ++ repeat 7 16 ++ ciphertext
       /\ length key_length = 2%nat
       /\ from_bytes_big key_length = Z.of_nat (length wrapped_key)
       /\ toy_wrap [1] [2] (repeat 5 32) = Return wrapped_key
       /\ (0 < length ciphertext)%nat
       /\ (length ciphertext mod 16 = 0)%nat.
Proof.
  split; [vm_compute; reflexivity|].
  apply (seal_layout toy_cipher toy_cipher toy_wrap
           [10; 20; 30] [1] (repeat 5 32) (repeat 7 16) [2] _
           toy_cipher_spec eq_refl eq_refl).
  vm_compute. reflexivity.
Defined.

Lemma open_seal_witness :
  exists envelope,
    encrypt toy_cipher toy_wrap [10; 20; 30] [1] (repeat 5 32) (repeat 7 16) [2]
    = Return envelope
    /\ decrypt toy_cipher toy_unwrap envelope [3] = Some [10; 20; 30].
Proof.
  apply (open_seal toy_cipher toy_cipher toy_wrap toy_unwrap
           [10; 20; 30] [3] [1] (repeat 5 32) (repeat 7 16) [2]
           toy_cipher_spec (toy_keypair [3] [1]) eq_refl eq_refl).
  cbn. lia.
Defined.

End Envelope.

(** ** The demodulator *)

Section Demodulation.

Import Modulation.

Variable marker : list Q.
Variable samples_per_symbol : nat.
Variable dft_bin : list Q -> nat -> complex.
Variable rs_decode : bytes -> result bytes.

(** No recording gets past frame detection. *)
Lemma demodulate_none (audio_data : list Q) :
  demodulate marker samples_per_symbol dft_bin rs_decode audio_data = None.
Proof.
  unfold demodulate.
  destruct (extract_data_portion_no_frame marker audio_data) as [-> | ->]; reflexivity.
Qed.

Lemma demodulate_data_portion_empty :
  demodulate_data_portion samples_per_symbol dft_bin rs_decode [] = Raise
  \/ demodulate_data_portion samples_per_symbol dft_bin rs_decode [] = Return None.
Proof.
  unfold demodulate_data_portion, _extract_ofdm_symbols.
  destruct (samples_per_symbol =? 0)%nat eqn:H0; [left; reflexivity|right].
  apply Nat.eqb_neq in H0. unfold range_step. cbn [length].
  rewrite Nat.div_small by lia. reflexivity.
Qed.

(** C3 (as amended): a waveform made of the two markers with nothing in
    between is not accepted: [demodulate] returns [None]; and the stages
    after frame detection, given an empty data region, deliver no bytes
    either. *)
Theorem demodulate_empty_region :
  demodulate marker samples_per_symbol dft_bin rs_decode (marker ++ map Qopp marker) = None
  /\ forall data : bytes,
       demodulate_data_portion samples_per_symbol dft_bin rs_decode [] <> Return (Some data).
Proof.
  split; [apply demodulate_none|].
  intros data. destruct demodulate_data_portion_empty as [-> | ->]; discriminate.
Qed.

(** C6: when the Reed-Solomon decoder raises on the bytes assembled from
    the data region, the demodulator hands on these bytes as they are. *)
Theorem fec_failure_returns_raw (data_portion : list Q)
    (symbols : list (list complex)) (bits : list Z) (data : bytes) :
  _extract_ofdm_symbols samples_per_symbol dft_bin data_portion = Return symbols ->
  symbols <> [] ->
  _demodulate_symbols symbols = Return bits ->
  bits <> [] ->
  _bits_to_bytes bits = Return (Some data) ->
  data <> [] ->
  rs_decode data = Raise ->
  demodulate_data_portion samples_per_symbol dft_bin rs_decode data_portion
  = Return (Some data).
Proof.
  intros Hsym Hsne Hbits Hbne Hdata Hdne Hrs.
  unfold demodulate_data_portion. rewrite Hsym. py_step.
  destruct symbols as [|s symbols']; [contradiction|].
  rewrite Hbits. py_step.
  destruct bits as [|b bits']; [contradiction|].
  rewrite Hdata. py_step.
  destruct data as [|d data']; [contradiction|].
  rewrite Hrs. reflexivity.
Qed.

End Demodulation.

Lemma fec_failure_returns_raw_witness :
  exists data : bytes,
    data <> []
    /\ Modulation.demodulate_data_portion 80 dft_zero rs_uncorrectable (repeat 0%Q 80)
       = Return (Some data).
Proof.
  eexists. split.
  2:{ eapply (fec_failure_returns_raw 80 dft_zero rs_uncorrectable (repeat 0%Q 80)).
      - vm_compute. reflexivity.
      - discriminate.
      - vm_compute. reflexivity.
      - discriminate.
      - vm_compute. reflexivity.
      - discriminate.
      - reflexivity. }
  discriminate.
Defined.

(** C3 as stated fails: on the two markers with an empty data region in
    between, the demodulator returns [None], not the empty byte string. *)
Lemma demodulate_empty_region_not_empty_bytes :
  Modulation.demodulate [1; -1]%Q 80 dft_zero Return ([1; -1] ++ [-1; 1])%Q = None
  /\ Modulation.demodulate [1; -1]%Q 80 dft_zero Return ([1; -1] ++ [-1; 1])%Q <> Some [].
Proof.
  split; [vm_compute; reflexivity|]. vm_compute. discriminate.
Qed.

(** C2 fails on the code.  The code searches the end marker from the start
    peak on, meets the start marker again at offset 0, and so delimits a
    data region on no recording at all; on a clean frame (start marker,
    data, negated marker) it reports no frame, where the search from the
    data start, as the claim has it, delimits the data. *)
Theorem end_search_from_start_peak :
  (forall (marker audio_data data_portion : list Q),
      Modulation._extract_data_portion marker audio_data <> Return (Some data_portion))
  /\ Modulation._extract_data_portion [1; -1]%Q ([1; -1] ++ [1 # 4; 0] ++ [-1; 1])%Q
     = Return None
  /\ Modulation.frame_detect_spec [1; -1]%Q ([1; -1] ++ [1 # 4; 0] ++ [-1; 1])%Q
     = Return (Some [1 # 4; 0]%Q).
Proof.
  split.
  - intros marker audio_data data_portion.
    destruct (extract_data_portion_no_frame marker audio_data) as [-> | ->]; discriminate.
  - split; vm_compute; reflexivity.
Qed.

(** * Further properties of the code *)

(** ** Symmetric mode and envelope size *)

Section SymmetricMode.

Import Encryption Symmetric.

Variable AES_CBC_encrypt : bytes -> bytes -> bytes -> result bytes.
Variable AES_CBC_decrypt : bytes -> bytes -> bytes -> result bytes.
Variable PKCS1_OAEP_encrypt : bytes -> bytes -> bytes -> result bytes.

Lemma pad_length_exact (data : bytes) :
  length (pad data 16) = (16 * (length data / 16 + 1))%nat.
Proof.
  unfold pad. rewrite length_app, repeat_length.
  pose proof (Nat.mod_upper_bound (length data) 16 ltac:(lia)).
  pose proof (Nat.div_mod_eq (length data) 16). lia.
Qed.

(** Symmetric encryption under a given or a freshly drawn key puts the IV
    in front of the ciphertext, which has the size of the plaintext
    rounded up to the next whole block (a full block of padding when the
    size already is a multiple of 16), returns the key that was used, and
    [decrypt_symmetric] under that key gives the plaintext back. *)
Theorem decrypt_encrypt_symmetric (data : bytes) (key : option bytes)
    (fresh_key iv : bytes) :
  AES_CBC_spec AES_CBC_encrypt AES_CBC_decrypt ->
  length (default fresh_key key) = 32%nat -> length iv = 16%nat ->
  exists ciphertext,
    encrypt_symmetric AES_CBC_encrypt data key fresh_key iv
    = Return (iv ++ ciphertext, default fresh_key key)
    /\ length ciphertext = (16 * (length data / 16 + 1))%nat
    /\ decrypt_symmetric AES_CBC_decrypt (iv ++ ciphertext) (default fresh_key key)
       = Some data.
Proof.
  intros Haes Hkey Hiv.
  destruct (pad_length data) as [_ Hmod].
  destruct (Haes (default fresh_key key) iv (pad data 16) Hkey Hiv Hmod)
    as (c & Hc & Hclen & Hdec).
  exists c. split; [|split].
  - unfold encrypt_symmetric, AES_block_size.
    replace (match key with None => fresh_key | Some key0 => key0 end)
      with (default fresh_key key) by (destruct key; reflexivity).
    rewrite Hc. reflexivity.
  - rewrite Hclen. apply pad_length_exact.
  - unfold decrypt_symmetric, iv_size, AES_block_size, slice.
    rewrite drop_0, Nat.sub_0_r.
    rewrite take_app_length' by (symmetry; exact Hiv).
    rewrite drop_app_length' by (symmetry; exact Hiv).
    rewrite Hdec. py_step. rewrite unpad_pad. reflexivity.
Qed.

(** The size of a sealed envelope: 2 bytes of length, the wrapped key, 16
    bytes of IV, and the plaintext rounded up to the next whole block. *)
Theorem seal_length (data public_key aes_key iv seed envelope wrapped_key : bytes) :
  AES_CBC_spec AES_CBC_encrypt AES_CBC_decrypt ->
  length aes_key = 32%nat -> length iv = 16%nat ->
  PKCS1_OAEP_encrypt public_key seed aes_key = Return wrapped_key ->
  encrypt AES_CBC_encrypt PKCS1_OAEP_encrypt data public_key aes_key iv seed
  = Return envelope ->
  length envelope
  = (2 + length wrapped_key + 16 + 16 * (length data / 16 + 1))%nat.
Proof.
  intros Haes Hkey Hiv Hw. unfold encrypt.
  destruct (pad_length data) as [_ Hmod].
  destruct (Haes aes_key iv (pad data 16) Hkey Hiv Hmod) as (c & Hc & Hclen & _).
  unfold AES_block_size. rewrite Hc, Hw. py_step.
  destruct (to_bytes_big 2 (Z.of_nat (length wrapped_key))) as [kl|] eqn:Hkl;
    py_step; [|discriminate].
  intros [= <-]. apply to_bytes_big_2 in Hkl. destruct Hkl as (_ & Hl2 & _).
  rewrite !length_app, Hl2, Hiv, Hclen, pad_length_exact. lia.
Qed.

End SymmetricMode.

Lemma decrypt_encrypt_symmetric_witness :
  exists ciphertext,
    Symmetric.encrypt_symmetric toy_cipher [10; 20; 30] None (repeat 5 32) (repeat 7 16)
    = Return (repeat 7 16 ++ ciphertext, repeat 5 32)
    /\ length ciphertext = (16 * (length [10; 20; 30] / 16 + 1))%nat
    /\ Symmetric.decrypt_symmetric toy_cipher (repeat 7 16 ++ ciphertext) (repeat 5 32)
       = Some [10; 20; 30].
Proof.
  apply (decrypt_encrypt_symmetric toy_cipher toy_cipher [10; 20; 30] None
           (repeat 5 32) (repeat 7 16) toy_cipher_spec eq_refl eq_refl).
Defined.

Lemma seal_length_witness :
  length ([0; 32] ++ repeat 5 32 ++ repeat 7 16 ++ [245; 235; 225] ++ repeat 242 13)
  = (2 + length (repeat 5 32) + 16 + 16 * (length [10; 20; 30] / 16 + 1))%nat.
Proof.
  apply (seal_length toy_cipher toy_cipher toy_wrap
           [10; 20; 30] [1] (repeat 5 32) (repeat 7 16) [2] _ (repeat 5 32)
           toy_cipher_spec eq_refl eq_refl).
  - vm_compute. reflexivity.
  - vm_compute. reflexivity.
Defined.

(** ** Loops over fixed-size groups *)

Section Groups.

Lemma range_step_split (n s : nat) :
  (0 < s)%nat ->
  range_step n s
  = map (fun j => (j * s)%nat) (seq 0 (n / s))
    ++ (if (n mod s =? 0)%nat then [] else [(n / s * s)%nat]).
Proof.
  intros Hs. unfold range_step.
  pose proof (Nat.div_mod_eq n s) as Hn.
  pose proof (Nat.mod_upper_bound n s ltac:(lia)) as Hr.
  destruct (n mod s =? 0)%nat eqn:H0.
  - apply Nat.eqb_eq in H0. rewrite app_nil_r. do 2 f_equal.
    replace (n + s - 1)%nat with ((s - 1) + n / s * s)%nat by lia.
    rewrite Nat.div_add by lia. rewrite (Nat.div_small (s - 1) s) by lia. reflexivity.
  - apply Nat.eqb_neq in H0.
    replace ((n + s - 1) / s)%nat with (S (n / s)).
    + rewrite seq_S, map_app. reflexivity.
    + replace (n + s - 1)%nat with ((n mod s - 1) + S (n / s) * s)%nat by lia.
      rewrite Nat.div_add by lia. rewrite (Nat.div_small (n mod s - 1) s) by lia.
      reflexivity.
Qed.

Lemma mapM_ext {A B : Type} (f g : A -> result B) (l : list A) :
  (forall a, In a l -> f a = g a) -> mapM f l = mapM g l.
Proof.
  induction l as [|a l IH]; intros Hfg; [reflexivity|].
  cbn [mapM]. rewrite (Hfg a) by (left; reflexivity).
  rewrite IH; [reflexivity|]. intros b Hb. apply Hfg. right. exact Hb.
Qed.

Lemma mapM_map {A B C : Type} (h : A -> B) (f : B -> result C) (l : list A) :
  mapM f (map h l) = mapM (fun a => f (h a)) l.
Proof.
  induction l as [|a l IH]; [reflexivity|]. cbn [map mapM]. rewrite IH. reflexivity.
Qed.

Lemma slice_app_head {A : Type} (g rest : list A) (k : nat) :
  length g = k -> slice (g ++ rest) 0 k = g.
Proof.
  intros Hg. unfold slice. rewrite drop_0, Nat.sub_0_r.
  apply take_app_length'. symmetry. exact Hg.
Qed.

Lemma slice_app_skip {A : Type} (g rest : list A) (k i j : nat) :
  length g = k -> slice (g ++ rest) (k + i) (k + j) = slice rest i j.
Proof.
  intros Hg. unfold slice. rewrite <- Hg, drop_app_add. f_equal. lia.
Qed.

(** A loop over the groups of [k] elements of [g ++ rest] handles [g]
    first and then the groups of [rest]. *)
Lemma mapM_groups {A B : Type} (f : list A -> result B) (g rest : list A) (k n : nat) :
  length g = k ->
  mapM (fun i => f (slice (g ++ rest) i (i + k))) (map (fun j => (j * k)%nat) (seq 0 (S n)))
  = b ← f g;
    bs ← mapM (fun i => f (slice rest i (i + k))) (map (fun j => (j * k)%nat) (seq 0 n));
    Return (b :: bs).
Proof.
  intros Hg. cbn [seq map mapM].
  change (0 * k)%nat with 0%nat. rewrite Nat.add_0_l, (slice_app_head g rest k Hg).
  assert (E : mapM (fun i => f (slice (g ++ rest) i (i + k)))
                   (map (fun j => (j * k)%nat) (seq 1 n))
              = mapM (fun i => f (slice rest i (i + k)))
                     (map (fun j => (j * k)%nat) (seq 0 n))).
  { rewrite <- seq_shift, !map_map, !mapM_map.
    apply mapM_ext. intros j _.
    replace (S j * k)%nat with (k + j * k)%nat by lia.
    rewrite <- Nat.add_assoc, (slice_app_skip g rest k _ _ Hg). reflexivity. }
  rewrite E. reflexivity.
Qed.

End Groups.

(** ** Symbol extraction: full strides only *)

Section Strides.

Import Modulation.

Variable samples_per_symbol : nat.
Variable dft_bin : list Q -> nat -> complex.

Lemma extract_ofdm_symbol_length (symbol_data : list Q) :
  (cyclic_prefix_length < length symbol_data)%nat ->
  exists s, _extract_ofdm_symbol dft_bin symbol_data = Some s
            /\ length s = Nat.min carrier_count (length symbol_data - cyclic_prefix_length).
Proof.
  unfold cyclic_prefix_length, carrier_count. intros Hlen.
  unfold _extract_ofdm_symbol, np_fft, cyclic_prefix_length, carrier_count.
  destruct (drop 16 symbol_data) as [|x xs] eqn:Hd.
  - apply (f_equal length) in Hd. rewrite length_drop in Hd. cbn in Hd. lia.
  - eexists. split; [reflexivity|].
    rewrite length_take, length_map, length_seq, <- Hd, length_drop. reflexivity.
Qed.

(** When a stride is longer than the cyclic prefix, the data region yields
    one symbol per full stride, [len(data_portion) // samples_per_symbol]
    in all (a trailing partial stride is dropped), and every symbol has
    [min(64, samples_per_symbol - 16)] bins. *)
Theorem extract_ofdm_symbols_count (data_portion : list Q) :
  (cyclic_prefix_length < samples_per_symbol)%nat ->
  exists symbols,
    _extract_ofdm_symbols samples_per_symbol dft_bin data_portion = Return symbols
    /\ length symbols = (length data_portion / samples_per_symbol)%nat
    /\ Forall (fun s => length s
                        = Nat.min carrier_count (samples_per_symbol - cyclic_prefix_length))
              symbols.
Proof.
  intros Hsps. unfold _extract_ofdm_symbols.
  destruct (samples_per_symbol =? 0)%nat eqn:H0; [apply Nat.eqb_eq in H0; lia|].
  eexists. split; [reflexivity|].
  set (f := fun i : nat =>
              if (i + samples_per_symbol <=? length data_portion)%nat
              then _extract_ofdm_symbol dft_bin
                     (slice data_portion i (i + samples_per_symbol))
              else None).
  assert (Hfull : forall j, (j < length data_portion / samples_per_symbol)%nat ->
            exists s, f (j * samples_per_symbol)%nat = Some s
                      /\ length s = Nat.min carrier_count
                                      (samples_per_symbol - cyclic_prefix_length)).
  { intros j Hj. unfold f.
    pose proof (Nat.div_mod_eq (length data_portion) samples_per_symbol) as Hdm.
    assert (Hle : (j * samples_per_symbol + samples_per_symbol <= length data_portion)%nat) by nia.
    replace (j * samples_per_symbol + samples_per_symbol <=? length data_portion)%nat
      with true by (symmetry; apply Nat.leb_le; exact Hle).
    destruct (extract_ofdm_symbol_length
                (slice data_portion (j * samples_per_symbol)
                   (j * samples_per_symbol + samples_per_symbol))) as (s & Hs & Hl).
    - unfold slice. rewrite length_take, length_drop. lia.
    - exists s. split; [exact Hs|]. rewrite Hl. f_equal.
      unfold slice. rewrite length_take, length_drop. lia. }
  assert (Hmain : forall n, (n <= length data_portion / samples_per_symbol)%nat ->
            length (omap f (map (fun j => (j * samples_per_symbol)%nat) (seq 0 n))) = n
            /\ Forall (fun s => length s = Nat.min carrier_count
                                             (samples_per_symbol - cyclic_prefix_length))
                 (omap f (map (fun j => (j * samples_per_symbol)%nat) (seq 0 n)))).
  { induction n as [|n IH]; intros Hn; [split; [reflexivity|constructor]|].
    rewrite seq_S, map_app, omap_app. cbn [map omap list_omap Nat.add].
    destruct (Hfull n ltac:(lia)) as (s & Hs & Hl). rewrite Hs.
    destruct (IH ltac:(lia)) as [IHl IHa]. split.
    - rewrite length_app, IHl. cbn [length]. lia.
    - apply Forall_app. split; [exact IHa|]. repeat constructor. exact Hl. }
  rewrite range_step_split by lia. rewrite omap_app.
  assert (Hlast : omap f (if (length data_portion mod samples_per_symbol =? 0)%nat
                          then []
                          else [(length data_portion / samples_per_symbol
                                 * samples_per_symbol)%nat]) = []).
  { destruct (length data_portion mod samples_per_symbol =? 0)%nat eqn:Hm; [reflexivity|].
    apply Nat.eqb_neq in Hm. cbn [omap list_omap]. unfold f.
    pose proof (Nat.div_mod_eq (length data_portion) samples_per_symbol) as Hdm.
    pose proof (Nat.mod_upper_bound (length data_portion) samples_per_symbol ltac:(lia)).
    replace (length data_portion / samples_per_symbol * samples_per_symbol
             + samples_per_symbol <=? length data_portion)%nat
      with false by (symmetry; apply Nat.leb_gt; lia).
    reflexivity. }
  rewrite Hlast, app_nil_r. apply Hmain. lia.
Qed.

End Strides.

Lemma extract_ofdm_symbols_count_witness :
  exists symbols,
    Modulation._extract_ofdm_symbols 480 dft_zero (repeat 0%Q 1000) = Return symbols
    /\ length symbols = (length (repeat 0%Q 1000) / 480)%nat
    /\ Forall (fun s => length s
                        = Nat.min Modulation.carrier_count
                            (480 - Modulation.cyclic_prefix_length))
              symbols.
Proof.
  apply (extract_ofdm_symbols_count 480 dft_zero (repeat 0%Q 1000)).
  unfold Modulation.cyclic_prefix_length. lia.
Defined.

(** ** Constellation mapping and demapping of a bit stream *)

Section Mapping.

Import Modulation.

Lemma filter_all {A : Type} (P : A -> Prop) `{!forall x, Decision (P x)} (l : list A) :
  Forall P l -> filter P l = l.
Proof.
  induction 1 as [|x l Hx _ IH]; [reflexivity|].
  rewrite filter_cons_True by exact Hx. rewrite IH. reflexivity.
Qed.

(** One group of six bits: the mapper picks a constellation point, and the
    demapper gives the six bits back. *)
Lemma map_demap_group (g : list Z) :
  length g = 6%nat -> Forall is_bit g ->
  exists c, constellation_at (weighted_sum 5 g) = Return c
            /\ _qam_symbols_to_bits [c] = Return g.
Proof.
  intros Hlen Hbits.
  do 6 (destruct g as [|? g]; [discriminate Hlen|]).
  destruct g; [|discriminate Hlen].
  repeat match goal with
         | H : Forall is_bit (_ :: _) |- _ =>
             let Hb := fresh "Hb" in
             inversion H as [|? ? Hb ?]; clear H; subst; destruct Hb; subst
         end;
    (eexists; split; [vm_compute; reflexivity | vm_compute; reflexivity]).
Qed.

Lemma qam_symbols_to_bits_cons (c : complex) (cs : list complex) (g bits : list Z) :
  _qam_symbols_to_bits [c] = Return g ->
  _qam_symbols_to_bits cs = Return bits ->
  _qam_symbols_to_bits (c :: cs) = Return (g ++ bits).
Proof.
  cbn [_qam_symbols_to_bits]. intros Hc Hcs. rewrite Hcs.
  destruct (np_argmin (distances c)) as [i|]; [|discriminate Hc].
  revert Hc. py_step. rewrite app_nil_r. intros Hc.
  assert (Hg : index_bits i = g) by congruence. rewrite Hg. reflexivity.
Qed.

Lemma bits_to_qam_symbols_groups (bits : list Z) (n : nat) :
  length bits = (n * 6)%nat ->
  _bits_to_qam_symbols bits
  = mapM (fun i => constellation_at (weighted_sum 5 (slice bits i (i + 6))))
         (map (fun j => (j * 6)%nat) (seq 0 n)).
Proof.
  intros Hlen. unfold _bits_to_qam_symbols. rewrite Hlen.
  rewrite range_step_exact by lia. rewrite filter_all; [reflexivity|].
  apply Forall_forall. intros i Hi. apply list_elem_of_In, in_map_iff in Hi.
  destruct Hi as (j & <- & Hj). apply in_seq in Hj. lia.
Qed.

Lemma map_demap_stream (n : nat) : forall bits : list Z,
  length bits = (n * 6)%nat -> Forall is_bit bits ->
  exists symbols,
    _bits_to_qam_symbols bits = Return symbols
    /\ length symbols = n
    /\ _qam_symbols_to_bits symbols = Return bits.
Proof.
  induction n as [|n IH]; intros bits Hlen Hbits.
  - destruct bits; [|discriminate Hlen]. exists []. repeat split.
  - rewrite (bits_to_qam_symbols_groups bits (S n) Hlen).
    assert (Hg : length (take 6 bits) = 6%nat) by (rewrite length_take; lia).
    assert (Hr : length (drop 6 bits) = (n * 6)%nat) by (rewrite length_drop; lia).
    assert (Hsplit : bits = take 6 bits ++ drop 6 bits) by (symmetry; apply take_drop).
    generalize dependent (drop 6 bits). generalize dependent (take 6 bits).
    intros g Hg r Hr ->. clear Hlen.
    apply Forall_app in Hbits. destruct Hbits as [Hbg Hbr].
    rewrite (mapM_groups (fun l => constellation_at (weighted_sum 5 l)) g r 6 n Hg).
    destruct (map_demap_group _ Hg Hbg) as (c & Hc & Hdc).
    destruct (IH _ Hr Hbr) as (cs & Hcs & Hcl & Hdcs).
    rewrite (bits_to_qam_symbols_groups _ n Hr) in Hcs.
    rewrite Hc. py_step. rewrite Hcs. py_step.
    exists (c :: cs). split; [reflexivity|]. split; [cbn; lia|].
    apply qam_symbols_to_bits_cons; assumption.
Qed.

(** Mapping a stream of whole 6-bit groups to constellation points and
    demapping the points gives the stream back, one point per group. *)
Theorem qam_symbols_to_bits_bits_to_qam_symbols (bits : list Z) :
  Forall is_bit bits -> (length bits mod 6 = 0)%nat ->
  exists symbols,
    _bits_to_qam_symbols bits = Return symbols
    /\ length symbols = (length bits / 6)%nat
    /\ _qam_symbols_to_bits symbols = Return bits.
Proof.
  intros Hbits Hmod.
  pose proof (Nat.div_mod_eq (length bits) 6) as Hdm.
  apply (map_demap_stream (length bits / 6) bits); [lia|exact Hbits].
Qed.

Lemma qam_symbols_to_bits_bits_to_qam_symbols_witness :
  exists symbols,
    _bits_to_qam_symbols [1; 0; 1; 1; 0; 0; 0; 1; 1; 1; 0; 1] = Return symbols
    /\ length symbols = (length [1; 0; 1; 1; 0; 0; 0; 1; 1; 1; 0; 1] / 6)%nat
    /\ _qam_symbols_to_bits symbols = Return [1; 0; 1; 1; 0; 0; 0; 1; 1; 1; 0; 1].
Proof.
  apply (qam_symbols_to_bits_bits_to_qam_symbols [1; 0; 1; 1; 0; 0; 0; 1; 1; 1; 0; 1]).
  - repeat constructor; unfold is_bit; lia.
  - reflexivity.
Defined.

End Mapping.

(** ** The transmitter *)

Section Transmitter.

Import Modulation Modulator.

Lemma pad_to_multiple (x k : nat) :
  (0 < k)%nat -> (x + (k - x mod k) mod k = (x + k - 1) / k * k)%nat.
Proof.
  intros Hk.
  pose proof (Nat.div_mod_eq x k) as Hdm.
  pose proof (Nat.mod_upper_bound x k ltac:(lia)) as Hr.
  destruct (Nat.eq_dec (x mod k)%nat 0%nat) as [H0|H0].
  - rewrite H0, Nat.sub_0_r, Nat.Div0.mod_same.
    replace (x + k - 1)%nat with ((k - 1) + x / k * k)%nat by lia.
    rewrite Nat.div_add by lia. rewrite (Nat.div_small (k - 1) k) by lia. lia.
  - rewrite (Nat.mod_small (k - x mod k) k) by lia.
    replace (x + k - 1)%nat with ((x mod k - 1) + S (x / k) * k)%nat by lia.
    rewrite Nat.div_add by lia. rewrite (Nat.div_small (x mod k - 1) k) by lia. lia.
Qed.

Lemma demodulate_symbols_cons (s : list complex) (ss : list (list complex))
    (g bits : list Z) :
  _qam_symbols_to_bits s = Return g ->
  _demodulate_symbols ss = Return bits ->
  _demodulate_symbols (s :: ss) = Return (g ++ bits).
Proof.
  intros Hs Hss. cbn [_demodulate_symbols]. rewrite Hs, Hss. reflexivity.
Qed.

(** Whole symbols of 384 bits: mapped, 64 points each; demapped, the same
    bits. *)
Lemma map_demap_symbols (m : nat) : forall bits : list Z,
  length bits = (m * 384)%nat -> Forall is_bit bits ->
  exists symbols,
    mapM (fun i => _bits_to_qam_symbols (slice bits i (i + 384)))
         (map (fun j => (j * 384)%nat) (seq 0 m)) = Return symbols
    /\ length symbols = m
    /\ Forall (fun s => length s = 64%nat) symbols
    /\ _demodulate_symbols symbols = Return bits.
Proof.
  induction m as [|m IH]; intros bits Hlen Hbits.
  - destruct bits; [|discriminate Hlen]. exists []. repeat split. constructor.
  - assert (Hg : length (take 384 bits) = 384%nat) by (rewrite length_take; lia).
    assert (Hr : length (drop 384 bits) = (m * 384)%nat) by (rewrite length_drop; lia).
    assert (Hsplit : bits = take 384 bits ++ drop 384 bits) by (symmetry; apply take_drop).
    generalize dependent (drop 384 bits). generalize dependent (take 384 bits).
    intros g Hg r Hr ->. clear Hlen.
    apply Forall_app in Hbits. destruct Hbits as [Hbg Hbr].
    rewrite (mapM_groups _bits_to_qam_symbols g r 384 m Hg).
    destruct (map_demap_stream 64 g Hg Hbg) as (s & Hs & Hsl & Hds).
    destruct (IH r Hr Hbr) as (ss & Hss & Hssl & Hssa & Hdss).
    rewrite Hs. py_step. rewrite Hss. py_step.
    exists (s :: ss). split; [reflexivity|]. split; [cbn; lia|].
    split; [constructor; assumption|].
    apply demodulate_symbols_cons; assumption.
Qed.

Lemma packed_zeros (z : nat) : packed (repeat 0 (z * 8)) = repeat 0 z.
Proof.
  induction z as [|z IH]; [reflexivity|].
  replace (S z * 8)%nat with (8 + z * 8)%nat by lia. rewrite repeat_app.
  rewrite (packed_app _ _ z); [|reflexivity|apply repeat_length].
  rewrite IH. reflexivity.
Qed.

Lemma packed_zero_padding (enc : bytes) (z : nat) :
  is_bytes enc -> packed (_bytes_to_bits enc ++ repeat 0 (z * 8)) = enc ++ repeat 0 z.
Proof.
  induction 1 as [|x enc Hx Henc IH]; [apply packed_zeros|].
  rewrite bytes_to_bits_cons, <- app_assoc.
  rewrite (packed_app _ _ (length enc + z)); [|reflexivity|].
  - rewrite byte_bits_value by exact Hx. rewrite IH. reflexivity.
  - rewrite length_app, bytes_to_bits_length, repeat_length. lia.
Qed.

Variable rs_encode : bytes -> result bytes.

Lemma modulate_symbols_stream (data encoded_data : bytes) :
  rs_encode data = Return encoded_data -> is_bytes encoded_data ->
  exists symbols bits,
    modulate_symbols rs_encode data = Return symbols
    /\ length symbols = ((length encoded_data * 8 + 383) / 384)%nat
    /\ Forall (fun s => length s = 64%nat) symbols
    /\ _demodulate_symbols symbols = Return bits
    /\ _bits_to_bytes bits
       = Return (Some (encoded_data
                       ++ repeat 0 (length symbols * 48 - length encoded_data))).
Proof.
  intros Henc Hbytes. unfold modulate_symbols. rewrite Henc. py_step.
  unfold bits_per_symbol, carrier_count. change (64 * 6)%nat with 384%nat.
  set (bits0 := _bytes_to_bits encoded_data).
  set (pad := ((384 - length bits0 mod 384) mod 384)%nat).
  set (m := ((length encoded_data * 8 + 383) / 384)%nat).
  assert (Hlen0 : length bits0 = (length encoded_data * 8)%nat)
    by apply bytes_to_bits_length.
  assert (Hlen : length (bits0 ++ repeat 0 pad) = (m * 384)%nat).
  { rewrite length_app, repeat_length. subst pad m.
    rewrite (pad_to_multiple (length bits0) 384) by lia. rewrite Hlen0.
    replace (length encoded_data * 8 + 384 - 1)%nat
      with (length encoded_data * 8 + 383)%nat by lia. reflexivity. }
  assert (Hpad : pad = ((m * 48 - length encoded_data) * 8)%nat).
  { rewrite length_app, repeat_length in Hlen. lia. }
  assert (Hbits : Forall is_bit (bits0 ++ repeat 0 pad)).
  { apply Forall_app. split; [apply bytes_to_bits_is_bit|].
    apply Forall_forall. intros b Hb. apply list_elem_of_In, repeat_spec in Hb.
    left. exact Hb. }
  rewrite Hlen, range_step_exact by lia.
  destruct (map_demap_symbols m _ Hlen Hbits) as (symbols & Hsym & Hsl & Hsa & Hdem).
  exists symbols, (bits0 ++ repeat 0 pad).
  split; [exact Hsym|]. split; [exact Hsl|]. split; [exact Hsa|].
  split; [exact Hdem|].
  rewrite Hsl. subst bits0. rewrite Hpad.
  rewrite bits_to_bytes_packed.
  - rewrite packed_zero_padding by exact Hbytes. reflexivity.
  - rewrite <- Hpad, Hlen. replace (m * 384)%nat with (m * 48 * 8)%nat by lia.
    apply Nat.Div0.mod_mul.
  - rewrite packed_zero_padding by exact Hbytes.
    apply Forall_app. split; [exact Hbytes|].
    apply Forall_forall. intros b Hb. apply list_elem_of_In, repeat_spec in Hb.
    subst b. unfold is_byte. lia.
Qed.

(** The modulator cuts the FEC-coded bytes into OFDM symbols of 64
    constellation points, 48 bytes to a symbol, the last one filled up
    with zero bits; the receiver's demapping and packing, applied to these
    symbols, give the coded bytes back, followed by zero bytes up to the
    symbol boundary. *)
Theorem modulate_symbols_demapped (data encoded_data : bytes) :
  rs_encode data = Return encoded_data -> is_bytes encoded_data ->
  exists symbols bits,
    modulate_symbols rs_encode data = Return symbols
    /\ length symbols = ((length encoded_data * 8 + 383) / 384)%nat
    /\ Forall (fun s => length s = 64%nat) symbols
    /\ _demodulate_symbols symbols = Return bits
    /\ _bits_to_bytes bits
       = Return (Some (encoded_data
                       ++ repeat 0 (length symbols * 48 - length encoded_data))).
Proof. apply modulate_symbols_stream. Qed.

End Transmitter.

Lemma modulate_symbols_demapped_witness :
  exists symbols bits,
    Modulator.modulate_symbols rs_identity (bytes_of_string "Test data for OFDM")
    = Return symbols
    /\ length symbols
       = ((length (bytes_of_string "Test data for OFDM") * 8 + 383) / 384)%nat
    /\ Forall (fun s => length s = 64%nat) symbols
    /\ Modulation._demodulate_symbols symbols = Return bits
    /\ Modulation._bits_to_bytes bits
       = Return (Some (bytes_of_string "Test data for OFDM"
                       ++ repeat 0 (length symbols * 48
                                    - length (bytes_of_string "Test data for OFDM")))).
Proof.
  apply (modulate_symbols_demapped rs_identity
           (bytes_of_string "Test data for OFDM") (bytes_of_string "Test data for OFDM")).
  - reflexivity.
  - unfold is_bytes. apply Forall_forall. intros b Hb.
    apply list_elem_of_In in Hb. cbn in Hb. unfold is_byte.
    repeat (destruct Hb as [<-|Hb]; [lia|]). destruct Hb.
Defined.

(** ** The transmitted waveform *)

Section Waveform.

Import Modulation Modulator.

Variable marker : list Q.
Variable samples_per_symbol : nat.
Variable idft_bin : list complex -> nat -> Q * Q.
Variable resample_at : list Q -> nat -> nat -> Q.
Variable float32 : Q -> Q.
Variable rs_encode : bytes -> result bytes.

(** The frame of a symbol of 64 points: the real parts of the 64 samples
    of the inverse transform, preceded by the last 16 of them, resampled
    unless a frame has 80 samples. *)
#[local] Abbreviation with_prefix symbol :=
  (drop 48 (map (fun k => fst (idft_bin symbol k)) (seq 0 64))
   ++ map (fun k => fst (idft_bin symbol k)) (seq 0 64)).

#[local] Abbreviation frame_of symbol :=
  (if (80 =? samples_per_symbol)%nat
   then with_prefix symbol
   else map (resample_at (with_prefix symbol) samples_per_symbol)
            (seq 0 samples_per_symbol)).

Lemma with_prefix_length (symbol : list complex) : length (with_prefix symbol) = 80%nat.
Proof. reflexivity. Qed.

Lemma frame_of_length (symbol : list complex) :
  length (frame_of symbol) = samples_per_symbol.
Proof.
  destruct (Nat.eqb_spec 80 samples_per_symbol) as [E|E].
  - rewrite <- E. reflexivity.
  - rewrite length_map, length_seq. reflexivity.
Qed.

Lemma generate_ofdm_symbol_frame (symbol : list complex) :
  length symbol = carrier_count ->
  _generate_ofdm_symbol idft_bin resample_at symbol samples_per_symbol
  = Return (frame_of symbol).
Proof.
  intros Hlen. unfold _generate_ofdm_symbol.
  rewrite Hlen, Nat.sub_diag. cbn [repeat]. rewrite app_nil_r.
  cbv zeta. change carrier_count with 64%nat. change cyclic_prefix_length with 16%nat.
  assert (Hreal : map fst
                    (drop (length (map (idft_bin symbol) (seq 0 64)) - 16)
                          (map (idft_bin symbol) (seq 0 64))
                     ++ map (idft_bin symbol) (seq 0 64))
                  = with_prefix symbol).
  { rewrite length_map, length_seq. change (64 - 16)%nat with 48%nat.
    rewrite map_app, <- skipn_map, map_map. reflexivity. }
  rewrite Hreal. change (64 <? 64)%nat with false. cbv iota.
  change (length (with_prefix symbol)) with 80%nat.
  destruct (80 =? samples_per_symbol)%nat; reflexivity.
Qed.

Lemma assign_slice_exact (pre values post old : list Q) :
  length values = length old ->
  assign_slice (pre ++ old ++ post) (length pre) (length pre + length values) values
  = Return (pre ++ values ++ post).
Proof.
  intros Hlen. unfold assign_slice. rewrite !length_app.
  replace (Nat.min (length pre) (length pre + (length old + length post)))
    with (length pre) by lia.
  replace (Nat.max (length pre)
             (Nat.min (length pre + length values)
                (length pre + (length old + length post))))
    with (length pre + length old)%nat by lia.
  replace (length values =? length pre + length old - length pre)%nat with true
    by (symmetry; apply Nat.eqb_eq; lia).
  rewrite take_app_length.
  rewrite (app_assoc pre old post), drop_app_length'
    by (rewrite length_app; reflexivity).
  reflexivity.
Qed.

(** The loop writes the frames one after the other over the zeros, each
    sample as the [float32] array holds it. *)
Lemma generate_ofdm_waveform_loop_frames (symbols : list (list complex)) :
  forall (i : nat) (pre : list Q),
    Forall (fun s => length s = carrier_count) symbols ->
    length pre = (i * samples_per_symbol)%nat ->
    _generate_ofdm_waveform_loop samples_per_symbol idft_bin resample_at float32 i symbols
      (pre ++ repeat 0%Q (length symbols * samples_per_symbol))
    = Return (pre ++ concat (map (fun s => map float32 (frame_of s)) symbols)).
Proof.
  induction symbols as [|s symbols IH]; intros i pre Hall Hpre.
  - cbn. reflexivity.
  - inversion Hall as [|? ? Hs Hrest]; subst.
    cbn [_generate_ofdm_waveform_loop length].
    rewrite (generate_ofdm_symbol_frame s Hs). py_step.
    replace (S (length symbols) * samples_per_symbol)%nat
      with (samples_per_symbol + length symbols * samples_per_symbol)%nat by lia.
    rewrite repeat_app, <- Hpre.
    replace (length pre + length (frame_of s))%nat
      with (length pre + length (map float32 (frame_of s)))%nat
      by (rewrite length_map; reflexivity).
    rewrite (assign_slice_exact pre (map float32 (frame_of s)) _
               (repeat 0%Q samples_per_symbol))
      by (rewrite repeat_length, length_map; apply frame_of_length).
    py_step. rewrite (app_assoc pre).
    rewrite (IH (S i)); [|exact Hrest|].
    + cbn [map concat]. rewrite <- !app_assoc. reflexivity.
    + rewrite length_app, length_map, frame_of_length, Hpre. lia.
Qed.

(** The modulated waveform is the start marker, one frame of
    [samples_per_symbol] samples for every 48 coded bytes (rounded up),
    and the negated marker; its length follows.  The frame of a symbol
    holds, as [float32] values, the real parts of the 64 samples of the
    inverse transform of its 64 constellation points, preceded by the
    last 16 of them as cyclic prefix, and resampled to
    [samples_per_symbol] samples unless that number is 80. *)
Theorem modulate_layout (data encoded_data : bytes) :
  rs_encode data = Return encoded_data -> is_bytes encoded_data ->
  exists symbols,
    modulate_symbols rs_encode data = Return symbols
    /\ length symbols = ((length encoded_data * 8 + 383) / 384)%nat
    /\ Forall (fun s => length s = 64%nat) symbols
    /\ modulate marker samples_per_symbol idft_bin resample_at rs_encode float32 data
       = Return (marker
                 ++ concat (map (fun s => map float32 (frame_of s)) symbols)
                 ++ map Qopp marker)
    /\ Forall (fun s => length (map float32 (frame_of s)) = samples_per_symbol) symbols
    /\ length (marker
               ++ concat (map (fun s => map float32 (frame_of s)) symbols)
               ++ map Qopp marker)
       = (2 * length marker
          + (length encoded_data * 8 + 383) / 384 * samples_per_symbol)%nat.
Proof.
  intros Henc Hbytes.
  destruct (modulate_symbols_stream rs_encode data encoded_data Henc Hbytes)
    as (symbols & _ & Hsym & Hsl & Hsa & _).
  pose proof (generate_ofdm_waveform_loop_frames symbols 0 [] Hsa eq_refl) as Hloop.
  assert (Hfl : Forall (fun s => length (map float32 (frame_of s)) = samples_per_symbol)
                  symbols).
  { apply Forall_forall. intros s _. rewrite length_map. apply frame_of_length. }
  assert (Hconcat : length (concat (map (fun s => map float32 (frame_of s)) symbols))
                    = (length symbols * samples_per_symbol)%nat).
  { clear. induction symbols as [|s ss IH]; [reflexivity|].
    cbn [map concat length]. rewrite length_app, IH, length_map, frame_of_length. lia. }
  exists symbols. split; [exact Hsym|]. split; [exact Hsl|]. split; [exact Hsa|].
  split; [|split; [exact Hfl|]].
  - unfold modulate. rewrite Hsym. py_step.
    unfold _generate_ofdm_waveform. cbn [app] in Hloop. rewrite Hloop. reflexivity.
  - rewrite !length_app, length_map, Hconcat, Hsl. lia.
Qed.

End Waveform.

Lemma modulate_layout_witness :
  rs_identity [1; 2; 3] = Return [1; 2; 3] /\ is_bytes [1; 2; 3] /\
  exists symbols,
    Modulator.modulate_symbols rs_identity [1; 2; 3] = Return symbols
    /\ length symbols = ((length [1; 2; 3] * 8 + 383) / 384)%nat
    /\ Forall (fun s => length s = 64%nat) symbols
    /\ Modulator.modulate [1; -1]%Q 80 idft_zero resample_hold rs_identity float32_exact
         [1; 2; 3]
       = Return ([1; -1]%Q
                 ++ concat
                      (map (fun s =>
                              map float32_exact
                                (if (80 =? 80)%nat
                                 then drop 48 (map (fun k => fst (idft_zero s k)) (seq 0 64))
                                      ++ map (fun k => fst (idft_zero s k)) (seq 0 64)
                                 else map (resample_hold
                                             (drop 48 (map (fun k => fst (idft_zero s k))
                                                           (seq 0 64))
                                              ++ map (fun k => fst (idft_zero s k)) (seq 0 64))
                                             80)
                                          (seq 0 80)))
                           symbols)
                 ++ map Qopp [1; -1]%Q)
    /\ Forall (fun s =>
                 length
                   (map float32_exact
                      (if (80 =? 80)%nat
                       then drop 48 (map (fun k => fst (idft_zero s k)) (seq 0 64))
                            ++ map (fun k => fst (idft_zero s k)) (seq 0 64)
                       else map (resample_hold
                                   (drop 48 (map (fun k => fst (idft_zero s k)) (seq 0 64))
                                    ++ map (fun k => fst (idft_zero s k)) (seq 0 64))
                                   80)
                                (seq 0 80))) = 80%nat) symbols
    /\ length ([1; -1]%Q
               ++ concat
                    (map (fun s =>
                            map float32_exact
                              (if (80 =? 80)%nat
                               then drop 48 (map (fun k => fst (idft_zero s k)) (seq 0 64))
                                    ++ map (fun k => fst (idft_zero s k)) (seq 0 64)
                               else map (resample_hold
                                           (drop 48 (map (fun k => fst (idft_zero s k))
                                                         (seq 0 64))
                                            ++ map (fun k => fst (idft_zero s k)) (seq 0 64))
                                           80)
                                        (seq 0 80)))
                         symbols)
               ++ map Qopp [1; -1]%Q)
       = (2 * length [1; -1]%Q + (length [1; 2; 3] * 8 + 383) / 384 * 80)%nat.
Proof.
  assert (H1 : rs_identity [1; 2; 3] = Return [1; 2; 3]) by reflexivity.
  assert (H2 : is_bytes [1; 2; 3]) by (repeat constructor; unfold is_byte; lia).
  split; [exact H1|]. split; [exact H2|].
  exact (modulate_layout [1; -1]%Q 80 idft_zero resample_hold float32_exact rs_identity
           [1; 2; 3] [1; 2; 3] H1 H2).
Defined.

(** ** Energy detection and the listening buffer *)

Section AudioReceive.

Import Listening.

Lemma int16_wrap_range (v : Z) : -32768 <= int16_wrap v <= 32767.
Proof.
  unfold int16_wrap. pose proof (Z.mod_pos_bound (v + 32768) 65536 ltac:(lia)). lia.
Qed.

Lemma fold_add_bounds (a : list Z) (lo hi : Z) :
  Forall (fun x => lo <= x <= hi) a ->
  lo * Z.of_nat (length a) <= fold_right Z.add 0 a <= hi * Z.of_nat (length a).
Proof.
  induction 1 as [|x a Hx _ IH]; [cbn; lia|].
  cbn [fold_right length]. lia.
Qed.

(** The energy of a chunk is the mean of squares that were wrapped into 16
    bits, so it lies between -32768 and 32767, however loud the chunk is;
    a chunk with an odd number of bytes has energy 0. *)
Theorem calculate_energy_range (audio_data : bytes) (energy : Q) :
  _calculate_energy audio_data = Finite energy ->
  (-32768 <= energy <= 32767)%Q
  /\ ((length audio_data mod 2 <> 0)%nat -> energy = 0%Q).
Proof.
  unfold _calculate_energy, frombuffer_int16.
  destruct (length audio_data mod 2 =? 0)%nat eqn:Hpar.
  - intros Hmean. split; [|apply Nat.eqb_eq in Hpar; intros Hodd; contradiction].
    unfold np_mean in Hmean.
    destruct (map (fun s => int16_wrap (s * s)) (int16_pairs audio_data))
      as [|y ys] eqn:Hsq; [discriminate Hmean|].
    injection Hmean as <-.
    assert (Hall : Forall (fun x => -32768 <= x <= 32767) (y :: ys)).
    { rewrite <- Hsq. apply Forall_forall. intros x Hx.
      apply list_elem_of_In, in_map_iff in Hx. destruct Hx as (s & <- & _).
      apply int16_wrap_range. }
    pose proof (fold_add_bounds _ _ _ Hall) as Hsum.
    assert (Hpos : Z.pos (Pos.of_nat (length (y :: ys))) = Z.of_nat (length (y :: ys))).
    { cbn [length]. lia. }
    cbn [fold_right length] in Hsum, Hpos.
    split; unfold Qle; cbn [Qnum Qden]; rewrite Hpos; lia.
  - intros [= <-]. split; [split; discriminate|reflexivity].
Qed.

Lemma calculate_energy_range_witness :
  (-32768 <= (-25536 # 1) <= 32767)%Q
  /\ ((length [200; 0] mod 2 <> 0)%nat -> (-25536 # 1) = 0%Q).
Proof.
  apply (calculate_energy_range [200; 0] (-25536 # 1)). reflexivity.
Defined.

Lemma square_of_high_byte_wraps (hi : Z) :
  is_byte hi ->
  int16_wrap (int16_wrap (0 + 256 * hi) * int16_wrap (0 + 256 * hi)) = 0.
Proof.
  intros [H0 H1].
  assert (Hall : forallb (fun n => int16_wrap (int16_wrap (0 + 256 * Z.of_nat n)
                                               * int16_wrap (0 + 256 * Z.of_nat n)) =? 0)
                         (seq 0 256) = true) by (vm_compute; reflexivity).
  rewrite forallb_forall in Hall.
  specialize (Hall (Z.to_nat hi)). rewrite Z2Nat.id in Hall by lia.
  apply Z.eqb_eq, Hall, in_seq. lia.
Qed.

Lemma squares_of_high_bytes (his : bytes) :
  is_bytes his ->
  length (high_bytes_only his) = (length his * 2)%nat
  /\ map (fun s => int16_wrap (s * s)) (int16_pairs (high_bytes_only his))
     = repeat 0 (length his).
Proof.
  induction 1 as [|hi his Hhi _ [IHl IH]]; [split; reflexivity|].
  split.
  - change (high_bytes_only (hi :: his)) with (0 :: hi :: high_bytes_only his).
    cbn [length]. lia.
  - change (high_bytes_only (hi :: his)) with (0 :: hi :: high_bytes_only his).
    cbn [int16_pairs map length repeat].
    rewrite square_of_high_byte_wraps by exact Hhi. rewrite IH. reflexivity.
Qed.

(** A chunk whose samples are all multiples of 256 (every low byte zero)
    has energy 0, whatever its amplitude, and passes for silence. *)
Theorem calculate_energy_multiples_of_256 (his : bytes) :
  is_bytes his -> his <> [] ->
  exists energy,
    _calculate_energy (high_bytes_only his) = Finite energy
    /\ (energy == 0)%Q
    /\ below_threshold (_calculate_energy (high_bytes_only his)) = true.
Proof.
  intros Hb Hne. destruct (squares_of_high_bytes his Hb) as [Hlen Hsq].
  assert (Hen : _calculate_energy (high_bytes_only his)
                = Finite (0 # Pos.of_nat (length his))).
  { unfold _calculate_energy, frombuffer_int16. rewrite Hlen, Nat.Div0.mod_mul.
    cbn [Nat.eqb]. rewrite Hsq. destruct his as [|h hs]; [contradiction|].
    unfold np_mean. cbn [length repeat]. rewrite repeat_length. f_equal. f_equal.
    clear. induction (length hs) as [|n IH]; [reflexivity|]. cbn. exact IH. }
  exists (0 # Pos.of_nat (length his)). split; [exact Hen|]. split; [reflexivity|].
  rewrite Hen. unfold below_threshold.
  destruct (Qlt_le_dec (0 # Pos.of_nat (length his)) 100) as [_|Hle]; [reflexivity|].
  exfalso. unfold Qle in Hle. cbn in Hle. lia.
Qed.

Lemma calculate_energy_multiples_of_256_witness :
  exists energy,
    _calculate_energy (high_bytes_only [100; 156; 100; 156]) = Finite energy
    /\ (energy == 0)%Q
    /\ below_threshold (_calculate_energy (high_bytes_only [100; 156; 100; 156])) = true.
Proof.
  apply (calculate_energy_multiples_of_256 [100; 156; 100; 156]).
  - repeat constructor; unfold is_byte; lia.
  - discriminate.
Defined.

End AudioReceive.

Section ListeningBuffer.

Import Listening.

(** Total number of samples held in a buffer of chunks. *)
#[local] Abbreviation held b := (fold_right Z.add 0 (map (fun chunk : list Q => Z.of_nat (length chunk)) b)).

Lemma evict_suffix (max_samples : Z) (fuel : nat) :
  forall (audio_buffer : list (list Q)) (total_samples : Z),
    total_samples = held audio_buffer ->
    (length audio_buffer <= fuel)%nat ->
    exists dropped,
      audio_buffer = dropped ++ evict fuel audio_buffer total_samples max_samples
      /\ (audio_buffer <> [] -> evict fuel audio_buffer total_samples max_samples <> [])
      /\ (held (evict fuel audio_buffer total_samples max_samples) <= max_samples
          \/ (length (evict fuel audio_buffer total_samples max_samples) <= 1)%nat)
      /\ (forall c, last dropped = Some c ->
            max_samples
            < held (c :: evict fuel audio_buffer total_samples max_samples)).
Proof.
  induction fuel as [|fuel IH]; intros audio_buffer total_samples Htot Hfuel.
  - destruct audio_buffer; [|cbn in Hfuel; lia].
    exists []. repeat split; [intros H; exact H | right; cbn; lia | discriminate].
  - cbn [evict].
    destruct (max_samples <? total_samples) eqn:Hover; cbn [andb].
    2:{ apply Z.ltb_ge in Hover. exists [].
        repeat split; [intros H; exact H | left; lia | discriminate]. }
    destruct (1 <? length audio_buffer)%nat eqn:Hmany.
    2:{ apply Nat.ltb_ge in Hmany. exists [].
        repeat split; [intros H; exact H | right; exact Hmany | discriminate]. }
    apply Nat.ltb_lt in Hmany. apply Z.ltb_lt in Hover.
    destruct audio_buffer as [|removed rest]; [cbn in Hmany; lia|].
    destruct (IH rest (total_samples - Z.of_nat (length removed)))
      as (dropped & Hd & Hne & Hcap & Hmin).
    { rewrite Htot. cbn [map fold_right]. lia. }
    { cbn in Hfuel. lia. }
    exists (removed :: dropped). split; [cbn [app]; f_equal; exact Hd|].
    split; [|split; [exact Hcap|]].
    + intros _. apply Hne. destruct rest; [cbn in Hmany; lia|discriminate].
    + intros c Hc. destruct dropped as [|d dropped].
      * cbn in Hc. injection Hc as <-. cbn [app] in Hd. rewrite <- Hd.
        rewrite <- Htot. exact Hover.
      * apply Hmin. exact Hc.
Qed.

(** While listening, a chunk that arrives is appended to the buffer and
    chunks are then dropped from the front, oldest first, until at most 5
    seconds of samples remain or only the new chunk is left: the buffer
    after the callback is a suffix of the old buffer followed by the new
    chunk, it ends with the new chunk, and it holds at most
    [5 * sample_rate] samples unless it is the new chunk alone.  No chunk
    is dropped without need: with the last chunk that was dropped the
    buffer would hold more than [5 * sample_rate] samples. *)
Theorem audio_callback_keeps_recent (sample_rate : Z)
    (audio_buffer : list (list Q)) (in_data : bytes) (samples : list Z) :
  frombuffer_int16 in_data = Return samples ->
  exists dropped kept,
    _audio_callback true sample_rate audio_buffer in_data = Return kept
    /\ audio_buffer ++ [map (fun s => (inject_Z s / 32767)%Q) samples] = dropped ++ kept
    /\ last kept = Some (map (fun s => (inject_Z s / 32767)%Q) samples)
    /\ (held kept <= 5 * sample_rate \/ length kept = 1%nat)
    /\ (forall c, last dropped = Some c -> 5 * sample_rate < held (c :: kept)).
Proof.
  intros Hsamples. unfold _audio_callback. rewrite Hsamples. py_step.
  set (chunk := map (fun s => (inject_Z s / 32767)%Q) samples).
  destruct (evict_suffix (5 * sample_rate) (length (audio_buffer ++ [chunk]))
              (audio_buffer ++ [chunk]) (held (audio_buffer ++ [chunk])) eq_refl (le_n _))
    as (dropped & Hd & Hne & Hcap & Hmin).
  set (kept := evict _ _ _ _) in *.
  exists dropped, kept. split; [reflexivity|]. split; [exact Hd|].
  assert (Hkne : kept <> []) by (apply Hne; destruct audio_buffer; discriminate).
  assert (Hlast : last kept = Some chunk).
  { pose proof (f_equal last Hd) as Hl. rewrite last_snoc in Hl.
    destruct kept as [|k ks] using rev_ind; [contradiction|].
    rewrite app_assoc, last_snoc in Hl. rewrite last_snoc. symmetry. exact Hl. }
  split; [exact Hlast|]. split; [|exact Hmin].
  destruct Hcap as [Hcap|Hcap]; [left; exact Hcap|right].
  destruct kept as [|k [|k' ks]]; [contradiction|reflexivity|cbn in Hcap; lia].
Qed.

End ListeningBuffer.

Lemma audio_callback_keeps_recent_witness :
  Listening.frombuffer_int16 [255; 127; 0; 0; 1; 0] = Return [32767; 0; 1] /\
  exists dropped kept,
    Listening._audio_callback true 1 [[1; 2; 3]%Q; [4; 5]%Q] [255; 127; 0; 0; 1; 0]
    = Return kept
    /\ [[1; 2; 3]%Q; [4; 5]%Q]
       ++ [map (fun s => (inject_Z s / 32767)%Q) [32767; 0; 1]] = dropped ++ kept
    /\ last kept = Some (map (fun s => (inject_Z s / 32767)%Q) [32767; 0; 1])
    /\ (fold_right Z.add 0 (map (fun chunk : list Q => Z.of_nat (length chunk)) kept)
        <= 5 * 1
        \/ length kept = 1%nat)
    /\ (forall c, last dropped = Some c ->
          5 * 1 < fold_right Z.add 0
                    (map (fun chunk : list Q => Z.of_nat (length chunk)) (c :: kept))).
Proof.
  split; [reflexivity|].
  apply (audio_callback_keeps_recent 1 [[1; 2; 3]%Q; [4; 5]%Q]
           [255; 127; 0; 0; 1; 0] [32767; 0; 1]).
  reflexivity.
Defined.

(** ** Quantization after normalization *)

Section Quantization.

Import Audio.




End Quantization.

(** ** The receiving pipeline *)

Section Receiver.

Import Core.

Variable marker : list Q.
Variable samples_per_symbol : nat.
Variable dft_bin : list Q -> nat -> Modulation.complex.
Variable rs_decode : bytes -> result bytes.
Variable AES_CBC_decrypt : bytes -> bytes -> bytes -> result bytes.
Variable PKCS1_OAEP_decrypt : bytes -> bytes -> result bytes.

(** Whatever audio was captured and whatever the options, [receive_data]
    returns [None]: the demodulator never delivers a frame. *)
Theorem receive_data_none (audio_data : option (list Q)) (private_key : option bytes)
    (decompress decrypt : bool) :
  receive_data marker samples_per_symbol dft_bin rs_decode
    AES_CBC_decrypt PKCS1_OAEP_decrypt audio_data private_key decompress decrypt
  = None.
Proof.
  unfold receive_data. destruct audio_data as [audio|]; [|reflexivity].
  rewrite demodulate_none. reflexivity.
Qed.

End Receiver.

(** ** Frequency ranges *)

Section Ranges.

Import Utils.

Local Open Scope Q_scope.


End Ranges.

(** ** The Huffman coder: digits and bytes *)

Section BitStrings.
Import Compression Coding.

Lemma append_nil_l (s : string) : EmptyString +:+ s = s.
Proof. reflexivity. Qed.

Lemma append_cons (a : ascii) (s t : string) :
  String a s +:+ t = String a (s +:+ t).
Proof. reflexivity. Qed.

Lemma append_assoc (s t u : string) : (s +:+ t) +:+ u = s +:+ (t +:+ u).
Proof.
  induction s as [|a s IH]; rewrite ?append_nil_l, ?append_cons;
    [reflexivity | now rewrite IH].
Qed.

Lemma append_empty_r (s : string) : s +:+ EmptyString = s.
Proof.
  induction s as [|a s IH]; rewrite ?append_nil_l, ?append_cons;
    [reflexivity | now rewrite IH].
Qed.

Lemma length_append (s t : string) :
  String.length (s +:+ t) = (String.length s + String.length t)%nat.
Proof.
  induction s as [|a s IH]; rewrite ?append_nil_l, ?append_cons; cbn [String.length];
    [reflexivity | now rewrite IH].
Qed.

Lemma length_zeros (n : nat) : String.length (zeros n) = n.
Proof. induction n as [|n IH]; cbn; [reflexivity | now rewrite IH]. Qed.

Lemma binary_append (s t : string) : binary s -> binary t -> binary (s +:+ t).
Proof.
  induction s as [|a s IH]; rewrite ?append_nil_l, ?append_cons; cbn [binary];
    [tauto | intros [Ha Hs] Ht; split; auto].
Qed.

Lemma binary_zeros (n : nat) : binary (zeros n).
Proof. induction n as [|n IH]; cbn; auto. Qed.

(** Eight binary digits are the [format(_, '08b')] of the byte they
    denote. *)
Lemma int_base2_format_08b (a1 a2 a3 a4 a5 a6 a7 a8 : ascii) :
  binary (String a1 (String a2 (String a3 (String a4
           (String a5 (String a6 (String a7 (String a8 EmptyString)))))))) ->
  exists v, is_byte v /\
    int_base2 (String a1 (String a2 (String a3 (String a4
           (String a5 (String a6 (String a7 (String a8 EmptyString)))))))) = Return v /\
    format_08b v = String a1 (String a2 (String a3 (String a4
           (String a5 (String a6 (String a7 (String a8 EmptyString))))))).
Proof.
  cbn [binary].
  intros ([-> | ->] & [-> | ->] & [-> | ->] & [-> | ->] &
          [-> | ->] & [-> | ->] & [-> | ->] & [-> | ->] & _);
    eexists; (split; [| split; [vm_compute; reflexivity | vm_compute; reflexivity]]);
    unfold is_byte; lia.
Qed.

Lemma bytes_to_bitstring_from (data : bytes) (s : string) :
  fold_left (fun bitstring byte => bitstring +:+ format_08b byte) data s
  = s +:+ _bytes_to_bitstring data.
Proof.
  unfold _bytes_to_bitstring. revert s.
  induction data as [|b data IH]; intros s; cbn [fold_left].
  - now rewrite append_empty_r.
  - rewrite IH, (IH (EmptyString +:+ format_08b b)), append_nil_l.
    apply append_assoc.
Qed.

Lemma bytes_to_bitstring_cons (b : Z) (data : bytes) :
  _bytes_to_bitstring (b :: data) = format_08b b +:+ _bytes_to_bitstring data.
Proof.
  unfold _bytes_to_bitstring at 1. cbn [fold_left].
  now rewrite bytes_to_bitstring_from.
Qed.

(** The loop of [_bitstring_to_bytes] on a string of [8 * k] binary digits. *)
Lemma pack_octets (k : nat) : forall s : string,
  binary s -> String.length s = (8 * k)%nat ->
  exists bs,
    mapM (fun i => int_base2 (substring i 8 s)) (map (fun j => (j * 8)%nat) (seq 0 k))
    = Return bs /\
    is_bytes bs /\ length bs = k /\ _bytes_to_bitstring bs = s.
Proof.
  induction k as [|k IH]; intros s Hb Hlen.
  - destruct s; [| discriminate]. exists []. repeat split. constructor.
  - destruct s as [|a1 [|a2 [|a3 [|a4 [|a5 [|a6 [|a7 [|a8 s]]]]]]]];
      try (cbn [String.length] in Hlen; lia).
    cbn [binary] in Hb.
    destruct Hb as (H1 & H2 & H3 & H4 & H5 & H6 & H7 & H8 & Hs).
    destruct (int_base2_format_08b a1 a2 a3 a4 a5 a6 a7 a8) as (v & Hv & Hint & Hfmt).
    { cbn [binary]. tauto. }
    destruct (IH s Hs) as (bs & Hmap & Hbs & Hl & Hstr).
    { cbn [String.length] in Hlen. lia. }
    exists (v :: bs).
    split; [| split; [| split]].
    + cbn [seq map mapM]. rewrite <- seq_shift, map_map.
      assert (Hhead : substring (0 * 8) 8
                (String a1 (String a2 (String a3 (String a4
                  (String a5 (String a6 (String a7 (String a8 s))))))))
              = String a1 (String a2 (String a3 (String a4
                  (String a5 (String a6 (String a7 (String a8 EmptyString)))))))).
      { cbn. now destruct s. }
      rewrite Hhead, Hint.
      unfold mbind, result_bind. cbn [Py.bind].
      rewrite mapM_map in Hmap. rewrite mapM_map.
      rewrite (mapM_ext _ (fun j => int_base2 (substring (j * 8) 8 s))).
      * rewrite Hmap. reflexivity.
      * intros j _. reflexivity.
    + constructor; assumption.
    + cbn [length]. now rewrite Hl.
    + rewrite bytes_to_bitstring_cons, Hfmt, Hstr. reflexivity.
Qed.

Lemma pad_to_octets (n : nat) :
  exists k, (n + (8 - n mod 8) mod 8 = 8 * k)%nat /\ k = ((n + 7) / 8)%nat.
Proof.
  exists ((n + 7) / 8)%nat. split; [| reflexivity].
  pose proof (Nat.div_mod_eq n 8). pose proof (Nat.mod_upper_bound n 8).
  pose proof (Nat.div_mod_eq (n + 7) 8). pose proof (Nat.mod_upper_bound (n + 7) 8).
  pose proof (Nat.div_mod_eq (8 - n mod 8) 8). pose proof (Nat.mod_upper_bound (8 - n mod 8) 8).
  assert (((8 - n mod 8) / 8 = 0 /\ n mod 8 <> 0) \/ ((8 - n mod 8) / 8 = 1 /\ n mod 8 = 0))%nat.
  { destruct (Nat.eq_dec (n mod 8)%nat 0%nat) as [E|E].
    - right. split; [| assumption]. rewrite E. reflexivity.
    - left. split; [| assumption]. apply Nat.div_small. lia. }
  lia.
Qed.

Lemma bitstring_to_bytes_returns (s : string) :
  binary s ->
  exists bs,
    _bitstring_to_bytes s = Return bs /\
    is_bytes bs /\
    length bs = ((String.length s + 7) / 8)%nat /\
    _bytes_to_bitstring bs = s +:+ zeros ((8 - String.length s mod 8) mod 8).
Proof.
  intros Hb. unfold _bitstring_to_bytes. cbv zeta.
  destruct (pad_to_octets (String.length s)) as (k & Hk & Hk').
  set (p := ((8 - String.length s mod 8) mod 8)%nat) in *.
  assert (Hlen : String.length (s +:+ zeros p) = (8 * k)%nat).
  { now rewrite length_append, length_zeros. }
  rewrite Hlen, (Nat.mul_comm 8 k), range_step_exact by lia.
  destruct (pack_octets k (s +:+ zeros p)) as (bs & Hmap & Hbs & Hl & Hstr).
  { apply binary_append; [assumption | apply binary_zeros]. }
  { exact Hlen. }
  exists bs. rewrite Hmap, Hl, Hk'. auto.
Qed.

(** [_bitstring_to_bytes] never raises on binary digits, packs them
    eight to a byte, and [_bytes_to_bitstring] gives the digits back,
    followed by the zero digits that completed the last byte. *)
Theorem bytes_to_bitstring_bitstring_to_bytes (s : string) :
  binary s ->
  exists bs,
    _bitstring_to_bytes s = Return bs /\
    is_bytes bs /\
    length bs = ((String.length s + 7) / 8)%nat /\
    _bytes_to_bitstring bs = s +:+ zeros ((8 - String.length s mod 8) mod 8).
Proof. exact (bitstring_to_bytes_returns s). Qed.

End BitStrings.

Lemma bytes_to_bitstring_bitstring_to_bytes_witness :
  Coding.binary "10110" /\
  exists bs,
    Compression._bitstring_to_bytes "10110" = Return bs /\
    is_bytes bs /\
    length bs = ((String.length "10110" + 7) / 8)%nat /\
    Compression._bytes_to_bitstring bs
    = "10110" +:+ Compression.zeros ((8 - String.length "10110" mod 8) mod 8).
Proof.
  assert (H : Coding.binary "10110") by (cbn; tauto).
  split; [exact H | exact (bytes_to_bitstring_bitstring_to_bytes "10110" H)].
Defined.

(** ** The header of the compressed stream *)

Section Header.
Import Compression Coding.

Lemma from_bytes_big_from (l : bytes) (acc : Z) :
  fold_left (fun acc b => acc * 256 + b) l acc
  = acc * 256 ^ Z.of_nat (length l) + from_bytes_big l.
Proof.
  unfold from_bytes_big. revert acc.
  induction l as [|b l IH]; intros acc; cbn [fold_left length].
  - cbn. lia.
  - rewrite IH, (IH (0 * 256 + b)), Nat2Z.inj_succ, Z.pow_succ_r by lia. lia.
Qed.

Lemma length_be_digits (n : nat) (v : Z) : length (be_digits n v) = n.
Proof. induction n as [|n IH]; cbn [be_digits length]; [reflexivity | now rewrite IH]. Qed.

Lemma is_bytes_be_digits (n : nat) (v : Z) : is_bytes (be_digits n v).
Proof.
  induction n as [|n IH]; cbn [be_digits]; constructor; [| exact IH].
  unfold is_byte. apply Z.mod_pos_bound. lia.
Qed.

Lemma from_bytes_big_be_digits (n : nat) (v : Z) :
  from_bytes_big (be_digits n v) = v mod 256 ^ Z.of_nat n.
Proof.
  induction n as [|n IH]; cbn [be_digits].
  - cbn. now rewrite Z.mod_1_r.
  - unfold from_bytes_big. cbn [fold_left].
    rewrite from_bytes_big_from, IH, length_be_digits.
    rewrite Nat2Z.inj_succ, Z.pow_succ_r by lia.
    rewrite (Z.mul_comm 256), Z.rem_mul_r by lia. lia.
Qed.

Lemma from_bytes_big_to_bytes_big (n : nat) (v : Z) :
  0 <= v < 256 ^ Z.of_nat n ->
  to_bytes_big n v = Return (be_digits n v) /\ from_bytes_big (be_digits n v) = v.
Proof.
  intros Hv. split.
  - unfold to_bytes_big.
    destruct (Z.leb_spec 0 v); [| lia]. destruct (Z.ltb_spec v (256 ^ Z.of_nat n)); [| lia].
    reflexivity.
  - rewrite from_bytes_big_be_digits. apply Z.mod_small. exact Hv.
Qed.

Lemma length_entries (fc : Counter) : length (entries fc) = (5 * length fc)%nat.
Proof.
  induction fc as [|cf fc IH]; [reflexivity|].
  unfold entries in *. cbn [flat_map length].
  rewrite length_app, IH. cbn [length]. rewrite length_be_digits. lia.
Qed.

Lemma entries_app (fc1 fc2 : Counter) :
  entries (fc1 ++ fc2) = entries fc1 ++ entries fc2.
Proof. unfold entries. apply flat_map_app. Qed.

Lemma is_bytes_entries (fc : Counter) :
  Forall entry_ok fc -> is_bytes (entries fc).
Proof.
  induction 1 as [|cf fc [Hc _] _ IH]; [constructor|].
  unfold entries. cbn [flat_map]. constructor; [exact Hc|].
  apply Forall_app. split; [apply is_bytes_be_digits | exact IH].
Qed.

Lemma bytearray_append_byte (buf : bytes) (v : Z) :
  is_byte v -> bytearray_append buf v = Return (buf ++ [v]).
Proof.
  intros [H0 H1]. unfold bytearray_append, is_byteb.
  destruct (Z.leb_spec 0 v); [| lia]. destruct (Z.ltb_spec v 256); [| lia]. reflexivity.
Qed.

Lemma create_header_loop (fc : Counter) : forall header : bytes,
  Forall entry_ok fc ->
  fold_left
    (fun acc cf =>
       header ← acc;
       header ← bytearray_append header (fst cf);
       fb ← to_bytes_big 4 (snd cf);
       Return (header ++ fb))
    fc (Return header)
  = Return (header ++ entries fc).
Proof.
  set (step := fun (acc : result bytes) (cf : Z * Z) => _).
  induction fc as [|[c f] fc IH]; intros header Hok; cbn [fold_left].
  - unfold entries. cbn [flat_map]. now rewrite app_nil_r.
  - inversion Hok as [|? ? [Hc Hf] Hok']; subst. cbn [fst snd] in *.
    assert (Hstep : step (Return header) (c, f)
                    = Return (header ++ c :: be_digits 4 f)).
    { unfold step, mbind, result_bind. cbn [Py.bind fst snd].
      rewrite (bytearray_append_byte header c Hc). cbn [Py.bind].
      destruct (from_bytes_big_to_bytes_big 4 f Hf) as [-> _]. cbn [Py.bind].
      rewrite <- app_assoc. reflexivity. }
    rewrite Hstep, (IH _ Hok'). unfold entries. cbn [flat_map fst snd].
    f_equal. rewrite <- !app_assoc. reflexivity.
Qed.

Lemma counter_set_fresh (fc : Counter) (k v : Z) :
  ~ In k (map fst fc) -> counter_set fc k v = fc ++ [(k, v)].
Proof.
  induction fc as [|[k' v'] fc IH]; intros Hk; cbn [counter_set app]; [reflexivity|].
  cbn [map fst In] in Hk.
  destruct (Z.eqb_spec k' k) as [E|E]; [tauto|].
  rewrite IH by tauto. reflexivity.
Qed.

(** One entry of the table, read at its offset. *)
Lemma entry_at (pre d tail : bytes) (c : Z) (k : nat) :
  length pre = k -> length d = 4%nat ->
  index (pre ++ c :: d ++ tail) k = Return c /\
  slice (pre ++ c :: d ++ tail) (k + 1) (k + 5) = d.
Proof.
  intros Hk Hd. split.
  - unfold index, bytes in *.
    rewrite list_lookup_middle by (symmetry; exact Hk). reflexivity.
  - unfold slice.
    replace (pre ++ c :: d ++ tail) with ((pre ++ [c]) ++ d ++ tail)
      by (rewrite <- app_assoc; reflexivity).
    rewrite drop_app_length' by (rewrite length_app; cbn [length]; lia).
    apply take_app_length'. lia.
Qed.

Lemma extract_header_loop (hd : Z) (rest : bytes) (fc2 : Counter) : forall fc1 : Counter,
  NoDup (map fst (fc1 ++ fc2)) ->
  Forall entry_ok fc2 ->
  fold_left
    (fun acc j =>
       freq_counter ← acc;
       let i := (1 + j)%nat in
       char ← index (hd :: entries (fc1 ++ fc2) ++ rest) i;
       let freq := from_bytes_big (slice (hd :: entries (fc1 ++ fc2) ++ rest) (i + 1) (i + 5)) in
       Return (counter_set freq_counter char freq))
    (map (fun j => (j * 5)%nat) (seq (length fc1) (length fc2))) (Return fc1)
  = Return (fc1 ++ fc2).
Proof.
  induction fc2 as [|[c f] fc2 IH]; intros fc1 Hnd Hok; cbn [length seq map fold_left].
  - now rewrite app_nil_r.
  - inversion Hok as [|? ? [Hc Hf] Hok']; subst. cbn [fst snd] in *.
    specialize (IH (fc1 ++ [(c, f)])).
    rewrite <- app_assoc in IH. cbn [app] in IH.
    rewrite length_app in IH. cbn [length] in IH. rewrite Nat.add_1_r in IH.
    set (step := fun (acc : result Counter) (j : nat) => _) in *.
    assert (Hstep : step (Return fc1) (length fc1 * 5)%nat = Return (fc1 ++ [(c, f)])).
    { assert (Hdata : hd :: entries (fc1 ++ (c, f) :: fc2) ++ rest
                      = (hd :: entries fc1) ++ c :: be_digits 4 f ++ (entries fc2 ++ rest)).
      { rewrite entries_app. unfold entries at 2. cbn [flat_map fst snd].
        fold (entries fc2). cbn [app]. rewrite <- !app_assoc. reflexivity. }
      destruct (entry_at (hd :: entries fc1) (be_digits 4 f) (entries fc2 ++ rest) c
                  (1 + length fc1 * 5)) as [Hidx Hsl].
      { cbn [length]. rewrite length_entries. lia. }
      { apply length_be_digits. }
      unfold step, mbind, result_bind. cbn [Py.bind]. cbv zeta.
      rewrite Hdata, Hidx. cbn [Py.bind]. rewrite Hsl.
      destruct (from_bytes_big_to_bytes_big 4 f Hf) as [_ ->].
      rewrite counter_set_fresh; [reflexivity|].
      rewrite map_app in Hnd. cbn [map fst] in Hnd.
      apply NoDup_app in Hnd. destruct Hnd as (_ & Hdis & _).
      intros Hin. apply (Hdis c); [| left; reflexivity].
      apply list_elem_of_In. exact Hin. }
    unfold step at 1 in Hstep. cbv beta zeta in Hstep.
    rewrite Hstep. apply IH; assumption.
Qed.

Lemma create_header_returns (fc : Counter) :
  Forall entry_ok fc -> (length fc <= 255)%nat ->
  _create_header fc = Return (Z.of_nat (length fc) :: entries fc).
Proof.
  intros Hok Hlen.
  assert (Hn : is_byte (Z.of_nat (length fc))) by (unfold is_byte; lia).
  unfold _create_header. rewrite (bytearray_append_byte [] _ Hn).
  unfold mbind at 1, result_bind at 1. cbn [Py.bind app].
  apply create_header_loop. exact Hok.
Qed.

Lemma extract_header_entries (fc : Counter) (rest : bytes) :
  NoDup (map fst fc) -> Forall entry_ok fc ->
  _extract_header ((Z.of_nat (length fc) :: entries fc) ++ rest) = Return (fc, rest).
Proof.
  intros Hnd Hok.
  unfold _extract_header. cbn [app index lookup list_lookup].
  unfold mbind at 1, result_bind at 1. cbn [Py.bind]. cbv zeta.
  rewrite Nat2Z.id.
  replace (1 + length fc * 5 - 1)%nat with (length fc * 5)%nat by lia.
  rewrite range_step_exact by lia.
  pose proof (extract_header_loop (Z.of_nat (length fc)) rest fc [] Hnd Hok) as Hloop.
  cbn [app length] in Hloop.
  match goal with
  | |- ?loop ≫= _ = _ => assert (Hm : loop = Return fc) by exact Hloop; rewrite Hm
  end.
  unfold mbind, result_bind. cbn [Py.bind]. f_equal. f_equal.
  replace (1 + length fc * 5)%nat with (S (length (entries fc)))
    by (rewrite length_entries; lia).
  cbn [drop]. apply drop_app_length.
Qed.

(** A table of at most 255 entries with distinct byte keys and
    counts below [2^32] gets a header of one count byte and five bytes for
    each entry, and [_extract_header] reads the same table back, in the
    same order, leaving the bytes after the header. *)
Theorem extract_header_create_header (fc : Counter) (rest : bytes) :
  NoDup (map fst fc) -> Forall entry_ok fc -> (length fc <= 255)%nat ->
  exists header,
    _create_header fc = Return header /\
    is_bytes header /\
    length header = (1 + 5 * length fc)%nat /\
    _extract_header (header ++ rest) = Return (fc, rest).
Proof.
  intros Hnd Hok Hlen.
  exists (Z.of_nat (length fc) :: entries fc).
  split; [apply create_header_returns; assumption|].
  split; [| split].
  - constructor; [unfold is_byte; lia | apply is_bytes_entries; exact Hok].
  - cbn [length]. now rewrite length_entries.
  - apply extract_header_entries; assumption.
Qed.

End Header.

(** ** The heap of [_build_tree] *)

Section Heap.
Import Compression Trees.

Variable f : HuffmanNode -> Z.

Lemma total_app (l1 l2 : list HuffmanNode) :
  total f (l1 ++ l2) = total f l1 + total f l2.
Proof.
  unfold total. induction l1 as [|x l1 IH]; cbn [app map fold_right]; lia.
Qed.

Lemma total_insert (l : list HuffmanNode) : forall (i : nat) (x : HuffmanNode),
  (i < length l)%nat ->
  total f (<[i := x]> l) = total f l - f (l !!! i) + f x.
Proof.
  unfold total.
  induction l as [|y l IH]; intros i x Hi; cbn [length] in Hi; [lia|].
  destruct i as [|i].
  - cbn. lia.
  - change (<[S i := x]> (y :: l)) with (y :: <[i := x]> l).
    change ((y :: l) !!! S i) with (l !!! i).
    cbn [map fold_right]. rewrite IH by lia. lia.
Qed.

Lemma siftdown_loop_total (fuel : nat) :
  forall (heap : list HuffmanNode) (newitem : HuffmanNode) (startpos pos : nat),
  (pos < length heap)%nat ->
  length (_siftdown_loop fuel heap newitem startpos pos) = length heap /\
  total f (_siftdown_loop fuel heap newitem startpos pos)
  = total f (<[pos := newitem]> heap).
Proof.
  induction fuel as [|fuel IH]; intros heap newitem startpos pos Hpos;
    cbn [_siftdown_loop].
  - now rewrite length_insert.
  - destruct (Nat.ltb_spec startpos pos) as [Hlt|Hge];
      [| now rewrite length_insert].
    cbv zeta.
    destruct (node_lt newitem (heap !!! ((pos - 1) / 2)%nat));
      [| now rewrite length_insert].
    assert (Hpp : ((pos - 1) / 2 < pos)%nat).
    { apply Nat.Div0.div_lt_upper_bound. lia. }
    destruct (IH (<[pos := heap !!! ((pos - 1) / 2)%nat]> heap) newitem startpos
                ((pos - 1) / 2)%nat) as [Hl Ht].
    { rewrite length_insert. lia. }
    rewrite Hl, Ht, length_insert. split; [reflexivity|].
    rewrite total_insert by (rewrite length_insert; lia).
    rewrite list_lookup_total_insert_ne by lia.
    rewrite !total_insert by lia. lia.
Qed.

Lemma siftup_loop_total (fuel : nat) :
  forall (heap : list HuffmanNode) (pos childpos : nat),
  (pos < length heap)%nat -> (pos < childpos)%nat ->
  length (fst (_siftup_loop fuel heap (length heap) pos childpos)) = length heap /\
  (snd (_siftup_loop fuel heap (length heap) pos childpos) < length heap)%nat /\
  forall x : HuffmanNode,
    total f (<[snd (_siftup_loop fuel heap (length heap) pos childpos) := x]>
               (fst (_siftup_loop fuel heap (length heap) pos childpos)))
    = total f (<[pos := x]> heap).
Proof.
  induction fuel as [|fuel IH]; intros heap pos childpos Hpos Hchild;
    cbn [_siftup_loop].
  - cbn [fst snd]. auto.
  - destruct (Nat.ltb_spec childpos (length heap)) as [Hlt|Hge];
      [| cbn [fst snd]; auto].
    cbv zeta.
    set (c := if ((childpos + 1 <? length heap)%nat
                  && negb (node_lt (heap !!! childpos) (heap !!! (childpos + 1)%nat)))
              then (childpos + 1)%nat else childpos).
    assert (Hc : (pos < c < length heap)%nat).
    { unfold c. destruct (Nat.ltb_spec (childpos + 1) (length heap));
        cbn [andb]; [destruct (negb _) |]; lia. }
    pose proof (IH (<[pos := heap !!! c]> heap) c (2 * c + 1)%nat) as IH'.
    rewrite length_insert in IH'.
    destruct IH' as (Hl & Hp & Ht); [lia | lia |].
    split; [exact Hl | split; [exact Hp |]].
    intros x. rewrite Ht.
    rewrite total_insert by (rewrite length_insert; lia).
    rewrite list_lookup_total_insert_ne by lia.
    rewrite !total_insert by lia. lia.
Qed.

Lemma siftup_total (heap : list HuffmanNode) (pos : nat) :
  (pos < length heap)%nat ->
  length (_siftup heap pos) = length heap /\
  total f (_siftup heap pos) = total f heap.
Proof.
  intros Hpos. unfold _siftup. cbv zeta.
  destruct (siftup_loop_total (length heap) heap pos (2 * pos + 1)%nat Hpos ltac:(lia))
    as (Hl & Hp & Ht).
  destruct (_siftup_loop (length heap) heap (length heap) pos (2 * pos + 1)%nat)
    as [heap' pos'].
  cbn [fst snd] in Hl, Hp, Ht.
  unfold _siftdown.
  destruct (siftdown_loop_total pos' (<[pos' := heap !!! pos]> heap')
              (<[pos' := heap !!! pos]> heap' !!! pos') pos pos') as [Hl' Ht'].
  { rewrite length_insert. lia. }
  rewrite Hl', Ht', length_insert. split; [exact Hl|].
  rewrite total_insert by (rewrite length_insert; lia).
  rewrite Ht, total_insert by lia. lia.
Qed.

Lemma siftups_total (idxs : list nat) : forall heap : list HuffmanNode,
  Forall (fun i => (i < length heap)%nat) idxs ->
  length (fold_left _siftup idxs heap) = length heap /\
  total f (fold_left _siftup idxs heap) = total f heap.
Proof.
  induction idxs as [|i idxs IH]; intros heap Hall; cbn [fold_left]; [auto|].
  inversion Hall as [|? ? Hi Hall']; subst.
  destruct (siftup_total heap i Hi) as [Hl Ht].
  destruct (IH (_siftup heap i)) as [Hl' Ht'].
  { rewrite Hl. exact Hall'. }
  rewrite Hl', Ht', Hl, Ht. auto.
Qed.

Lemma heapify_total (x : list HuffmanNode) :
  length (heapify x) = length x /\ total f (heapify x) = total f x.
Proof.
  unfold heapify. apply siftups_total.
  apply Forall_forall. intros i Hi.
  apply list_elem_of_In, in_rev, in_seq in Hi.
  assert (length x / 2 <= length x)%nat by (apply Nat.Div0.div_le_upper_bound; lia).
  lia.
Qed.

Lemma heappop_total (heap rest : list HuffmanNode) (item : HuffmanNode) :
  heappop heap = Return (item, rest) ->
  length heap = S (length rest) /\ total f heap = f item + total f rest.
Proof.
  unfold heappop.
  destruct heap as [|y h _] using rev_ind; [discriminate|].
  rewrite last_snoc, removelast_last.
  destruct h as [|r front]; intros [= <- <-].
  - cbn. split; [reflexivity | lia].
  - destruct (siftup_total (<[0%nat := y]> (r :: front)) 0%nat) as [Hl Ht].
    { cbn. lia. }
    change (<[0%nat := y]> (r :: front)) with (y :: front) in Hl, Ht.
    rewrite Hl, Ht, length_app, total_app.
    cbn [length]. split; [lia|]. unfold total. cbn. lia.
Qed.

Lemma heappop_returns (heap : list HuffmanNode) :
  heap <> [] -> exists item rest, heappop heap = Return (item, rest).
Proof.
  intros Hne. unfold heappop.
  destruct heap as [|y h _] using rev_ind; [congruence|].
  rewrite last_snoc, removelast_last.
  destruct h as [|r front]; eauto.
Qed.

Lemma heappush_total (heap : list HuffmanNode) (item : HuffmanNode) :
  length (heappush heap item) = S (length heap) /\
  total f (heappush heap item) = total f heap + f item.
Proof.
  unfold heappush, _siftdown. cbv zeta.
  destruct (siftdown_loop_total (length (heap ++ [item]) - 1) (heap ++ [item])
              ((heap ++ [item]) !!! (length (heap ++ [item]) - 1)%nat) 0
              (length (heap ++ [item]) - 1)) as [Hl Ht].
  { rewrite length_app. cbn [length]. lia. }
  rewrite Hl, Ht.
  rewrite total_insert by (rewrite length_app; cbn [length]; lia).
  rewrite length_app, total_app. cbn [length]. split; [lia|].
  unfold total. cbn. lia.
Qed.

(** The merging loop never increases a measure that the new internal node
    does not increase. *)
Hypothesis f_merge : forall l r : HuffmanNode,
  f (mkNode None (freq l + freq r) (Some l) (Some r)) <= f l + f r.

Lemma build_tree_loop_total (fuel : nat) : forall (heap : list HuffmanNode) (root : HuffmanNode),
  _build_tree_loop fuel heap = Return [root] -> f root <= total f heap.
Proof.
  induction fuel as [|fuel IH]; intros heap root; cbn [_build_tree_loop].
  - intros [= ->]. unfold total. cbn. lia.
  - destruct (1 <? length heap)%nat;
      [| intros [= ->]; unfold total; cbn; lia].
    destruct (heappop heap) as [[l h1]|] eqn:E1; [| discriminate].
    unfold mbind at 1, result_bind at 1. cbn [Py.bind].
    destruct (heappop h1) as [[r h2]|] eqn:E2; [| discriminate].
    unfold mbind at 1, result_bind at 1. cbn [Py.bind].
    intros Hloop. apply IH in Hloop.
    destruct (heappop_total _ _ _ E1) as [_ Ht1].
    destruct (heappop_total _ _ _ E2) as [_ Ht2].
    destruct (heappush_total h2 (mkNode None (freq l + freq r) (Some l) (Some r)))
      as [_ Ht3].
    pose proof (f_merge l r). lia.
Qed.

End Heap.

(** ** The tree built from a frequency table *)

Section Tree.
Import Compression Trees.

Lemma build_tree_loop_returns (fuel : nat) : forall heap : list HuffmanNode,
  (1 <= length heap <= S fuel)%nat ->
  exists root, _build_tree_loop fuel heap = Return [root].
Proof.
  induction fuel as [|fuel IH]; intros heap Hlen; cbn [_build_tree_loop].
  - destruct heap as [|root [|? ?]]; cbn [length] in Hlen; try lia. eauto.
  - destruct (Nat.ltb_spec 1 (length heap)) as [Hlt|Hge].
    + destruct (heappop_returns heap) as (l & h1 & E1).
      { intros ->. cbn in Hlt. lia. }
      destruct (heappop_total (fun _ => 0) _ _ _ E1) as [Hl1 _].
      destruct (heappop_returns h1) as (r & h2 & E2).
      { intros ->. cbn in Hl1. lia. }
      destruct (heappop_total (fun _ => 0) _ _ _ E2) as [Hl2 _].
      rewrite E1. unfold mbind at 1, result_bind at 1. cbn [Py.bind].
      rewrite E2. unfold mbind at 1, result_bind at 1. cbn [Py.bind].
      apply IH.
      destruct (heappush_total (fun _ => 0) h2
                  (mkNode None (freq l + freq r) (Some l) (Some r))) as [Hl3 _].
      lia.
    + destruct heap as [|root [|? ?]]; cbn [length] in Hlen, Hge; try lia. eauto.
Qed.

(** [_build_tree] returns a node on a table with at least one entry, and no
    measure that merging does not increase is larger at the root than
    over the leaf nodes. *)
Lemma build_tree_total (fc : Counter) :
  fc <> [] ->
  exists root,
    _build_tree fc = Return root /\
    forall f : HuffmanNode -> Z,
      (forall l r, f (mkNode None (freq l + freq r) (Some l) (Some r)) <= f l + f r) ->
      f root <= total f (leaf_nodes fc).
Proof.
  intros Hne. unfold _build_tree. cbv zeta. fold (leaf_nodes fc).
  destruct (heapify_total (fun _ => 0) (leaf_nodes fc)) as [Hl _].
  assert (Hlen : (1 <= length (leaf_nodes fc))%nat).
  { unfold leaf_nodes. rewrite length_map. destruct fc; [congruence | cbn; lia]. }
  destruct (build_tree_loop_returns (length (heapify (leaf_nodes fc)))
              (heapify (leaf_nodes fc))) as [root Hroot]; [lia|].
  exists root. rewrite Hroot. split; [reflexivity|].
  intros f Hf.
  pose proof (build_tree_loop_total f Hf _ _ _ Hroot) as Hle.
  destruct (heapify_total f (leaf_nodes fc)) as [_ Ht]. lia.
Qed.

Lemma wfb_wf : forall t : HuffmanNode, wfb t = true -> wf t.
Proof.
  fix IH 1.
  intros [[c|] f [l|] [r|]]; cbn [wfb]; try discriminate.
  - intros _. constructor.
  - intros H. apply andb_true_iff in H. destruct H as [Hl Hr].
    constructor; apply IH; assumption.
Qed.

Lemma total_leaf_nodes (f : HuffmanNode -> Z) (g : Z * Z -> Z) (fc : Counter) :
  (forall c v, f (mkNode (Some c) v None None) = g (c, v)) ->
  total f (leaf_nodes fc) = fold_right Z.add 0 (map g fc).
Proof.
  intros Hfg. unfold total, leaf_nodes.
  induction fc as [|[c v] fc IH]; cbn [map fold_right fst snd]; [reflexivity|].
  rewrite IH, Hfg. reflexivity.
Qed.

Lemma count_occ_sum (k : Z) (l : list Z) :
  fold_right Z.add 0 (map (fun c => if Z.eq_dec c k then 1 else 0) l)
  = Z.of_nat (count_occ Z.eq_dec l k).
Proof.
  induction l as [|c l IH]; cbn [map fold_right count_occ]; [reflexivity|].
  rewrite IH. destruct (Z.eq_dec c k); lia.
Qed.

(** The tree of a table with at least one entry is well formed, its leaves
    are the keys of the table, each once, and the frequency at the root is
    the sum of the counts. *)
Lemma build_tree_wf (fc : Counter) :
  fc <> [] ->
  exists root,
    _build_tree fc = Return root /\
    wf root /\
    leaves root ≡ₚ map fst fc /\
    freq root = fold_right Z.add 0 (map snd fc).
Proof.
  intros Hne. destruct (build_tree_total fc Hne) as (root & Hroot & Hmeasure).
  exists root. split; [exact Hroot|]. split; [| split].
  - apply wfb_wf.
    pose proof (Hmeasure (fun t => if wfb t then 0 else 1)) as H.
    cbv beta in H.
    rewrite (total_leaf_nodes _ (fun _ => 0)) in H by reflexivity.
    assert (Hz : fold_right Z.add 0 (map (fun _ : Z * Z => 0) fc) = 0).
    { clear. induction fc as [|cf fc IH]; cbn [map fold_right]; lia. }
    rewrite Hz in H.
    destruct (wfb root); [reflexivity|].
    exfalso. apply (Z.lt_irrefl 0). apply Z.lt_le_trans with 1; [lia|].
    apply H. intros l r. cbn [wfb]. destruct (wfb l), (wfb r); cbn [andb]; lia.
  - apply (Permutation_count_occ Z.eq_dec). intros k.
    apply Nat2Z.inj.
    pose proof (Hmeasure (fun t => Z.of_nat (count_occ Z.eq_dec (leaves t) k))) as Hle.
    pose proof (Hmeasure (fun t => - Z.of_nat (count_occ Z.eq_dec (leaves t) k))) as Hge.
    cbv beta in Hle, Hge.
    rewrite (total_leaf_nodes _ (fun cf => if Z.eq_dec (fst cf) k then 1 else 0)) in Hle.
    2:{ intros c v. cbn [leaves count_occ fst]. destruct (Z.eq_dec c k); reflexivity. }
    rewrite (total_leaf_nodes _ (fun cf => - (if Z.eq_dec (fst cf) k then 1 else 0))) in Hge.
    2:{ intros c v. cbn [leaves count_occ fst]. destruct (Z.eq_dec c k); reflexivity. }
    assert (Hneg : forall l : list (Z * Z),
               fold_right Z.add 0 (map (fun cf => - (if Z.eq_dec (fst cf) k then 1 else 0)) l)
               = - fold_right Z.add 0 (map (fun cf => if Z.eq_dec (fst cf) k then 1 else 0) l)).
    { induction l as [|cf l IH]; cbn [map fold_right]; [reflexivity | rewrite IH; lia]. }
    rewrite Hneg in Hge.
    assert (Hkeys : fold_right Z.add 0 (map (fun cf : Z * Z => if Z.eq_dec (fst cf) k then 1 else 0) fc)
                    = Z.of_nat (count_occ Z.eq_dec (map fst fc) k)).
    { rewrite <- count_occ_sum, map_map. reflexivity. }
    rewrite Hkeys in Hle, Hge.
    assert (Hadd : forall l r : HuffmanNode,
               count_occ Z.eq_dec (leaves (mkNode None (freq l + freq r) (Some l) (Some r))) k
               = (count_occ Z.eq_dec (leaves l) k + count_occ Z.eq_dec (leaves r) k)%nat).
    { intros l r. cbn [leaves]. apply count_occ_app. }
    specialize (Hle ltac:(intros l r; rewrite Hadd; lia)).
    specialize (Hge ltac:(intros l r; rewrite Hadd; lia)).
    lia.
  - pose proof (Hmeasure freq) as Hle.
    pose proof (Hmeasure (fun t => - freq t)) as Hge.
    cbv beta in Hle, Hge.
    rewrite (total_leaf_nodes _ snd) in Hle by reflexivity.
    rewrite (total_leaf_nodes _ (fun cf => - snd cf)) in Hge by reflexivity.
    assert (Hneg : forall l : list (Z * Z),
               fold_right Z.add 0 (map (fun cf => - snd cf) l)
               = - fold_right Z.add 0 (map snd l)).
    { induction l as [|cf l IH]; cbn [map fold_right]; [reflexivity | rewrite IH; lia]. }
    rewrite Hneg in Hge.
    specialize (Hle ltac:(intros l r; cbn [freq]; lia)).
    specialize (Hge ltac:(intros l r; cbn [freq]; lia)).
    lia.
Qed.

End Tree.

(** ** Codes and decoding on a well-formed tree *)

Section Codes.
Import Compression Coding Trees.

Lemma path_binary (t : HuffmanNode) (p : string) (c : Z) :
  path t p c -> binary p.
Proof. induction 1; cbn [binary]; auto. Qed.

Lemma path_leaves (t : HuffmanNode) (p : string) (c : Z) :
  path t p c -> c ∈ leaves t.
Proof.
  induction 1; cbn [leaves].
  - apply list_elem_of_singleton. reflexivity.
  - apply elem_of_app. auto.
  - apply elem_of_app. auto.
Qed.

Lemma append_digit (code p : string) (a : ascii) :
  (code +:+ String a EmptyString) +:+ p = code +:+ String a p.
Proof. rewrite append_assoc. reflexivity. Qed.

(** [_generate_codes] files every leaf under the digits of its path, after
    the prefix it was called with, and leaves the other keys alone. *)
Lemma generate_codes_spec (t : HuffmanNode) :
  wf t -> forall (code : string) (codes : gmap Z string),
  NoDup (leaves t) -> forall c : Z,
  (c ∈ leaves t ->
   exists p, path t p c /\ _generate_codes t code codes !! c = Some (code +:+ p)) /\
  (c ∉ leaves t -> _generate_codes t code codes !! c = codes !! c).
Proof.
  induction 1 as [c0 f | f l r Hl IHl Hr IHr]; intros code codes Hnd c;
    cbn [_generate_codes leaves] in *.
  - split.
    + intros Hin. apply list_elem_of_singleton in Hin. subst c.
      exists EmptyString. split; [constructor|].
      rewrite lookup_insert_eq, append_empty_r. reflexivity.
    + intros Hnin. apply lookup_insert_ne. intros ->. apply Hnin.
      apply list_elem_of_singleton. reflexivity.
  - apply NoDup_app in Hnd. destruct Hnd as (Hndl & Hdis & Hndr).
    destruct (IHl (code +:+ "0") codes Hndl c) as [IHl1 IHl2].
    destruct (IHr (code +:+ "1") (_generate_codes l (code +:+ "0") codes) Hndr c)
      as [IHr1 IHr2].
    split.
    + intros Hin. apply elem_of_app in Hin. destruct Hin as [Hin|Hin].
      * destruct (IHl1 Hin) as (p & Hp & Hcode).
        exists (String "0" p). split; [constructor; exact Hp|].
        rewrite IHr2 by (apply Hdis; exact Hin).
        rewrite Hcode, append_digit. reflexivity.
      * destruct (IHr1 Hin) as (p & Hp & Hcode).
        exists (String "1" p). split; [constructor; exact Hp|].
        rewrite Hcode, append_digit. reflexivity.
    + intros Hnin. apply not_elem_of_app in Hnin. destruct Hnin as [Hnl Hnr].
      rewrite IHr2 by exact Hnr. apply IHl2. exact Hnl.
Qed.

(** Reading the digits of a path below an internal node emits the byte of
    the leaf and goes back to the root. *)
Lemma decode_loop_path (root t : HuffmanNode) (p : string) (c : Z) :
  path t p c -> char t = None ->
  forall (rest : string) (out : list Z),
    decode_loop root t (p +:+ rest) out = decode_loop root root rest (out ++ [c]).
Proof.
  induction 1 as [c f | f l r p c Hp IH | f l r p c Hp IH]; intros Hchar rest out.
  - discriminate.
  - rewrite append_cons. cbn [decode_loop Ascii.eqb Bool.eqb left right].
    inversion Hp; subst; cbn [char].
    + reflexivity.
    + apply IH. reflexivity.
    + apply IH. reflexivity.
  - rewrite append_cons. cbn [decode_loop Ascii.eqb Bool.eqb left right].
    inversion Hp; subst; cbn [char].
    + reflexivity.
    + apply IH. reflexivity.
    + apply IH. reflexivity.
Qed.

(** The encoding loop of [compress], and what [decode_loop] makes of its
    output. *)
Lemma encode_decode (root : HuffmanNode) (codes : gmap Z string) :
  char root = None ->
  forall data : list Z,
  (forall b, b ∈ data -> exists p, path root p b /\ codes !! b = Some p) ->
  forall acc : string,
  exists enc,
    fold_left
      (fun acc byte =>
         encoded_data ← acc;
         match codes !! byte with
         | Some code => Return (encoded_data +:+ code)
         | None => Raise
         end)
      data (Return acc)
    = Return (acc +:+ enc) /\
    binary enc /\
    forall (rest : string) (out : list Z),
      decode_loop root root (enc +:+ rest) out = decode_loop root root rest (out ++ data).
Proof.
  intros Hroot.
  set (step := fun (acc : result string) (byte : Z) => _).
  induction data as [|b data IH]; intros Hcodes acc; cbn [fold_left].
  - exists EmptyString. rewrite append_empty_r. split; [reflexivity|].
    split; [exact I|]. intros rest out. now rewrite append_nil_l, app_nil_r.
  - destruct (Hcodes b) as (p & Hp & Hcode); [left|].
    assert (Hstep : step (Return acc) b = Return (acc +:+ p)).
    { unfold step, mbind, result_bind. cbn [Py.bind]. now rewrite Hcode. }
    rewrite Hstep.
    destruct (IH ltac:(intros b' Hb'; apply Hcodes; right; exact Hb') (acc +:+ p))
      as (enc & Henc & Hbin & Hdec).
    exists (p +:+ enc). rewrite Henc, append_assoc.
    split; [reflexivity|]. split.
    + apply binary_append; [exact (path_binary _ _ _ Hp) | exact Hbin].
    + intros rest out.
      rewrite append_assoc, (decode_loop_path root root p b Hp Hroot), Hdec.
      rewrite <- app_assoc. reflexivity.
Qed.

(** On a well-formed tree [decode_loop] never raises: whatever the digits,
    it returns, having added at most one byte for each digit, each the
    byte of a leaf. *)
Lemma decode_loop_returns (root : HuffmanNode) :
  wf root -> char root = None ->
  forall (bits : string) (cur : HuffmanNode) (out : list Z),
  wf cur -> char cur = None -> (forall c, c ∈ leaves cur -> c ∈ leaves root) ->
  exists extra,
    decode_loop root cur bits out = Return (out ++ extra) /\
    (length extra <= String.length bits)%nat /\
    forall c, c ∈ extra -> c ∈ leaves root.
Proof.
  intros Hwf Hroot.
  induction bits as [|bit bits IH]; intros cur out Hcur Hchar Hsub; cbn [decode_loop].
  - exists []. rewrite app_nil_r. split; [reflexivity|]. split; [cbn; lia|].
    intros c Hc. apply elem_of_nil in Hc. contradiction.
  - inversion Hcur as [c f E | f l r Hl Hr E]; subst cur; [discriminate|].
    cbn [left right leaves] in *.
    assert (Hnext : forall n : HuffmanNode,
               wf n -> (forall c, c ∈ leaves n -> c ∈ leaves root) ->
               exists extra,
                 match char n with
                 | Some c => decode_loop root root bits (out ++ [c])
                 | None => decode_loop root n bits out
                 end = Return (out ++ extra) /\
                 (length extra <= String.length (String bit bits))%nat /\
                 forall c, c ∈ extra -> c ∈ leaves root).
    { intros n Hn Hsubn. inversion Hn as [c f' E | f' l' r' Hl' Hr' E]; subst n; cbn [char].
      - destruct (IH root (out ++ [c]) Hwf Hroot ltac:(auto)) as (extra & Hdec & Hlen & Hin).
        exists (c :: extra). rewrite Hdec, <- app_assoc. split; [reflexivity|].
        split; [cbn [length String.length]; lia|].
        intros c' Hc'. apply elem_of_cons in Hc'. destruct Hc' as [->|Hc']; [| auto].
        apply Hsubn. cbn [leaves]. apply list_elem_of_singleton. reflexivity.
      - destruct (IH (mkNode None f' (Some l') (Some r')) out Hn eq_refl Hsubn)
          as (extra & Hdec & Hlen & Hin).
        exists extra. split; [exact Hdec|]. split; [cbn [String.length]; lia | exact Hin]. }
    destruct (Ascii.eqb bit "0").
    + apply Hnext; [exact Hl|]. intros c Hc. apply Hsub, elem_of_app. auto.
    + apply Hnext; [exact Hr|]. intros c Hc. apply Hsub, elem_of_app. auto.
Qed.

End Codes.

(** ** The frequency table of an input *)

Section Frequencies.
Import Compression Coding Trees.

Lemma counter_get_bounds (c : Counter) (k n : Z) :
  0 <= n -> Forall (fun cf => 1 <= snd cf <= n) c -> 0 <= counter_get c k <= n.
Proof.
  intros Hn Hall. unfold counter_get.
  destruct (find (fun kv => fst kv =? k) c) as [kv|] eqn:E; [| lia].
  apply find_some in E. destruct E as [Hin _].
  rewrite Forall_forall in Hall. apply list_elem_of_In in Hin.
  specialize (Hall kv Hin). cbv beta in Hall. lia.
Qed.

Lemma counter_set_spec (c : Counter) (k v : Z) :
  NoDup (map fst c) ->
  NoDup (map fst (counter_set c k v)) /\
  (forall b, In b (map fst (counter_set c k v)) <-> In b (map fst c) \/ b = k) /\
  (forall P : Z * Z -> Prop, Forall P c -> P (k, v) -> Forall P (counter_set c k v)) /\
  fold_right Z.add 0 (map snd (counter_set c k v))
  = fold_right Z.add 0 (map snd c) - counter_get c k + v.
Proof.
  induction c as [|[k' v'] c IH]; intros Hnd; cbn [counter_set].
  - cbn [map fst snd fold_right]. unfold counter_get. cbn [find].
    split; [| split; [| split]].
    + apply NoDup_singleton.
    + intros b. cbn [In]. intuition congruence.
    + intros P _ HP. constructor; [exact HP | constructor].
    + lia.
  - cbn [map fst] in Hnd. apply NoDup_cons in Hnd. destruct Hnd as [Hk' Hnd].
    unfold counter_get. cbn [find fst].
    destruct (Z.eqb_spec k' k) as [E|E].
    + subst k'. cbn [map fst snd fold_right].
      split; [| split; [| split]].
      * apply NoDup_cons. auto.
      * intros b. cbn [In]. intuition congruence.
      * intros P HP HPk. inversion HP; subst. constructor; assumption.
      * lia.
    + destruct (IH Hnd) as (IH1 & IH2 & IH3 & IH4).
      cbn [map fst snd fold_right].
      split; [| split; [| split]].
      * apply NoDup_cons. split; [| exact IH1].
        intros Hin. apply list_elem_of_In, IH2 in Hin.
        destruct Hin as [Hin | ->]; [| congruence].
        apply Hk', list_elem_of_In. exact Hin.
      * intros b. cbn [In]. rewrite IH2. tauto.
      * intros P HP HPk. inversion HP; subst. constructor; auto.
      * rewrite IH4. unfold counter_get. lia.
Qed.

Lemma Counter_of_from (data : bytes) : forall (c : Counter) (n : Z),
  0 <= n -> NoDup (map fst c) -> Forall (fun cf => 1 <= snd cf <= n) c ->
  NoDup (map fst (fold_left (fun c b => counter_set c b (counter_get c b + 1)) data c)) /\
  Forall (fun cf => 1 <= snd cf <= n + Z.of_nat (length data))
    (fold_left (fun c b => counter_set c b (counter_get c b + 1)) data c) /\
  (forall b, In b (map fst (fold_left (fun c b => counter_set c b (counter_get c b + 1)) data c))
             <-> In b (map fst c) \/ In b data) /\
  fold_right Z.add 0
    (map snd (fold_left (fun c b => counter_set c b (counter_get c b + 1)) data c))
  = fold_right Z.add 0 (map snd c) + Z.of_nat (length data).
Proof.
  induction data as [|b data IH]; intros c n Hn Hnd Hall; cbn [fold_left length].
  - rewrite !Z.add_0_r. split; [exact Hnd|]. split; [exact Hall|].
    split; [| reflexivity]. intros b. cbn [In]. tauto.
  - destruct (counter_set_spec c b (counter_get c b + 1) Hnd) as (S1 & S2 & S3 & S4).
    pose proof (counter_get_bounds c b n Hn Hall) as Hget.
    destruct (IH (counter_set c b (counter_get c b + 1)) (n + 1)) as (I1 & I2 & I3 & I4).
    + lia.
    + exact S1.
    + apply S3.
      * eapply Forall_impl; [exact Hall|]. cbv beta. intros cf Hcf. lia.
      * cbn [snd]. lia.
    + split; [exact I1|]. split.
      * eapply Forall_impl; [exact I2|]. cbv beta. intros cf Hcf. lia.
      * split.
        -- intros b'. rewrite I3, S2. cbn [In]. intuition congruence.
        -- rewrite I4, S4. lia.
Qed.

(** [Counter(data)]: one entry for each distinct byte, the counts positive
    and adding up to the length of the input. *)
Lemma Counter_of_spec (data : bytes) :
  NoDup (map fst (Counter_of data)) /\
  Forall (fun cf => 1 <= snd cf <= Z.of_nat (length data)) (Counter_of data) /\
  (forall b, In b (map fst (Counter_of data)) <-> In b data) /\
  fold_right Z.add 0 (map snd (Counter_of data)) = Z.of_nat (length data).
Proof.
  destruct (Counter_of_from data [] 0) as (H1 & H2 & H3 & H4).
  - lia.
  - constructor.
  - constructor.
  - fold (Counter_of data) in *. cbn [map fold_right In] in *.
    split; [exact H1|]. split; [exact H2|]. split; [| exact H4].
    intros b. rewrite H3. tauto.
Qed.

Lemma Counter_of_entries (data : bytes) :
  is_bytes data -> Z.of_nat (length data) < 2 ^ 32 ->
  Forall entry_ok (Counter_of data).
Proof.
  intros Hbytes Hlen.
  destruct (Counter_of_spec data) as (_ & Hcounts & Hkeys & _).
  apply Forall_forall. intros [c v] Hin.
  pose proof (proj1 (Forall_forall _ _) Hcounts _ Hin) as Hv. cbn [snd] in Hv.
  split; cbn [fst snd]; [| lia].
  apply (proj1 (Forall_forall _ _) Hbytes), list_elem_of_In, Hkeys, in_map_iff.
  exists (c, v). split; [reflexivity | apply list_elem_of_In; exact Hin].
Qed.

End Frequencies.

(** ** Compression followed by decompression *)

Section RoundTrip.
Import Compression Coding Trees.

(** What [compress] goes through on an input with between 2 and 255
    distinct bytes. *)
Lemma compress_steps (data : bytes) :
  is_bytes data ->
  (2 <= length (Counter_of data) <= 255)%nat ->
  Z.of_nat (length data) < 2 ^ 32 ->
  exists (root : HuffmanNode) (enc : string) (packed : bytes),
    _build_tree (Counter_of data) = Return root /\
    wf root /\ char root = None /\
    (forall c, c ∈ leaves root <-> c ∈ data) /\
    binary enc /\
    (forall (rest : string) (out : list Z),
       decode_loop root root (enc +:+ rest) out
       = decode_loop root root rest (out ++ data)) /\
    is_bytes packed /\
    length packed = ((String.length enc + 7) / 8)%nat /\
    _bytes_to_bitstring packed = enc +:+ zeros ((8 - String.length enc mod 8) mod 8) /\
    compress data
    = (Z.of_nat (length (Counter_of data)) :: entries (Counter_of data)) ++ packed.
Proof.
  intros Hbytes Hn Hlen.
  destruct (Counter_of_spec data) as (Hnd & Hcounts & Hkeys & Hsum).
  pose proof (Counter_of_entries data Hbytes Hlen) as Hok.
  set (fc := Counter_of data) in *.
  assert (Hne : fc <> []) by (intros E; rewrite E in Hn; cbn in Hn; lia).
  destruct (build_tree_wf fc Hne) as (root & Hroot & Hwf & Hperm & Hfreq).
  assert (Hleaves : forall c, c ∈ leaves root <-> c ∈ data).
  { intros c. rewrite Hperm, !list_elem_of_In. apply Hkeys. }
  assert (Hndl : NoDup (leaves root)) by (rewrite Hperm; exact Hnd).
  assert (Hchar : char root = None).
  { inversion Hwf as [c f E | f l r Hl Hr E]; subst root; [| reflexivity].
    apply Permutation_length in Hperm. cbn [leaves length] in Hperm.
    rewrite length_map in Hperm. lia. }
  set (codes := _generate_codes root EmptyString ∅).
  assert (Hcodes : forall b, b ∈ data -> exists p, path root p b /\ codes !! b = Some p).
  { intros b Hb.
    destruct (generate_codes_spec root Hwf EmptyString ∅ Hndl b) as [Hin _].
    destruct (Hin (proj2 (Hleaves b) Hb)) as (p & Hp & Hc).
    exists p. split; [exact Hp | exact Hc]. }
  destruct (encode_decode root codes Hchar data Hcodes EmptyString)
    as (enc & Henc & Hbin & Hdec).
  destruct (bitstring_to_bytes_returns enc Hbin) as (packed & Hpack & Hpb & Hpl & Hps).
  exists root, enc, packed.
  repeat (split; [assumption|]).
  assert (Hbody : compress_body data = Return ((Z.of_nat (length fc) :: entries fc) ++ packed)).
  { unfold compress_body. cbv zeta. fold fc. rewrite Hroot.
    unfold mbind at 1, result_bind at 1. cbn [Py.bind]. fold codes.
    match goal with
    | |- ?loop ≫= _ = _ => assert (Hm : loop = Return enc) by exact Henc; rewrite Hm
    end.
    unfold mbind at 1, result_bind at 1. cbn [Py.bind]. rewrite Hpack.
    unfold mbind at 1, result_bind at 1. cbn [Py.bind].
    rewrite (create_header_returns fc Hok) by lia.
    unfold mbind at 1, result_bind at 1. cbn [Py.bind]. reflexivity. }
  unfold compress. destruct data as [|b data]; [exfalso; apply Hne; reflexivity|].
  rewrite Hbody. reflexivity.
Qed.

(** On an input with between 2 and 255 distinct bytes (and fewer than
    [2^32] bytes in all) [decompress] of [compress] gives the input back,
    followed by at most 7 more bytes, each a byte of the input: the bytes
    that the zero digits completing the last byte decode to. *)
Theorem decompress_compress_prefix (data : bytes) :
  is_bytes data ->
  (2 <= length (Counter_of data) <= 255)%nat ->
  Z.of_nat (length data) < 2 ^ 32 ->
  exists extra : bytes,
    decompress (compress data) = Some (data ++ extra) /\
    (length extra <= 7)%nat /\
    forall c, c ∈ extra -> c ∈ data.
Proof.
  intros Hbytes Hn Hlen.
  destruct (compress_steps data Hbytes Hn Hlen)
    as (root & enc & packed & Hroot & Hwf & Hchar & Hleaves & Hbin & Hdec & Hpb & Hpl
        & Hps & Hcompress).
  destruct (Counter_of_spec data) as (Hnd & _).
  pose proof (Counter_of_entries data Hbytes Hlen) as Hok.
  destruct (decode_loop_returns root Hwf Hchar
              (zeros ((8 - String.length enc mod 8) mod 8)) root data Hwf Hchar
              (fun c H => H)) as (extra & Hextra & Hle & Hin).
  exists extra. split; [| split].
  - rewrite Hcompress. unfold decompress. cbn [app].
    change (Z.of_nat (length (Counter_of data)) :: entries (Counter_of data) ++ packed)
      with ((Z.of_nat (length (Counter_of data)) :: entries (Counter_of data)) ++ packed).
    unfold decompress_body.
    rewrite (extract_header_entries (Counter_of data) packed Hnd Hok).
    unfold mbind at 1, result_bind at 1. cbn [Py.bind].
    rewrite Hroot. unfold mbind at 1, result_bind at 1. cbn [Py.bind]. cbv zeta.
    rewrite Hps, Hdec. cbn [app]. rewrite Hextra. reflexivity.
  - rewrite length_zeros in Hle.
    pose proof (Nat.mod_upper_bound (8 - String.length enc mod 8) 8). lia.
  - intros c Hc. apply Hleaves, Hin, Hc.
Qed.

End RoundTrip.

(** ** The code table *)

Section CodeTable.
Import Compression Coding Trees.

Lemma root_internal (root : HuffmanNode) (keys : list Z) :
  wf root -> leaves root ≡ₚ keys -> (2 <= length keys)%nat -> char root = None.
Proof.
  intros Hwf Hperm Hlen.
  inversion Hwf as [c f E | f l r Hl Hr E]; subst root; [| reflexivity].
  apply Permutation_length in Hperm. cbn [leaves length] in Hperm. lia.
Qed.

Lemma path_nonempty (t : HuffmanNode) (p : string) (c : Z) :
  path t p c -> char t = None -> p <> EmptyString.
Proof. destruct 1; cbn [char]; congruence. Qed.

(** No path is the beginning of another one. *)
Lemma path_prefix_free (t : HuffmanNode) (p : string) (c : Z) :
  path t p c ->
  forall (q : string) (c' : Z), path t (p +:+ q) c' -> c' = c /\ q = EmptyString.
Proof.
  induction 1 as [c f | f l r p c Hp IH | f l r p c Hp IH]; intros q c' Hq.
  - rewrite append_nil_l in Hq. inversion Hq; subst. auto.
  - rewrite append_cons in Hq. inversion Hq; subst. apply IH. assumption.
  - rewrite append_cons in Hq. inversion Hq; subst. apply IH. assumption.
Qed.

(** The entries of the table that [_generate_codes] fills from the empty
    dictionary are exactly the paths to the leaves. *)
Lemma generate_codes_paths (t : HuffmanNode) (c : Z) (p : string) :
  wf t -> NoDup (leaves t) ->
  _generate_codes t EmptyString ∅ !! c = Some p -> path t p c.
Proof.
  intros Hwf Hnd Hc.
  destruct (generate_codes_spec t Hwf EmptyString ∅ Hnd c) as [Hin Hout].
  destruct (decide (c ∈ leaves t)) as [Hl|Hl].
  - destruct (Hin Hl) as (p' & Hp' & Hc'). rewrite append_nil_l in Hc'.
    congruence.
  - rewrite (Hout Hl), lookup_empty in Hc. discriminate.
Qed.

(** For every table with at least one entry [_build_tree] returns a
    well-formed tree: each leaf carries a key of the table, each key of
    the table sits at as many leaves as the table lists it, and the
    frequency at the root is the sum of all counts. *)
Theorem build_tree_leaves (fc : Counter) :
  fc <> [] ->
  exists root,
    _build_tree fc = Return root /\
    wf root /\
    leaves root ≡ₚ map fst fc /\
    freq root = fold_right Z.add 0 (map snd fc).
Proof. exact (build_tree_wf fc). Qed.

(** The code table of a table with at least two distinct keys: every key
    gets a code, a non-empty string of binary digits, nothing else gets
    one, and no code is the beginning of the code of another key. *)
Theorem generate_codes_prefix_free (fc : Counter) :
  NoDup (map fst fc) -> (2 <= length fc)%nat ->
  exists root,
    _build_tree fc = Return root /\
    (forall c, In c (map fst fc) <-> is_Some (_generate_codes root EmptyString ∅ !! c)) /\
    (forall c p, _generate_codes root EmptyString ∅ !! c = Some p ->
                 binary p /\ p <> EmptyString) /\
    (forall c c' p q,
       _generate_codes root EmptyString ∅ !! c = Some p ->
       _generate_codes root EmptyString ∅ !! c' = Some (p +:+ q) ->
       c' = c /\ q = EmptyString).
Proof.
  intros Hnd Hlen.
  assert (Hne : fc <> []) by (intros ->; cbn in Hlen; lia).
  destruct (build_tree_wf fc Hne) as (root & Hroot & Hwf & Hperm & _).
  assert (Hndl : NoDup (leaves root)) by (rewrite Hperm; exact Hnd).
  assert (Hchar : char root = None).
  { apply (root_internal root (map fst fc) Hwf Hperm). now rewrite length_map. }
  exists root. split; [exact Hroot|]. split; [| split].
  - intros c. rewrite <- list_elem_of_In, <- Hperm. split.
    + intros Hin.
      destruct (generate_codes_spec root Hwf EmptyString ∅ Hndl c) as [Hcode _].
      destruct (Hcode Hin) as (p & _ & Hp). exists (EmptyString +:+ p). exact Hp.
    + intros [p Hp]. eapply path_leaves, generate_codes_paths; eassumption.
  - intros c p Hp. apply generate_codes_paths in Hp; [| assumption ..].
    split; [exact (path_binary _ _ _ Hp) | exact (path_nonempty _ _ _ Hp Hchar)].
  - intros c c' p q Hp Hq.
    apply generate_codes_paths in Hp; [| assumption ..].
    apply generate_codes_paths in Hq; [| assumption ..].
    exact (path_prefix_free _ _ _ Hp _ _ Hq).
Qed.

Lemma length_bytes_to_bitstring (data : bytes) :
  String.length (_bytes_to_bitstring data) = (8 * length data)%nat.
Proof.
  induction data as [|b data IH]; [reflexivity|].
  rewrite bytes_to_bitstring_cons, length_append, IH. cbn [length].
  change (String.length (format_08b b)) with 8%nat. lia.
Qed.

(** A stream that starts with the header of a table with between 2 and
    255 distinct keys never makes [decompress] fail, whatever bytes
    follow: it returns at most one byte for each digit, all of them keys
    of the table. *)
Theorem decompress_returns (fc : Counter) (payload : bytes) :
  NoDup (map fst fc) -> Forall entry_ok fc -> (2 <= length fc <= 255)%nat ->
  is_bytes payload ->
  exists out : bytes,
    decompress ((Z.of_nat (length fc) :: entries fc) ++ payload) = Some out /\
    (length out <= 8 * length payload)%nat /\
    forall c, c ∈ out -> In c (map fst fc).
Proof.
  intros Hnd Hok Hlen _.
  assert (Hne : fc <> []) by (intros ->; cbn in Hlen; lia).
  destruct (build_tree_wf fc Hne) as (root & Hroot & Hwf & Hperm & _).
  assert (Hchar : char root = None).
  { apply (root_internal root (map fst fc) Hwf Hperm). rewrite length_map. lia. }
  destruct (decode_loop_returns root Hwf Hchar (_bytes_to_bitstring payload) root []
              Hwf Hchar (fun c H => H)) as (out & Hout & Hle & Hin).
  exists out. split; [| split].
  - unfold decompress. cbn [app].
    change (Z.of_nat (length fc) :: entries fc ++ payload)
      with ((Z.of_nat (length fc) :: entries fc) ++ payload).
    unfold decompress_body.
    rewrite (extract_header_entries fc payload Hnd Hok).
    unfold mbind at 1, result_bind at 1. cbn [Py.bind].
    rewrite Hroot. unfold mbind at 1, result_bind at 1. cbn [Py.bind]. cbv zeta.
    rewrite Hout. reflexivity.
  - now rewrite length_bytes_to_bitstring in Hle.
  - intros c Hc. apply list_elem_of_In. rewrite <- Hperm. apply Hin, Hc.
Qed.

End CodeTable.

Lemma extract_header_create_header_witness :
  NoDup (map fst [(104, 2); (105, 1)]) /\
  Forall Coding.entry_ok [(104, 2); (105, 1)] /\
  (length [(104, 2); (105, 1)] <= 255)%nat /\
  exists header,
    Compression._create_header [(104, 2); (105, 1)] = Return header /\
    is_bytes header /\
    length header = (1 + 5 * length [(104, 2); (105, 1)])%nat /\
    Compression._extract_header (header ++ [7]) = Return ([(104, 2); (105, 1)], [7]).
Proof.
  assert (H1 : NoDup (map fst [(104, 2); (105, 1)])).
  { cbn [map fst]. repeat constructor; rewrite ?elem_of_cons, ?elem_of_nil; lia. }
  assert (H2 : Forall Coding.entry_ok [(104, 2); (105, 1)]).
  { repeat constructor; cbn [fst snd]; unfold is_byte; lia. }
  assert (H3 : (length [(104, 2); (105, 1)] <= 255)%nat) by (cbn [length]; lia).
  split; [exact H1 | split; [exact H2 | split; [exact H3 |]]].
  exact (extract_header_create_header [(104, 2); (105, 1)] [7] H1 H2 H3).
Defined.

Lemma build_tree_leaves_witness :
  [(104, 2); (105, 1)] <> [] /\
  exists root,
    Compression._build_tree [(104, 2); (105, 1)] = Return root /\
    Trees.wf root /\
    Trees.leaves root ≡ₚ map fst [(104, 2); (105, 1)] /\
    Compression.freq root = fold_right Z.add 0 (map snd [(104, 2); (105, 1)]).
Proof.
  assert (H : [(104, 2); (105, 1)] <> ([] : Compression.Counter)) by discriminate.
  split; [exact H | exact (build_tree_leaves [(104, 2); (105, 1)] H)].
Defined.

Lemma generate_codes_prefix_free_witness :
  NoDup (map fst [(104, 2); (105, 1)]) /\
  (2 <= length [(104, 2); (105, 1)])%nat /\
  exists root,
    Compression._build_tree [(104, 2); (105, 1)] = Return root /\
    (forall c, In c (map fst [(104, 2); (105, 1)])
               <-> is_Some (Compression._generate_codes root EmptyString ∅ !! c)) /\
    (forall c p, Compression._generate_codes root EmptyString ∅ !! c = Some p ->
                 Coding.binary p /\ p <> EmptyString) /\
    (forall c c' p q,
       Compression._generate_codes root EmptyString ∅ !! c = Some p ->
       Compression._generate_codes root EmptyString ∅ !! c' = Some (p +:+ q) ->
       c' = c /\ q = EmptyString).
Proof.
  assert (H1 : NoDup (map fst [(104, 2); (105, 1)])).
  { cbn [map fst]. repeat constructor; rewrite ?elem_of_cons, ?elem_of_nil; lia. }
  assert (H2 : (2 <= length [(104, 2); (105, 1)])%nat) by (cbn [length]; lia).
  split; [exact H1 | split; [exact H2 |]].
  exact (generate_codes_prefix_free [(104, 2); (105, 1)] H1 H2).
Defined.

(** ** The layout of the compressed stream *)

Section Layout.
Import Compression Coding Trees.

(** The encoding loop of [compress] appends the code of every byte. *)
Lemma encode_loop_digits (codes : gmap Z string) (data : list Z) :
  (forall b, b ∈ data -> is_Some (codes !! b)) ->
  forall acc : string,
    fold_left
      (fun acc byte =>
         encoded_data ← acc;
         match codes !! byte with
         | Some code => Return (encoded_data +:+ code)
         | None => Raise
         end)
      data (Return acc)
    = Return (acc +:+ code_digits codes data).
Proof.
  set (step := fun (acc : result string) (byte : Z) => _).
  induction data as [|b data IH]; intros Hcodes acc; cbn [fold_left code_digits fold_right].
  - now rewrite append_empty_r.
  - destruct (Hcodes b) as [p Hp]; [left|].
    assert (Hstep : step (Return acc) b = Return (acc +:+ p)).
    { unfold step, mbind, result_bind. cbn [Py.bind]. now rewrite Hp. }
    rewrite Hstep, IH by (intros b' Hb'; apply Hcodes; right; exact Hb').
    rewrite Hp. cbn [default]. unfold id. now rewrite append_assoc.
Qed.

(** [compress] does not leave by its [except] branch on an input with
    between 2 and 255 distinct bytes: the lines inside [try] return the
    header followed by the packed digits of the codes. *)
Lemma compress_body_returns (data : bytes) :
  is_bytes data ->
  (2 <= length (Counter_of data) <= 255)%nat ->
  Z.of_nat (length data) < 2 ^ 32 ->
  exists (root : HuffmanNode) (packed : bytes),
    _build_tree (Counter_of data) = Return root /\
    _bitstring_to_bytes (code_digits (_generate_codes root EmptyString ∅) data)
    = Return packed /\
    is_bytes packed /\
    length packed
    = ((String.length (code_digits (_generate_codes root EmptyString ∅) data) + 7) / 8)%nat /\
    compress_body data
    = Return ((Z.of_nat (length (Counter_of data)) :: entries (Counter_of data)) ++ packed).
Proof.
  intros Hbytes Hn Hlen.
  destruct (compress_steps data Hbytes Hn Hlen)
    as (root & enc & packed & Hroot & Hwf & Hchar & Hleaves & Hbin & _ & Hpb & Hpl
        & _ & _).
  destruct (Counter_of_spec data) as (Hnd & _ & Hkeys & _).
  pose proof (Counter_of_entries data Hbytes Hlen) as Hok.
  assert (Hperm : NoDup (leaves root)).
  { destruct (build_tree_wf (Counter_of data)) as (root' & Hroot' & _ & Hp & _).
    - intros E. rewrite E in Hn. cbn in Hn. lia.
    - rewrite Hroot in Hroot'. injection Hroot' as <-. rewrite Hp. exact Hnd. }
  set (codes := _generate_codes root EmptyString ∅).
  assert (Hcodes : forall b, b ∈ data -> is_Some (codes !! b)).
  { intros b Hb.
    destruct (generate_codes_spec root Hwf EmptyString ∅ Hperm b) as [Hin _].
    destruct (Hin (proj2 (Hleaves b) Hb)) as (p & _ & Hc). eexists. exact Hc. }
  pose proof (encode_loop_digits codes data Hcodes EmptyString) as Hloop.
  rewrite append_nil_l in Hloop.
  assert (Hdigits : binary (code_digits codes data)).
  { clear -Hcodes Hwf Hperm. induction data as [|b data IH]; [exact I|].
    cbn [code_digits fold_right]. apply binary_append.
    - destruct (Hcodes b) as [p Hp]; [left|]. rewrite Hp. cbn [default]. unfold id.
      eapply path_binary, generate_codes_paths; eassumption.
    - apply IH. intros b' Hb'. apply Hcodes. right. exact Hb'. }
  destruct (bitstring_to_bytes_returns _ Hdigits) as (packed' & Hpack & Hpb' & Hpl' & _).
  exists root, packed'.
  split; [exact Hroot|]. split; [exact Hpack|]. split; [exact Hpb'|].
  split; [exact Hpl'|].
  unfold compress_body. cbv zeta. rewrite Hroot.
  unfold mbind at 1, result_bind at 1. cbn [Py.bind]. fold codes.
  match goal with
  | |- ?loop ≫= _ = _ =>
      assert (Hm : loop = Return (code_digits codes data)) by exact Hloop; rewrite Hm
  end.
  unfold mbind at 1, result_bind at 1. cbn [Py.bind]. rewrite Hpack.
  unfold mbind at 1, result_bind at 1. cbn [Py.bind].
  rewrite (create_header_returns (Counter_of data) Hok) by lia.
  unfold mbind at 1, result_bind at 1. cbn [Py.bind]. reflexivity.
Qed.

(** On an input with between 2 and 255 distinct bytes (and fewer than
    [2^32] bytes in all) [compress] does not fall back to the input: the
    lines inside [try] return, and the output is the count byte, the
    table of [Counter(data)] with five bytes for each entry, and the
    bytes packed from the codes of the input bytes written one after the
    other. *)
Theorem compress_layout (data : bytes) :
  is_bytes data ->
  (2 <= length (Counter_of data) <= 255)%nat ->
  Z.of_nat (length data) < 2 ^ 32 ->
  exists (root : HuffmanNode) (packed : bytes),
    _build_tree (Counter_of data) = Return root /\
    _bitstring_to_bytes (code_digits (_generate_codes root EmptyString ∅) data)
    = Return packed /\
    compress_body data
    = Return ((Z.of_nat (length (Counter_of data)) :: entries (Counter_of data)) ++ packed) /\
    compress data
    = (Z.of_nat (length (Counter_of data)) :: entries (Counter_of data)) ++ packed /\
    is_bytes (compress data) /\
    length (compress data)
    = (1 + 5 * length (Counter_of data)
       + (String.length (code_digits (_generate_codes root EmptyString ∅) data) + 7) / 8)%nat.
Proof.
  intros Hbytes Hn Hlen.
  destruct (compress_body_returns data Hbytes Hn Hlen)
    as (root & packed & Hroot & Hpack & Hpb & Hpl & Hbody).
  assert (Hcompress : compress data
            = (Z.of_nat (length (Counter_of data)) :: entries (Counter_of data)) ++ packed).
  { unfold compress. destruct data as [|b data]; [cbn in Hn; lia|].
    rewrite Hbody. reflexivity. }
  exists root, packed.
  split; [exact Hroot|]. split; [exact Hpack|]. split; [exact Hbody|].
  split; [exact Hcompress|]. rewrite Hcompress. split.
  - apply Forall_app. split; [| exact Hpb].
    constructor; [unfold is_byte; lia|].
    apply is_bytes_entries, Counter_of_entries; assumption.
  - rewrite length_app. cbn [length]. rewrite length_entries, Hpl. lia.
Qed.

End Layout.

Lemma compress_layout_witness :
  is_bytes [104; 105; 104] /\
  (2 <= length (Compression.Counter_of [104; 105; 104]%Z) <= 255)%nat /\
  Z.of_nat (length [104; 105; 104]) < 2 ^ 32 /\
  exists (root : Compression.HuffmanNode) (packed : bytes),
    Compression._build_tree (Compression.Counter_of [104; 105; 104]) = Return root /\
    Compression._bitstring_to_bytes
      (Coding.code_digits (Compression._generate_codes root EmptyString ∅) [104; 105; 104])
    = Return packed /\
    Compression.compress_body [104; 105; 104]
    = Return ((Z.of_nat (length (Compression.Counter_of [104; 105; 104]%Z))
               :: Coding.entries (Compression.Counter_of [104; 105; 104]%Z)) ++ packed) /\
    Compression.compress [104; 105; 104]
    = (Z.of_nat (length (Compression.Counter_of [104; 105; 104]%Z))
       :: Coding.entries (Compression.Counter_of [104; 105; 104]%Z)) ++ packed /\
    is_bytes (Compression.compress [104; 105; 104]) /\
    length (Compression.compress [104; 105; 104])
    = (1 + 5 * length (Compression.Counter_of [104; 105; 104]%Z)
       + (String.length
            (Coding.code_digits (Compression._generate_codes root EmptyString ∅)
               [104; 105; 104]%Z) + 7) / 8)%nat.
Proof.
  assert (H1 : is_bytes [104; 105; 104]) by (repeat constructor; unfold is_byte; lia).
  assert (H2 : (2 <= length (Compression.Counter_of [104; 105; 104]%Z) <= 255)%nat)
    by (vm_compute; lia).
  assert (H3 : Z.of_nat (length [104; 105; 104]) < 2 ^ 32) by (cbn; lia).
  split; [exact H1 | split; [exact H2 | split; [exact H3 |]]].
  exact (compress_layout [104; 105; 104] H1 H2 H3).
Defined.

Lemma decompress_compress_prefix_witness :
  is_bytes [104; 105; 104] /\
  (2 <= length (Compression.Counter_of [104; 105; 104]%Z) <= 255)%nat /\
  Z.of_nat (length [104; 105; 104]) < 2 ^ 32 /\
  exists extra : bytes,
    Compression.decompress (Compression.compress [104; 105; 104])
    = Some ([104; 105; 104] ++ extra) /\
    (length extra <= 7)%nat /\
    forall c, c ∈ extra -> c ∈ [104; 105; 104].
Proof.
  assert (H1 : is_bytes [104; 105; 104]) by (repeat constructor; unfold is_byte; lia).
  assert (H2 : (2 <= length (Compression.Counter_of [104; 105; 104]%Z) <= 255)%nat)
    by (vm_compute; lia).
  assert (H3 : Z.of_nat (length [104; 105; 104]) < 2 ^ 32) by (cbn; lia).
  split; [exact H1 | split; [exact H2 | split; [exact H3 |]]].
  exact (decompress_compress_prefix [104; 105; 104] H1 H2 H3).
Defined.

Lemma decompress_returns_witness :
  NoDup (map fst [(104, 2); (105, 1)]) /\
  Forall Coding.entry_ok [(104, 2); (105, 1)] /\
  (2 <= length [(104, 2); (105, 1)] <= 255)%nat /\
  is_bytes [200; 13] /\
  exists out : bytes,
    Compression.decompress
      ((Z.of_nat (length [(104, 2); (105, 1)]) :: Coding.entries [(104, 2); (105, 1)])
       ++ [200; 13]) = Some out /\
    (length out <= 8 * length [200; 13])%nat /\
    forall c, c ∈ out -> In c (map fst [(104, 2); (105, 1)]).
Proof.
  assert (H1 : NoDup (map fst [(104, 2); (105, 1)])).
  { cbn [map fst]. repeat constructor; rewrite ?elem_of_cons, ?elem_of_nil; lia. }
  assert (H2 : Forall Coding.entry_ok [(104, 2); (105, 1)]).
  { repeat constructor; cbn [fst snd]; unfold is_byte; lia. }
  assert (H3 : (2 <= length [(104, 2); (105, 1)] <= 255)%nat) by (cbn [length]; lia).
  assert (H4 : is_bytes [200; 13]) by (repeat constructor; unfold is_byte; lia).
  split; [exact H1 | split; [exact H2 | split; [exact H3 | split; [exact H4 |]]]].
  exact (decompress_returns [(104, 2); (105, 1)] [200; 13] H1 H2 H3 H4).
Defined.

(** ** The payload between sender and receiver *)

Section Payload.
Import Compression Encryption Coding Trees.

Variable AES_CBC_encrypt : bytes -> bytes -> bytes -> result bytes.
Variable AES_CBC_decrypt : bytes -> bytes -> bytes -> result bytes.
Variable PKCS1_OAEP_encrypt : bytes -> bytes -> bytes -> result bytes.
Variable PKCS1_OAEP_decrypt : bytes -> bytes -> result bytes.

Hypothesis AES_CBC_ok : AES_CBC_spec AES_CBC_encrypt AES_CBC_decrypt.

(** The envelope of [encrypt], opened by [decrypt], for a plaintext of any
    length. *)
Lemma decrypt_encrypt (b private_key public_key aes_key iv seed : bytes) :
  OAEP_keypair PKCS1_OAEP_encrypt PKCS1_OAEP_decrypt private_key public_key ->
  length aes_key = 32%nat -> length iv = 16%nat ->
  exists envelope,
    encrypt AES_CBC_encrypt PKCS1_OAEP_encrypt b public_key aes_key iv seed
    = Return envelope /\
    decrypt AES_CBC_decrypt PKCS1_OAEP_decrypt envelope private_key = Some b.
Proof.
  intros Hpair Hkey Hiv.
  destruct (pad_length b) as [Hpos Hmod].
  destruct (AES_CBC_ok aes_key iv (pad b 16) Hkey Hiv Hmod) as (c & Hc & Hclen & Hdec).
  destruct (Hpair seed aes_key ltac:(lia)) as (w & Hw & Hwlen & Hunwrap).
  assert (Hkl : to_bytes_big 2 (Z.of_nat (length w))
                = Return (be_digits 2 (Z.of_nat (length w)))).
  { apply (from_bytes_big_to_bytes_big 2). change (256 ^ Z.of_nat 2) with 65536. lia. }
  set (kl := be_digits 2 (Z.of_nat (length w))) in *.
  assert (Hkl2 : length kl = 2%nat) by reflexivity.
  exists (kl ++ w ++ iv ++ c). split.
  - unfold encrypt, AES_block_size. rewrite Hc. py_step. rewrite Hw. py_step.
    rewrite Hkl. reflexivity.
  - unfold decrypt, decrypt_body, iv_size, AES_block_size.
    assert (Hn : Z.to_nat (from_bytes_big (slice (kl ++ w ++ iv ++ c) 0 2)) = length w).
    { unfold slice. rewrite drop_0, take_app_length' by (rewrite Hkl2; reflexivity).
      subst kl. rewrite be_digits_2 by lia. apply Nat2Z.id. }
    rewrite Hn.
    assert (Hek : slice (kl ++ w ++ iv ++ c) 2 (2 + length w) = w).
    { unfold slice. rewrite drop_app_length' by (rewrite Hkl2; reflexivity).
      apply take_app_length'. lia. }
    assert (Hivs : slice (kl ++ w ++ iv ++ c) (2 + length w) (2 + length w + 16) = iv).
    { unfold slice. rewrite (app_assoc kl w).
      rewrite drop_app_length' by (rewrite length_app, Hkl2; reflexivity).
      apply take_app_length'. lia. }
    assert (Hct : drop (2 + length w + 16) (kl ++ w ++ iv ++ c) = c).
    { rewrite !app_assoc. apply drop_app_length'.
      rewrite !length_app, Hkl2, Hiv. reflexivity. }
    rewrite Hek, Hivs, Hct, Hunwrap. py_step. rewrite Hdec. py_step.
    rewrite unpad_pad. reflexivity.
Qed.

(** What the sender hands to the modulator, run through the stages of the
    receiver that follow demodulation with the same two options and the
    matching private key, is the data that was sent; with compression, up
    to 7 more bytes follow it. *)
Theorem receive_payload_send_payload
    (data private_key public_key aes_key iv seed : bytes) (compress encrypt : bool) :
  OAEP_keypair PKCS1_OAEP_encrypt PKCS1_OAEP_decrypt private_key public_key ->
  length aes_key = 32%nat -> length iv = 16%nat ->
  public_key <> [] -> private_key <> [] ->
  is_bytes data ->
  (2 <= length (Counter_of data) <= 255)%nat ->
  Z.of_nat (length data) < 2 ^ 32 ->
  exists (payload extra : bytes),
    Core.send_payload AES_CBC_encrypt PKCS1_OAEP_encrypt
      data (Some public_key) compress encrypt aes_key iv seed = Return payload /\
    Core.receive_payload AES_CBC_decrypt PKCS1_OAEP_decrypt
      payload (Some private_key) compress encrypt = Some (data ++ extra) /\
    (length extra <= 7)%nat /\
    (compress = false -> extra = []).
Proof.
  intros Hpair Hkey Hiv Hpk Hsk Hbytes Hn Hlen.
  assert (Hcd : exists extra : bytes,
             (if compress
              then Compression.decompress (Compression.compress data)
              else Some data) = Some (data ++ extra) /\
             (length extra <= 7)%nat /\ (compress = false -> extra = [])).
  { destruct compress.
    - destruct (compress_steps data Hbytes Hn Hlen)
        as (root & enc & packed & Hroot & Hwf & Hchar & _ & _ & Hdec & _ & _
            & Hps & Hcompress).
      destruct (Counter_of_spec data) as (Hnd & _).
      pose proof (Counter_of_entries data Hbytes Hlen) as Hok.
      destruct (decode_loop_returns root Hwf Hchar
                  (zeros ((8 - String.length enc mod 8) mod 8)) root data Hwf Hchar
                  (fun c H => H)) as (extra & Hextra & Hle & _).
      exists extra. split; [| split; [| discriminate]].
      + rewrite Hcompress. unfold decompress. cbn [app].
        change (Z.of_nat (length (Counter_of data)) :: entries (Counter_of data) ++ packed)
          with ((Z.of_nat (length (Counter_of data)) :: entries (Counter_of data)) ++ packed).
        unfold decompress_body.
        rewrite (extract_header_entries (Counter_of data) packed Hnd Hok).
        unfold mbind at 1, result_bind at 1. cbn [Py.bind].
        rewrite Hroot. unfold mbind at 1, result_bind at 1. cbn [Py.bind]. cbv zeta.
        rewrite Hps, Hdec. cbn [app]. rewrite Hextra. reflexivity.
      + rewrite length_zeros in Hle.
        pose proof (Nat.mod_upper_bound (8 - String.length enc mod 8) 8). lia.
    - exists []. rewrite app_nil_r. split; [reflexivity|]. split; [cbn; lia | reflexivity]. }
  destruct Hcd as (extra & Hcd & Hle & Hnil).
  assert (Htp : Core.truthy (Some public_key) = true)
    by (destruct public_key; [congruence | reflexivity]).
  assert (Hts : Core.truthy (Some private_key) = true)
    by (destruct private_key; [congruence | reflexivity]).
  unfold Core.send_payload, Core.receive_payload. cbv zeta.
  rewrite Htp, Hts, !andb_true_r. cbn [default]. unfold id.
  destruct encrypt.
  - destruct (decrypt_encrypt (if compress then Compression.compress data else data)
                private_key public_key aes_key iv seed Hpair Hkey Hiv)
      as (envelope & Hseal & Hopen).
    exists envelope, extra. rewrite Hseal, Hopen.
    split; [reflexivity|]. split; [| split; assumption].
    destruct compress; exact Hcd.
  - exists (if compress then Compression.compress data else data), extra.
    split; [reflexivity|]. split; [| split; assumption].
    destruct compress; exact Hcd.
Qed.

End Payload.

Lemma receive_payload_send_payload_witness :
  Encryption.OAEP_keypair Standin.toy_wrap Standin.toy_unwrap [3] [1] /\
  length (repeat 5 32) = 32%nat /\ length (repeat 7 16) = 16%nat /\
  [1] <> ([] : bytes) /\ [3] <> ([] : bytes) /\
  is_bytes [104; 105; 104] /\
  (2 <= length (Compression.Counter_of [104; 105; 104]%Z) <= 255)%nat /\
  Z.of_nat (length [104; 105; 104]) < 2 ^ 32 /\
  exists (payload extra : bytes),
    Core.send_payload Standin.toy_cipher Standin.toy_wrap
      [104; 105; 104] (Some [1]) true true (repeat 5 32) (repeat 7 16) [2]
    = Return payload /\
    Core.receive_payload Standin.toy_cipher Standin.toy_unwrap
      payload (Some [3]) true true = Some ([104; 105; 104] ++ extra) /\
    (length extra <= 7)%nat /\
    (true = false -> extra = []).
Proof.
  assert (H1 : is_bytes [104; 105; 104]) by (repeat constructor; unfold is_byte; lia).
  assert (H2 : (2 <= length (Compression.Counter_of [104; 105; 104]%Z) <= 255)%nat)
    by (vm_compute; lia).
  assert (H3 : Z.of_nat (length [104; 105; 104]) < 2 ^ 32) by (cbn; lia).
  assert (H4 : [1] <> ([] : bytes)) by discriminate.
  assert (H5 : [3] <> ([] : bytes)) by discriminate.
  split; [exact (toy_keypair [3] [1])|].
  split; [reflexivity|]. split; [reflexivity|].
  split; [exact H4|]. split; [exact H5|].
  split; [exact H1|]. split; [exact H2|]. split; [exact H3|].
  exact (receive_payload_send_payload Standin.toy_cipher Standin.toy_cipher
           Standin.toy_wrap Standin.toy_unwrap toy_cipher_spec
           [104; 105; 104] [3] [1] (repeat 5 32) (repeat 7 16) [2] true true
           (toy_keypair [3] [1]) eq_refl eq_refl H4 H5 H1 H2 H3).
Defined.
